(** * MathForge: the expression, matrix, quadratic and factorisation core

    A shallow embedding of [services/mathService], the part of
    [src/constants.tsx] from [safeEvaluate] to [primeFactorize] (the
    arithmetic and scientific evaluators, the matrix routines, the
    quadratic solver, the function parser and the prime factoriser), and
    of the divisor lists that the prime factoriser's component computes
    from a factorisation, followed by the properties established about
    them.

    Conventions.
    - A JavaScript string is the list of its UTF-16 code units.
    - A JavaScript number is an IEEE-754 binary64 value, taken from
      [SpecFloat] at precision 53 and maximal exponent 1024.
    - A thrown [Error] is a result constructor that carries the message. *)

From stdpp Require Import base list sorting.
From Stdlib Require Import ZArith NArith Lia Bool List String Ascii.
From Stdlib Require Import Sorted Permutation DecimalString.
From Stdlib Require Import Floats.SpecFloat.
Import ListNotations.

#[local] Unset Default Proof Using.
#[local] Open Scope Z_scope.

(** ** Strings *)

Module JSString.

Definition jsstring := list N.

(** The code units of an ASCII literal. *)
Definition js (s : string) : jsstring :=
  List.map N_of_ascii (list_ascii_of_string s).

Definition inRange (lo hi c : N) : bool := (N.leb lo c && N.leb c hi)%bool.

Definition isDigit (c : N) : bool := inRange 48 57 c.
Definition isLower (c : N) : bool := inRange 97 122 c.
Definition isUpper (c : N) : bool := inRange 65 90 c.

(** The class [\w] of a regular expression without the unicode flag. *)
Definition isWord (c : N) : bool :=
  (isDigit c || isLower c || isUpper c || N.eqb c 95)%bool.

(** The class [\s]: WhiteSpace and LineTerminator of ECMA-262. It is also
    the set of code units that [String.prototype.trim] strips. *)
Definition isWhiteSpace (c : N) : bool :=
  (inRange 9 13 c || N.eqb c 32 || N.eqb c 160 || N.eqb c 5760
   || inRange 8192 8202 c || N.eqb c 8232 || N.eqb c 8233 || N.eqb c 8239
   || N.eqb c 8287 || N.eqb c 12288 || N.eqb c 65279)%bool.

Fixpoint str_eqb (a b : jsstring) : bool :=
  match a, b with
  | [], [] => true
  | x :: a', y :: b' => (N.eqb x y && str_eqb a' b')%bool
  | _, _ => false
  end.

Fixpoint dropWhile (p : N -> bool) (s : jsstring) : jsstring :=
  match s with
  | [] => []
  | c :: s' => if p c then dropWhile p s' else s
  end.

Definition trimStart (s : jsstring) : jsstring := dropWhile isWhiteSpace s.
Definition trimEnd (s : jsstring) : jsstring :=
  rev (dropWhile isWhiteSpace (rev s)).

(** [s.trim()] *)
Definition trim (s : jsstring) : jsstring := trimEnd (trimStart s).

(** [s.replace(/[class]/g, '')] for a one-character class. *)
Definition removeAll (p : N -> bool) (s : jsstring) : jsstring :=
  List.filter (fun c => negb (p c)) s.

(** [/[class]/.test(s)] for a one-character class. *)
Definition testAny (p : N -> bool) (s : jsstring) : bool := existsb p s.

Fixpoint isPrefix (p s : jsstring) : bool :=
  match p, s with
  | [], _ => true
  | x :: p', y :: s' => (N.eqb x y && isPrefix p' s')%bool
  | _ :: _, [] => false
  end.

(** [s.replace(/c/g, rep)] for a one-character pattern. *)
Definition replaceChar (c : N) (rep s : jsstring) : jsstring :=
  flat_map (fun d => if N.eqb d c then rep else [d]) s.

(** The first alternative of [alts] that is a prefix of [s]. *)
Fixpoint firstPrefix (alts : list jsstring) (s : jsstring) : option jsstring :=
  match alts with
  | [] => None
  | a :: alts' => if isPrefix a s then Some a else firstPrefix alts' s
  end.

(** [s.replace(/a1|a2|.../g, rep)] for literal, non-empty alternatives:
    matches are taken left to right and do not overlap. [skip] counts the
    code units of the current match that are still to be consumed. *)
Fixpoint replaceAlt_go (alts : list jsstring) (rep : jsstring) (skip : nat)
  (s : jsstring) : jsstring :=
  match s with
  | [] => []
  | c :: s' =>
      match skip with
      | S k => replaceAlt_go alts rep k s'
      | O =>
          match firstPrefix alts s with
          | Some a => rep ++ replaceAlt_go alts rep (List.length a - 1) s'
          | None => c :: replaceAlt_go alts rep O s'
          end
      end
  end.

Definition replaceAlt (alts : list jsstring) (rep s : jsstring) : jsstring :=
  replaceAlt_go (List.filter (fun a => negb (str_eqb a [])) alts) rep O s.

End JSString.
Import JSString.

(** ** Numbers *)

Module JSNumber.

Definition num := spec_float.

Definition prec : Z := 53.
Definition emax : Z := 1024.

Definition nan : num := S754_nan.
Definition infinity : num := S754_infinity false.
Definition zero : num := S754_zero false.

(** The double nearest to an integer (exact below 2^53). *)
Definition ofZ (z : Z) : num := binary_normalize prec emax z 0 false.

Definition add : num -> num -> num := SFadd prec emax.
Definition sub : num -> num -> num := SFsub prec emax.
Definition mul : num -> num -> num := SFmul prec emax.
Definition div : num -> num -> num := SFdiv prec emax.
Definition sqrt : num -> num := SFsqrt prec emax.
Definition neg : num -> num := SFopp.
Definition abs : num -> num := SFabs.

(** [a < b], [a > b] and [a === b] on numbers; all false on NaN. *)
Definition lt (a b : num) : bool := SFltb a b.
Definition gt (a b : num) : bool := SFltb b a.
Definition eq (a b : num) : bool := SFeqb a b.

(** The global [isFinite] on a number. *)
Definition isFinite (v : num) : bool :=
  match v with
  | S754_zero _ | S754_finite _ _ _ => true
  | S754_infinity _ | S754_nan => false
  end.

(** [Math.PI] and [Math.E], by their binary64 bit patterns. *)
Definition PI : num := S754_finite false 7074237752028440 (-51).
Definition E : num := S754_finite false 6121026514868073 (-51).

(** [Number.isInteger(n)] *)
Definition isInteger (n : num) : bool :=
  match n with
  | S754_zero _ => true
  | S754_finite _ m e =>
      if 0 <=? e then true else (Z.pos m mod 2 ^ (- e) =? 0)
  | S754_infinity _ | S754_nan => false
  end.

(** The integer an integral number stands for. *)
Definition toZ (n : num) : Z :=
  match n with
  | S754_finite s m e =>
      cond_Zopp s (if 0 <=? e then Z.pos m * 2 ^ e else Z.pos m / 2 ^ (- e))
  | _ => 0
  end.

(** [(-1) ** k] for a loop counter [k]. *)
Definition minusOnePow (k : nat) : num :=
  if Nat.even k then ofZ 1 else ofZ (-1).

End JSNumber.
Import JSNumber.

(** ** The host: [new Function] on the expression fragment

    Both evaluators and the function parser hand a source text to the
    host's [Function] constructor. The host is modelled on the fragment of
    ECMAScript the service generates: decimal literals, names and dotted
    names, unary [+ -], binary [+ - * /], parentheses, and calls with one
    argument. A text outside the fragment (comments, regular-expression
    literals, [**], [%], [++], legacy octal literals, line breaks, other
    characters) is [NotModelled]: the model says nothing about it. *)

Module Host.

Inductive token : Type :=
| TNum (v : num)
| TName (n : jsstring)
| TDot | TPlus | TMinus | TStar | TSlash | TLParen | TRParen.

Definition isIdentStart (c : N) : bool :=
  (isLower c || isUpper c || N.eqb c 95 || N.eqb c 36)%bool.
Definition isIdentPart (c : N) : bool := (isIdentStart c || isDigit c)%bool.

Fixpoint span (p : N -> bool) (s : jsstring) : jsstring * jsstring :=
  match s with
  | [] => ([], [])
  | c :: s' =>
      if p c then let (a, b) := span p s' in (c :: a, b) else ([], s)
  end.

Definition digitsToZ (ds : jsstring) : Z :=
  fold_left (fun acc d => acc * 10 + (Z.of_N d - 48)) ds 0.

(** The value of the decimal literal [ip.fp]. The quotient of two exactly
    represented integers is rounded once, as the literal's value is; longer
    literals are left out. *)
Definition literal (ip fp : jsstring) : option num :=
  let m := digitsToZ (ip ++ fp) in
  let k := Z.of_nat (List.length fp) in
  match ip with
  | 48%N :: _ :: _ => None
  | _ =>
      if (k =? 0) then Some (ofZ m)
      else if ((m <? 2 ^ 53) && (k <=? 15))%bool
      then Some (div (ofZ m) (ofZ (10 ^ k)))
      else None
  end.

Definition startsWith (p : N -> bool) (s : jsstring) : bool :=
  match s with
  | c :: _ => p c
  | [] => false
  end.

(** A numeric literal may not be followed at once by a name or a digit. *)
Definition afterLiteral (v : option num) (rest : jsstring)
  (k : jsstring -> option (list token)) : option (list token) :=
  match v with
  | None => None
  | Some v =>
      if startsWith isIdentPart rest then None
      else option_map (cons (TNum v)) (k rest)
  end.

Fixpoint tokenize_go (fuel : nat) (s : jsstring) : option (list token) :=
  match fuel with
  | O => match s with [] => Some [] | _ => None end
  | S fuel' =>
      match s with
      | [] => Some []
      | c :: s' =>
          if (N.eqb c 32 || N.eqb c 9)%bool then tokenize_go fuel' s'
          else if isDigit c then
            let (ip, r) := span isDigit s in
            match r with
            | 46%N :: r' =>
                let (fp, r'') := span isDigit r' in
                afterLiteral (literal ip fp) r'' (tokenize_go fuel')
            | _ => afterLiteral (literal ip []) r (tokenize_go fuel')
            end
          else if N.eqb c 46 then
            if startsWith isDigit s' then
              let (fp, r) := span isDigit s' in
              afterLiteral (literal [] fp) r (tokenize_go fuel')
            else option_map (cons TDot) (tokenize_go fuel' s')
          else if isIdentStart c then
            let (n, r) := span isIdentPart s in
            option_map (cons (TName n)) (tokenize_go fuel' r)
          else if N.eqb c 43 then
            if startsWith (N.eqb 43) s' then None
            else option_map (cons TPlus) (tokenize_go fuel' s')
          else if N.eqb c 45 then
            if startsWith (N.eqb 45) s' then None
            else option_map (cons TMinus) (tokenize_go fuel' s')
          else if N.eqb c 42 then
            if startsWith (N.eqb 42) s' then None
            else option_map (cons TStar) (tokenize_go fuel' s')
          else if N.eqb c 47 then
            if startsWith (fun d => N.eqb d 47 || N.eqb d 42)%bool s'
            then None
            else option_map (cons TSlash) (tokenize_go fuel' s')
          else if N.eqb c 40 then
            option_map (cons TLParen) (tokenize_go fuel' s')
          else if N.eqb c 41 then
            option_map (cons TRParen) (tokenize_go fuel' s')
          else None
      end
  end.

Definition tokenize (s : jsstring) : option (list token) :=
  tokenize_go (List.length s) s.

Inductive binop : Type := Add | Sub | Mul | Div.

Inductive expr : Type :=
| ENum (v : num)
| ERef (path : list jsstring)
| EPos (e : expr)
| ENeg (e : expr)
| EBin (op : binop) (a b : expr)
| ECall (callee arg : expr).

(** A name followed by property accesses: [n.p1.p2]. *)
Fixpoint parseMember (path : list jsstring) (ts : list token)
  : option (expr * list token) :=
  match ts with
  | TDot :: TName m :: rest => parseMember (path ++ [m]) rest
  | TDot :: _ => None
  | _ => Some (ERef path, ts)
  end.

(** Recursive descent, one function per precedence level; every call
    spends one unit of fuel. *)
Fixpoint parseAdditive (fuel : nat) (ts : list token) {struct fuel}
  : option (expr * list token) :=
  match fuel with
  | O => None
  | S f =>
      match parseMultiplicative f ts with
      | Some (lhs, rest) => parseAdditiveTail f lhs rest
      | None => None
      end
  end
with parseAdditiveTail (fuel : nat) (lhs : expr) (ts : list token)
  {struct fuel} : option (expr * list token) :=
  match fuel with
  | O => None
  | S f =>
      match ts with
      | TPlus :: ts' =>
          match parseMultiplicative f ts' with
          | Some (rhs, rest) => parseAdditiveTail f (EBin Add lhs rhs) rest
          | None => None
          end
      | TMinus :: ts' =>
          match parseMultiplicative f ts' with
          | Some (rhs, rest) => parseAdditiveTail f (EBin Sub lhs rhs) rest
          | None => None
          end
      | _ => Some (lhs, ts)
      end
  end
with parseMultiplicative (fuel : nat) (ts : list token) {struct fuel}
  : option (expr * list token) :=
  match fuel with
  | O => None
  | S f =>
      match parseUnary f ts with
      | Some (lhs, rest) => parseMultiplicativeTail f lhs rest
      | None => None
      end
  end
with parseMultiplicativeTail (fuel : nat) (lhs : expr) (ts : list token)
  {struct fuel} : option (expr * list token) :=
  match fuel with
  | O => None
  | S f =>
      match ts with
      | TStar :: ts' =>
          match parseUnary f ts' with
          | Some (rhs, rest) =>
              parseMultiplicativeTail f (EBin Mul lhs rhs) rest
          | None => None
          end
      | TSlash :: ts' =>
          match parseUnary f ts' with
          | Some (rhs, rest) =>
              parseMultiplicativeTail f (EBin Div lhs rhs) rest
          | None => None
          end
      | _ => Some (lhs, ts)
      end
  end
with parseUnary (fuel : nat) (ts : list token) {struct fuel}
  : option (expr * list token) :=
  match fuel with
  | O => None
  | S f =>
      match ts with
      | TPlus :: ts' =>
          match parseUnary f ts' with
          | Some (e, rest) => Some (EPos e, rest)
          | None => None
          end
      | TMinus :: ts' =>
          match parseUnary f ts' with
          | Some (e, rest) => Some (ENeg e, rest)
          | None => None
          end
      | _ =>
          match parsePrimary f ts with
          | Some (e, rest) => parseCallTail f e rest
          | None => None
          end
      end
  end
with parseCallTail (fuel : nat) (callee : expr) (ts : list token)
  {struct fuel} : option (expr * list token) :=
  match fuel with
  | O => None
  | S f =>
      match ts with
      | TLParen :: ts' =>
          match parseAdditive f ts' with
          | Some (arg, TRParen :: rest) =>
              parseCallTail f (ECall callee arg) rest
          | _ => None
          end
      | _ => Some (callee, ts)
      end
  end
with parsePrimary (fuel : nat) (ts : list token) {struct fuel}
  : option (expr * list token) :=
  match fuel with
  | O => None
  | S f =>
      match ts with
      | TNum v :: rest => Some (ENum v, rest)
      | TName n :: rest => parseMember [n] rest
      | TLParen :: ts' =>
          match parseAdditive f ts' with
          | Some (e, TRParen :: rest) => Some (e, rest)
          | _ => None
          end
      | _ => None
      end
  end.

Inductive parsed : Type :=
| Parsed (e : option expr)
| Malformed
| Outside.

Definition isPlain (t : token) : bool :=
  match t with
  | TNum _ | TPlus | TMinus | TStar => true
  | _ => false
  end.

(** The expression of a [return] statement; the bare [return] has none.
    Over literals and [+ - *] alone the grammar here is all of the
    host's, so a text that does not parse is a syntax error. *)
Definition parseReturn (src : jsstring) : parsed :=
  match tokenize src with
  | None => Outside
  | Some [] => Parsed None
  | Some ts =>
      match parseAdditive (8 * List.length ts + 8) ts with
      | Some (e, []) => Parsed (Some e)
      | _ => if forallb isPlain ts then Malformed else Outside
      end
  end.

(** Values that the fragment can produce or pass around. *)
#[warnings="-register-all"]
Inductive value : Type :=
| VNum (v : num)
| VNull
| VUndefined
| VFun (f : num -> option num)
| VObj (get : jsstring -> option value).

(** A host function on numbers is [None] where ECMA-262 leaves its value
    implementation-approximated. *)
Definition fnval := num -> option num.

Definition env := list (jsstring * value).

Fixpoint assoc {A : Type} (n : jsstring) (m : list (jsstring * A))
  : option A :=
  match m with
  | [] => None
  | (k, v) :: m' => if str_eqb k n then Some v else assoc n m'
  end.

Fixpoint getPath (v : value) (path : list jsstring) : option value :=
  match path with
  | [] => Some v
  | p :: path' =>
      match v with
      | VObj get =>
          match get p with
          | Some w => getPath w path'
          | None => None
          end
      | _ => None
      end
  end.

Definition resolve (rho : env) (path : list jsstring) : option value :=
  match path with
  | [] => None
  | n :: path' =>
      match assoc n rho with
      | Some v => getPath v path'
      | None => None
      end
  end.

(** The outcome of running code: a value, an exception, or a result the
    model does not determine. *)
Inductive completion : Type :=
| Normal (v : value)
| Throw
| Unspecified.

Definition arith (op : binop) (a b : num) : num :=
  match op with
  | Add => add a b
  | Sub => sub a b
  | Mul => mul a b
  | Div => div a b
  end.

Fixpoint eval (rho : env) (e : expr) : completion :=
  match e with
  | ENum v => Normal (VNum v)
  | ERef path =>
      match resolve rho path with
      | Some v => Normal v
      | None => Unspecified
      end
  | EPos a =>
      match eval rho a with
      | Normal (VNum v) => Normal (VNum v)
      | Normal _ => Unspecified
      | c => c
      end
  | ENeg a =>
      match eval rho a with
      | Normal (VNum v) => Normal (VNum (neg v))
      | Normal _ => Unspecified
      | c => c
      end
  | EBin op a b =>
      match eval rho a with
      | Normal va =>
          match eval rho b with
          | Normal vb =>
              match va, vb with
              | VNum x, VNum y => Normal (VNum (arith op x y))
              | _, _ => Unspecified
              end
          | c => c
          end
      | c => c
      end
  | ECall callee arg =>
      match eval rho callee with
      | Normal vf =>
          match eval rho arg with
          | Normal va =>
              match vf with
              | VFun f =>
                  match va with
                  | VNum x =>
                      match f x with
                      | Some r => Normal (VNum r)
                      | None => Unspecified
                      end
                  | _ => Unspecified
                  end
              | _ => Throw
              end
          | c => c
          end
      | c => c
      end
  end.

(** The global object as far as the generated texts use it. *)
Definition globals : env :=
  [(js "Math", VObj (fun p => assoc p [(js "PI", VNum PI); (js "E", VNum E)]))].

(** Every name of the expression resolves to a parameter or to a property
    of [Math]; other names would go to the host's global object. *)
Fixpoint wellScoped (rho : env) (e : expr) : bool :=
  match e with
  | ENum _ => true
  | ERef path => match resolve rho path with Some _ => true | None => false end
  | EPos a | ENeg a => wellScoped rho a
  | EBin _ a b | ECall a b => (wellScoped rho a && wellScoped rho b)%bool
  end.

(** The two body templates the service passes to [new Function]:
    [return SRC] and [try { return SRC; } catch (e) { return null; }]. *)
Inductive body : Type :=
| ReturnOf (src : jsstring)
| TryReturnOf (src : jsstring).

Inductive constructed : Type :=
| Constructed (call : list value -> completion)
| SyntaxError
| NotModelled.

Definition bodySource (b : body) : jsstring :=
  match b with ReturnOf src | TryReturnOf src => src end.

Definition guardTry (b : body) (c : completion) : completion :=
  match b, c with
  | TryReturnOf _, Throw => Normal VNull
  | _, _ => c
  end.

(** [new Function(p1, ..., pn, body)]. The resulting function binds its
    arguments to the parameter names, over the globals. *)
Definition newFunction (params : list jsstring) (b : body) : constructed :=
  match parseReturn (bodySource b) with
  | Outside => NotModelled
  | Malformed => SyntaxError
  | Parsed None => Constructed (fun _ => Normal VUndefined)
  | Parsed (Some e) =>
      Constructed (fun args =>
        let rho := combine params args ++ globals in
        if wellScoped rho e then guardTry b (eval rho e) else Unspecified)
  end.

End Host.
Import Host.

(** ** The host's [Math] functions

    ECMA-262 fixes these functions at the special arguments and leaves the
    other values implementation-approximated; the model follows it. *)

Module HostMath.

Definition one : num := ofZ 1.

Definition Math_sin : fnval := fun x =>
  match x with
  | S754_nan | S754_infinity _ => Some nan
  | S754_zero _ => Some x
  | S754_finite _ _ _ => None
  end.

Definition Math_cos : fnval := fun x =>
  match x with
  | S754_nan | S754_infinity _ => Some nan
  | S754_zero _ => Some one
  | S754_finite _ _ _ => None
  end.

Definition Math_tan : fnval := Math_sin.

Definition Math_sqrt : fnval := fun x =>
  match x with
  | S754_nan | S754_infinity true | S754_finite true _ _ => Some nan
  | S754_zero _ | S754_infinity false => Some x
  | S754_finite false _ _ => None
  end.

Definition Math_log : fnval := fun x =>
  match x with
  | S754_nan | S754_infinity true | S754_finite true _ _ => Some nan
  | S754_zero _ => Some (S754_infinity true)
  | S754_infinity false => Some x
  | S754_finite false _ _ => if eq x one then Some zero else None
  end.

Definition Math_log10 : fnval := Math_log.

Definition Math_abs : fnval := fun x => Some (abs x).

Definition bind (a : option num) (f : num -> option num) : option num :=
  match a with
  | Some v => f v
  | None => None
  end.

(** [1 / f(x)] *)
Definition reciprocal (f : fnval) : fnval := fun x =>
  bind (f x) (fun y => Some (div one y)).

End HostMath.
Import HostMath.

(** ** The arithmetic and the scientific evaluator *)

Module Evaluator.

(** What an evaluator hands back: the value it returns, or no statement
    where the host model makes none. Neither evaluator throws. *)
Inductive result : Type :=
| Returns (v : value)
| Unmodelled.

Definition oneOf (cs : list N) (c : N) : bool := existsb (N.eqb c) cs.

(** The class [[0-9+\-*/().\s%]]. *)
Definition arithChar (c : N) : bool :=
  (isDigit c || oneOf [43; 45; 42; 47; 40; 41; 46; 37]%N c
   || isWhiteSpace c)%bool.

(** The class [[0-9+\-*/().\s%a-z]]. *)
Definition scientificChar (c : N) : bool := (arithChar c || isLower c)%bool.

(** [try { return new Function(...)(args) } catch (e) { return null }] *)
Definition callCaught (c : constructed) (args : list value) : result :=
  match c with
  | SyntaxError => Returns VNull
  | NotModelled => Unmodelled
  | Constructed call =>
      match call args with
      | Normal v => Returns v
      | Throw => Returns VNull
      | Unspecified => Unmodelled
      end
  end.

Definition sanitize (expression : jsstring) : jsstring :=
  removeAll (fun c => negb (arithChar c)) expression.

Definition safeEvaluate (expression : jsstring) : result :=
  let sanitized := sanitize expression in
  if negb (str_eqb sanitized (trim expression)) then Returns VNull
  else callCaught (newFunction [] (ReturnOf sanitized)) [].

Definition sanitizeScientific (expression : jsstring) : jsstring :=
  replaceChar 101 (js "Math.E")
    (replaceChar 960 (js "Math.PI")
       (replaceChar 94 (js "**") expression)).

Definition degrees (f : fnval) : fnval := fun d =>
  f (div (mul d PI) (ofZ 180)).

(** The functions [sin, cos, tan, log, ln, sqrt] set up for the call. *)
Definition scientificParams : list jsstring :=
  [js "sin"; js "cos"; js "tan"; js "log"; js "ln"; js "sqrt"].

Definition scientificArgs (isDeg : bool) : list value :=
  let sin := if isDeg then degrees Math_sin else Math_sin in
  let cos := if isDeg then degrees Math_cos else Math_cos in
  let tan := if isDeg then degrees Math_tan else Math_tan in
  let log := Math_log10 in
  let ln := Math_log in
  let sqrt := Math_sqrt in
  [VFun sin; VFun cos; VFun tan; VFun log; VFun ln; VFun sqrt].

(** [validationRegex.test(sanitized.replace(/Math\.PI|Math\.E/g, ''))] *)
Definition invalidScientific (sanitized : jsstring) : bool :=
  testAny (fun c => negb (scientificChar c))
    (replaceAlt [js "Math.PI"; js "Math.E"] [] sanitized).

Definition evaluateScientific (expression : jsstring) (isDeg : bool)
  : result :=
  let sanitized := sanitizeScientific expression in
  if invalidScientific sanitized then Returns VNull
  else
    callCaught (newFunction scientificParams (ReturnOf sanitized))
      (scientificArgs isDeg).

End Evaluator.
Import Evaluator.

(** ** Results of the service functions that may throw *)

Inductive outcome (A : Type) : Type :=
| Ok (a : A)
| Throws (message : jsstring)
| OutOfFuel.
Arguments Ok {A} a.
Arguments Throws {A} message.
Arguments OutOfFuel {A}.

(** ** Matrices *)

Module Matrix.

Abbreviation matrix := (list (list num)).

(** [row[j]]. A read past the end yields [undefined], which arithmetic
    turns into NaN; the model reads NaN. *)
Definition at_ (row : list num) (j : nat) : num := nth j row nan.

(** [m[i][j]] *)
Definition cell (m : matrix) (i j : nat) : num := at_ (nth i m []) j.

(** [row[j] = v]; a write past the end extends the row. *)
Definition store (j : nat) (v : num) (row : list num) : list num :=
  if (j <? List.length row)%nat then <[j := v]> row
  else row ++ repeat nan (j - List.length row) ++ [v].

(** [m[i][j] = v] for a row index in range. *)
Definition setCell (m : matrix) (i j : nat) (v : num) : matrix :=
  <[i := store j v (nth i m [])]> m.

(** [m[0].length] *)
Definition cols (m : matrix) : nat := List.length (nth 0%nat m []).

(** [a.filter((_, k) => k !== i)] *)
Definition removeAt {A : Type} (i : nat) (a : list A) : list A :=
  firstn i a ++ skipn (S i) a.

Definition getMinor (m : matrix) (r c : nat) : matrix :=
  List.map (removeAt c) (removeAt r m).

(** All rows of [m] have [c] entries. *)
Definition rectangular (c : nat) (m : matrix) : Prop :=
  Forall (fun row => List.length row = c) m.

(** An [n] by [n] matrix, [n] not zero. *)
Definition squareOf (n : nat) (m : matrix) : Prop :=
  n <> 0%nat /\ List.length m = n /\ rectangular n m.

Definition notSquare (m : matrix) : bool :=
  ((List.length m =? 0)%nat || negb (List.length m =? cols m)%nat)%bool.

Definition wrongOrderDeterminant : jsstring :=
  js "Wrong Order: Matrix must be square for determinant calculation.".
Definition wrongOrderInverse : jsstring :=
  js "Wrong Order: Matrix must be square for inversion.".
Definition singularMessage : jsstring :=
  js "Matrix is singular and cannot be inverted (determinant is zero).".

(** Laplace expansion along the first row. The fuel bounds the depth of
    the recursion, which is the order of the matrix. *)
Fixpoint determinant_rec (fuel : nat) (m : matrix) : outcome num :=
  if notSquare m then Throws wrongOrderDeterminant
  else if (List.length m =? 1)%nat then Ok (cell m 0 0)
  else if (List.length m =? 2)%nat
  then Ok (sub (mul (cell m 0 0) (cell m 1 1)) (mul (cell m 0 1) (cell m 1 0)))
  else
    match fuel with
    | O => OutOfFuel
    | S fuel' =>
        fold_left
          (fun (det : outcome num) (c : nat) =>
             match det with
             | Ok d =>
                 match determinant_rec fuel' (getMinor m 0 c) with
                 | Ok sub_det =>
                     Ok (add d (mul (mul (minusOnePow c) (cell m 0 c)) sub_det))
                 | Throws e => Throws e
                 | OutOfFuel => OutOfFuel
                 end
             | _ => det
             end)
          (seq 0 (List.length m)) (Ok zero)
    end.

Definition determinant (m : matrix) : outcome num :=
  determinant_rec (List.length m) m.

Definition transpose (m : matrix) : matrix :=
  match m with
  | [] => []
  | row0 :: _ =>
      if (List.length row0 =? 0)%nat then []
      else List.map (fun colIndex => List.map (fun row => at_ row colIndex) m)
             (seq 0 (List.length row0))
  end.

(** The literal [1e-10]. *)
Definition epsilon : num := S754_finite false 7737125245533627 (-86).

(** [[...row, ...Array(n).fill(0).map((_, j) => i === j ? 1 : 0)]] *)
Definition augmentRow (n i : nat) (row : list num) : list num :=
  row ++ List.map (fun j => if (i =? j)%nat then ofZ 1 else ofZ 0) (seq 0 n).

Definition augment (n : nat) (m : matrix) : matrix :=
  imap (augmentRow n) m.

(** The row with the largest absolute entry in column [i], from row [i] on. *)
Definition pivotRow (n i : nat) (aug : matrix) : nat :=
  fold_left
    (fun maxRow k =>
       if gt (abs (cell aug k i)) (abs (cell aug maxRow i)) then k else maxRow)
    (seq (S i) (n - S i)) i.

(** [[aug[i], aug[k]] = [aug[k], aug[i]]] *)
Definition swapRows (i k : nat) (aug : matrix) : matrix :=
  <[k := nth i aug []]> (<[i := nth k aug []]> aug).

(** [for (j = i; j < 2 * n; j++) aug[i][j] /= pivot] *)
Definition scaleRow (n i : nat) (aug : matrix) : matrix :=
  let pivot := cell aug i i in
  fold_left (fun a j => setCell a i j (div (cell a i j) pivot))
    (seq i (2 * n - i)) aug.

(** [for (j = i; j < 2 * n; j++) aug[k][j] -= factor * aug[i][j]] *)
Definition eliminateRow (n i k : nat) (aug : matrix) : matrix :=
  let factor := cell aug k i in
  fold_left (fun a j => setCell a k j (sub (cell a k j) (mul factor (cell a i j))))
    (seq i (2 * n - i)) aug.

Definition eliminateColumn (n i : nat) (aug : matrix) : matrix :=
  fold_left (fun a k => if (k =? i)%nat then a else eliminateRow n i k a)
    (seq 0 n) aug.

(** One round of the outer loop at column [i]. *)
Definition gaussJordanStep (n : nat) (aug : matrix) (i : nat) : matrix :=
  let swapped := swapRows i (pivotRow n i aug) aug in
  eliminateColumn n i (scaleRow n i swapped).

Definition gaussJordan (n : nat) (aug : matrix) : matrix :=
  fold_left (gaussJordanStep n) (seq 0 n) aug.

(** *** The same rounds, row by row *)

(** The pivot row, divided by the pivot from column [i] on. *)
Definition normalizeRow (i : nat) (p : list num) : list num :=
  imap (fun j x => if (i <=? j)%nat then div x (at_ p i) else x) p.

(** [row] less the multiple of the pivot row [p] that clears its column
    [i], from column [i] on. *)
Definition clearRow (i : nat) (p row : list num) : list num :=
  imap (fun j x => if (i <=? j)%nat then sub x (mul (at_ row i) (at_ p j)) else x)
    row.

(** One round: the row with the largest entry in column [i] is swapped
    in and normalised, and column [i] is cleared from all other rows. *)
Definition gaussJordanRound (n : nat) (aug : matrix) (i : nat) : matrix :=
  let swapped := swapRows i (pivotRow n i aug) aug in
  let p := normalizeRow i (nth i swapped []) in
  imap (fun k row => if (k =? i)%nat then p else clearRow i p row) swapped.

(** [n] rows of [2 n] entries. *)
Definition wide (n : nat) (aug : matrix) : Prop :=
  List.length aug = n /\ Forall (fun row => List.length row = (2 * n)%nat) aug.

Definition matrixInverse (m : matrix) : outcome matrix :=
  if notSquare m then Throws wrongOrderInverse
  else
    match determinant m with
    | Throws e => Throws e
    | OutOfFuel => OutOfFuel
    | Ok det =>
        if lt (abs det) epsilon then Throws singularMessage
        else
          let n := List.length m in
          Ok (List.map (skipn n) (gaussJordan n (augment n m)))
    end.

End Matrix.

(** ** The platform's numeric library

    ECMA-262 leaves [Math.sqrt] and [x ** 2] implementation-approximated,
    and [Number.prototype.toPrecision] prints decimal digits; the functions
    that need them take them as a parameter. *)

Record platform : Type := {
  host_sqrt : num -> num;
  host_square : num -> num;
  host_toPrecision : num -> Z -> jsstring
}.

(** A platform to run examples on: the IEEE square root, the product for
    the square, and a [toPrecision] that prints nothing. *)
Definition samplePlatform : platform :=
  {| host_sqrt := sqrt;
     host_square := fun x => mul x x;
     host_toPrecision := fun _ _ => [] |}.

(** ** The quadratic solver *)

Module Quadratic.

Inductive rootType : Type := real | complex | single.

Record solution : Type := {
  roots : list jsstring;
  type : rootType;
  discriminant : num;
  vertex : num * num;
  axisOfSymmetry : num;
  vertexForm : jsstring
}.

Definition zeroCoefficient : jsstring :=
  js "Coefficient 'a' cannot be zero for a quadratic equation.".

Definition two : num := ofZ 2.
Definition four : num := ofZ 4.

Definition solveQuadratic (P : platform) (a b c : num) : outcome solution :=
  if eq a (ofZ 0) then Throws zeroCoefficient
  else
    let discriminant := sub (mul b b) (mul (mul four a) c) in
    let vertexX := div (neg b) (mul two a) in
    let vertexY := add (add (mul a (host_square P vertexX)) (mul b vertexX)) c in
    let vertex := (vertexX, vertexY) in
    let axisOfSymmetry := vertexX in
    let h := vertexX in
    let k := vertexY in
    let aStr :=
      if eq a (ofZ 1) then []
      else if eq a (ofZ (-1)) then js "-" else host_toPrecision P a 4 in
    let hStr :=
      if eq h (ofZ 0) then js "x"
      else js "(x " ++ (if gt h (ofZ 0) then js "-" else js "+") ++ js " "
             ++ host_toPrecision P (abs h) 4 ++ js ")" in
    let kStr :=
      if eq k (ofZ 0) then []
      else if gt k (ofZ 0) then js " + " ++ host_toPrecision P k 4
      else js " - " ++ host_toPrecision P (abs k) 4 in
    let vertexForm := js "y = " ++ aStr ++ hStr ++ [178%N] ++ kStr in
    if gt discriminant (ofZ 0) then
      let root1 := div (add (neg b) (host_sqrt P discriminant)) (mul two a) in
      let root2 := div (sub (neg b) (host_sqrt P discriminant)) (mul two a) in
      Ok {| roots := [host_toPrecision P root1 4; host_toPrecision P root2 4];
            type := real;
            discriminant := discriminant;
            vertex := vertex;
            axisOfSymmetry := axisOfSymmetry;
            vertexForm := vertexForm |}
    else if eq discriminant (ofZ 0) then
      let root := div (neg b) (mul two a) in
      Ok {| roots := [host_toPrecision P root 4];
            type := single;
            discriminant := discriminant;
            vertex := vertex;
            axisOfSymmetry := axisOfSymmetry;
            vertexForm := vertexForm |}
    else
      let realPart := div (neg b) (mul two a) in
      let imagPart := div (host_sqrt P (neg discriminant)) (mul two a) in
      let root1 := host_toPrecision P realPart 4 ++ js " + "
                     ++ host_toPrecision P imagPart 4 ++ js "i" in
      let root2 := host_toPrecision P realPart 4 ++ js " - "
                     ++ host_toPrecision P imagPart 4 ++ js "i" in
      Ok {| roots := [root1; root2];
            type := complex;
            discriminant := discriminant;
            vertex := vertex;
            axisOfSymmetry := axisOfSymmetry;
            vertexForm := vertexForm |}.

End Quadratic.

(** ** The prime factoriser *)

Module Primes.

Definition MAX_SAFE_INTEGER : num := ofZ (2 ^ 53 - 1).

(** No number from 2 up to, but not including, [i] divides [num]. *)
Definition noSmallDivisor (i num : Z) : Prop :=
  forall d, 2 <= d < i -> ~ (d | num).

(** The platform's square root, compared with an integer, is off by less
    than one: this is all the factoriser needs of it. *)
Definition sqrtAccurate (P : platform) (bound : Z) : Prop :=
  forall i m, 3 <= i <= Z.sqrt bound + 3 -> 1 <= m <= bound ->
    (i * i <= m -> SFleb (ofZ i) (host_sqrt P (ofZ m)) = true) /\
    (SFleb (ofZ i) (host_sqrt P (ofZ m)) = true -> (i - 1) * (i - 1) <= m).

Definition product (l : list Z) : Z := fold_right Z.mul 1 l.


Definition notAnInteger : jsstring :=
  js "Input must be an integer greater than 1.".
Definition tooLarge : jsstring :=
  js "Input number is too large for safe factorization.".

(** [while (num % i === 0) { factors.push(i); num /= i; }]. The numbers
    of the loops are integers below 2^53, on which [%] and the exact
    division are those of [Z]. *)
Fixpoint divideOut (fuel : nat) (i num : Z) (factors : list Z)
  : option (Z * list Z) :=
  match fuel with
  | O => None
  | S fuel' =>
      if Z.rem num i =? 0
      then divideOut fuel' i (Z.quot num i) (factors ++ [i])
      else Some (num, factors)
  end.

(** [for (let i = 3; i <= Math.sqrt(num); i += 2) ...], entered at [i]. *)
Fixpoint trialDivide (P : platform) (fuel : nat) (i num : Z)
  (factors : list Z) : option (Z * list Z) :=
  match fuel with
  | O => None
  | S fuel' =>
      if SFleb (ofZ i) (host_sqrt P (ofZ num)) then
        match divideOut fuel' i num factors with
        | Some (num', factors') => trialDivide P fuel' (i + 2) num' factors'
        | None => None
        end
      else Some (num, factors)
  end.

Definition primeFactorize_fuel (P : platform) (fuel : nat) (n : num)
  : outcome (list Z) :=
  if (negb (isInteger n) || lt n (ofZ 2))%bool then Throws notAnInteger
  else if gt n MAX_SAFE_INTEGER then Throws tooLarge
  else
    match divideOut fuel 2 (toZ n) [] with
    | None => OutOfFuel
    | Some (num, factors) =>
        match trialDivide P fuel 3 num factors with
        | None => OutOfFuel
        | Some (num', factors') =>
            Ok (if 2 <? num' then factors' ++ [num'] else factors')
        end
    end.

(** The loops run fewer rounds than twice the input. *)
Definition primeFactorize (P : platform) (n : num) : outcome (list Z) :=
  primeFactorize_fuel P (Z.to_nat (2 * toZ n)) n.

End Primes.

(** ** The function parser *)

Module FunctionParser.

(** [factorial], the helper behind [fact] and [factorial]. *)
Definition factorial : fnval := fun n =>
  if (lt n (ofZ 0) || negb (isInteger n))%bool then Some nan
  else if gt n (ofZ 170) then Some infinity
  else if (eq n (ofZ 0) || eq n (ofZ 1))%bool then Some (ofZ 1)
  else
    Some (fold_left (fun result i => mul result (ofZ (Z.of_nat i)))
            (rev (seq 2 (Z.to_nat (toZ n) - 1))) (ofZ 1)).

(** A function whose values the properties below do not need; the model
    makes no statement about them. *)
Definition unmodelled : fnval := fun _ => None.

(** [customLog(x, base)] with [base] left out. *)
Definition customLog1 : fnval := Math_log.

(** [customLog(x, base)] for a given base. *)
Definition customLog (base : num) : fnval := fun x =>
  if (SFleb base (ofZ 0) || eq base (ofZ 1))%bool then Some nan
  else bind (Math_log x) (fun lx =>
       bind (Math_log base) (fun lb => Some (div lx lb))).

(** The function table, in the order of its keys. Every entry is the
    function as the generated code calls it, with one argument. *)
Definition funcMap : list (jsstring * fnval) :=
  [ (js "sin", Math_sin); (js "cos", Math_cos); (js "tan", Math_tan);
    (js "asin", unmodelled); (js "acos", unmodelled); (js "atan", unmodelled);
    (js "sinh", unmodelled); (js "cosh", unmodelled); (js "tanh", unmodelled);
    (js "asinh", unmodelled); (js "acosh", unmodelled);
    (js "atanh", unmodelled);
    (js "sqrt", Math_sqrt); (js "cbrt", unmodelled);
    (js "abs", Math_abs); (js "sign", unmodelled);
    (js "ceil", unmodelled); (js "floor", unmodelled);
    (js "round", unmodelled); (js "trunc", unmodelled);
    (js "exp", unmodelled); (js "pow", fun _ => Some nan);
    (js "min", fun x => Some x); (js "max", fun x => Some x);
    (js "log", customLog1);
    (js "log10", customLog (ofZ 10));
    (js "log2", customLog (ofZ 2));
    (js "ln", Math_log);
    (js "sec", reciprocal Math_cos);
    (js "csc", reciprocal Math_sin);
    (js "cot", reciprocal Math_tan);
    (js "asec", unmodelled); (js "acsc", unmodelled); (js "acot", unmodelled);
    (js "sech", unmodelled); (js "csch", unmodelled); (js "coth", unmodelled);
    (js "cosec", reciprocal Math_sin);
    (js "fact", factorial); (js "factorial", factorial) ].

(** [Object.keys(funcMap)] *)
Definition funcNames : list jsstring := List.map fst funcMap.

Definition knownIdentifiers : list jsstring :=
  funcNames ++ [js "pi"; js "e"; js "x"].

Definition has (set : list jsstring) (n : jsstring) : bool :=
  existsb (str_eqb n) set.

(** [toLowerCase]. Outside ASCII only the two code points whose lower
    case contains an ASCII letter are mapped (U+0130 and U+212A); every
    other code unit above 127 lies outside the classes the later steps
    test, in either case. *)
Definition lowerUnit (c : N) : jsstring :=
  if isUpper c then [(c + 32)%N]
  else if N.eqb c 304 then [105; 775]%N
  else if N.eqb c 8490 then [107%N]
  else [c].

Definition toLowerCase (s : jsstring) : jsstring := flat_map lowerUnit s.

(** [s.match(/[a-z]+/g) || []]: the maximal runs of lower-case letters.
    [cur] is the run being read. *)
Fixpoint letterRuns_go (cur s : jsstring) : list jsstring :=
  match s with
  | [] => match cur with [] => [] | _ => [cur] end
  | c :: s' =>
      if isLower c then letterRuns_go (cur ++ [c]) s'
      else match cur with
           | [] => letterRuns_go [] s'
           | _ => cur :: letterRuns_go [] s'
           end
  end.

Definition letterRuns (s : jsstring) : list jsstring := letterRuns_go [] s.

(** [run] is a maximal run of lower-case letters of [s]: it is not empty,
    and no lower-case letter stands right before or right after it. *)
Definition maximalRun (s run : jsstring) : Prop :=
  exists pre post,
    s = pre ++ run ++ post /\ run <> [] /\ forallb isLower run = true /\
    startsWith isLower (rev pre) = false /\ startsWith isLower post = false.

Definition unknownIdentifier (identifier : jsstring) : jsstring :=
  js "Unknown function or variable: " ++ [34%N] ++ identifier ++ [34%N].

Definition couldNotParse : jsstring :=
  js "Could not parse the function. Please check the syntax.".

(** [s.replace(/(p1)(p2)/g, '$1*$2')] for two one-character classes; a
    match consumes both characters. *)
Fixpoint insertStar (p1 p2 : N -> bool) (s : jsstring) : jsstring :=
  match s with
  | a :: ((b :: rest) as tl) =>
      if (p1 a && p2 b)%bool then a :: 42%N :: b :: insertStar p1 p2 rest
      else a :: insertStar p1 p2 tl
  | _ => s
  end.

Definition isChar (k c : N) : bool := N.eqb c k.
Definition letterOrParen (c : N) : bool := (isLower c || isChar 40 c)%bool.

Definition implicitMultiplication (s : jsstring) : jsstring :=
  let s1 := insertStar isDigit letterOrParen s in
  let s2 := insertStar (isChar 41)
              (fun c => isLower c || isDigit c || isChar 40 c)%bool s1 in
  let s3 := insertStar (isChar 120) isDigit s2 in
  insertStar (isChar 120) letterOrParen s3.

(** [s.replace(/\bW\b/g, rep)] for a word [W] of word characters.
    [prevWord] tells whether the code unit before is a word character. *)
Fixpoint replaceWord_go (w rep : jsstring) (prevWord : bool) (skip : nat)
  (s : jsstring) : jsstring :=
  match s with
  | [] => []
  | c :: s' =>
      match skip with
      | S k => replaceWord_go w rep (isWord c) k s'
      | O =>
          if (negb prevWord && isPrefix w s
              && negb (startsWith isWord (skipn (List.length w) s)))%bool
          then rep ++ replaceWord_go w rep (isWord c) (List.length w - 1) s'
          else c :: replaceWord_go w rep (isWord c) O s'
      end
  end.

Definition replaceWord (w rep s : jsstring) : jsstring :=
  replaceWord_go w rep false O s.

(** The first name of the table that stands at the head of [s] and is
    followed by [\s*\(]. *)
Fixpoint firstCall (names : list jsstring) (s : jsstring) : option jsstring :=
  match names with
  | [] => None
  | n :: names' =>
      if (isPrefix n s
          && startsWith (isChar 40)
               (dropWhile isWhiteSpace (skipn (List.length n) s)))%bool
      then Some n
      else firstCall names' s
  end.

(** [s.replace(/\b(n1|n2|...)(?=\s*\()/g, m => 'FN.' + m)] *)
Fixpoint qualify_go (names : list jsstring) (prevWord : bool) (skip : nat)
  (s : jsstring) : jsstring :=
  match s with
  | [] => []
  | c :: s' =>
      match skip with
      | S k => c :: qualify_go names (isWord c) k s'
      | O =>
          match (if prevWord then None else firstCall names s) with
          | Some n =>
              js "FN." ++ c :: qualify_go names (isWord c) (List.length n - 1) s'
          | None => c :: qualify_go names (isWord c) O s'
          end
      end
  end.

Definition qualify (names : list jsstring) (s : jsstring) : jsstring :=
  qualify_go names false O s.

(** The text handed to the host for [funcStr]. *)
Definition preprocess (funcStr : jsstring) : jsstring :=
  let processedStr := removeAll isWhiteSpace (toLowerCase funcStr) in
  let processedStr := implicitMultiplication processedStr in
  let processedStr :=
    replaceWord (js "e") (js "Math.E")
      (replaceWord (js "pi") (js "Math.PI")
         (replaceChar 94 (js "**") processedStr)) in
  qualify funcNames processedStr.

Inductive parseResult : Type :=
| Compiled (f : num -> completion)
| ParseError (message : jsstring)
| ParseNotModelled.

(** The sample a parse result gives at [x], when it is a function. *)
Definition sample (r : parseResult) (x : num) : option completion :=
  match r with
  | Compiled f => Some (f x)
  | _ => None
  end.

(** The object passed for [FN]. *)
Definition FN : value :=
  VObj (fun p => option_map VFun (assoc p funcMap)).

Definition parseFunction (funcStr : jsstring) : parseResult :=
  let identifiersInUse := letterRuns (toLowerCase funcStr) in
  match find (fun identifier => negb (has knownIdentifiers identifier))
          identifiersInUse with
  | Some identifier => ParseError (unknownIdentifier identifier)
  | None =>
      match newFunction [js "x"; js "FN"] (TryReturnOf (preprocess funcStr)) with
      | SyntaxError => ParseError couldNotParse
      | NotModelled => ParseNotModelled
      | Constructed func =>
          let boundFunc := fun x => func [VNum x; FN] in
          match boundFunc (ofZ 1) with
          | Throw => ParseError couldNotParse
          | _ => Compiled boundFunc
          end
      end
  end.

End FunctionParser.
Import Matrix Quadratic Primes FunctionParser.

(** ** The other matrix operations

    [matrixAdd], [matrixSubtract], [matrixMultiply], [minorMatrix],
    [cofactorMatrix], [adjoint], [matrixDivide] and [solveLinearSystem].
    Three of them read [a[0].length] or [b[0].length] without a test for
    an empty matrix; there the host throws a TypeError, which their
    results tell from an [Error] of the service. *)

Module MatrixOps.
Import Matrix.

Inductive thrown : Type :=
| ErrorOf (message : jsstring)
| TypeError.

Inductive attempt (A : Type) : Type :=
| Value (a : A)
| Raise (e : thrown)
| NoFuel.
Arguments Value {A} a.
Arguments Raise {A} e.
Arguments NoFuel {A}.

Definition wrongOrderAddition : jsstring :=
  js "Wrong Order: Matrices must have the same dimensions for addition.".
Definition wrongOrderSubtraction : jsstring :=
  js "Wrong Order: Matrices must have the same dimensions for subtraction.".
Definition wrongOrderMultiply : jsstring :=
  js "Wrong Order: Columns of Matrix A must equal rows of Matrix B.".
Definition wrongOrderMinor : jsstring :=
  js "Wrong Order: Matrix must be square to find its minor matrix.".
Definition wrongOrderCofactor : jsstring :=
  js "Wrong Order: Matrix must be square to find its cofactor matrix.".
Definition wrongOrderCoefficients : jsstring :=
  js "Wrong Order: Coefficient matrix A must be square.".
Definition wrongOrderVector : jsstring :=
  js "Wrong Order: Rows of matrix A must match size of vector B.".

(** With as many rows in [a] as in [b], [a[0].length] is read; it throws
    when both are empty. *)
Definition matrixAdd (a b : matrix) : attempt matrix :=
  if negb (List.length a =? List.length b)%nat
  then Raise (ErrorOf wrongOrderAddition)
  else
    match a, b with
    | a0 :: _, b0 :: _ =>
        if negb (List.length a0 =? List.length b0)%nat
        then Raise (ErrorOf wrongOrderAddition)
        else
          Value (imap (fun i row =>
                         imap (fun j val => add val (cell b i j)) row) a)
    | _, _ => Raise TypeError
    end.

Definition matrixSubtract (a b : matrix) : attempt matrix :=
  if negb (List.length a =? List.length b)%nat
  then Raise (ErrorOf wrongOrderSubtraction)
  else
    match a, b with
    | a0 :: _, b0 :: _ =>
        if negb (List.length a0 =? List.length b0)%nat
        then Raise (ErrorOf wrongOrderSubtraction)
        else
          Value (imap (fun i row =>
                         imap (fun j val => sub val (cell b i j)) row) a)
    | _, _ => Raise TypeError
    end.

(** [sum] at the end of the inner loop for the cell [(i, j)]. *)
Definition dot (a b : matrix) (i j : nat) : num :=
  fold_left (fun sum k => add sum (mul (cell a i k) (cell b k j)))
    (seq 0 (List.length b)) zero.

(** [a[0].length] is read first, and [b[0].length] when [result] is set
    up; every cell of [result] is then assigned. *)
Definition matrixMultiply (a b : matrix) : attempt matrix :=
  match a with
  | [] => Raise TypeError
  | a0 :: _ =>
      if negb (List.length a0 =? List.length b)%nat
      then Raise (ErrorOf wrongOrderMultiply)
      else
        match b with
        | [] => Raise TypeError
        | b0 :: _ =>
            Value (List.map (fun i => List.map (fun j => dot a b i j)
                                         (seq 0 (List.length b0)))
                     (seq 0 (List.length a)))
        end
  end.

(** The results of a [map] whose callback may throw: the first throw, in
    the order of the elements, is the outcome. *)
Fixpoint collect {A : Type} (l : list (outcome A)) : outcome (list A) :=
  match l with
  | [] => Ok []
  | o :: l' =>
      match o with
      | Ok a =>
          match collect l' with
          | Ok r => Ok (a :: r)
          | Throws e => Throws e
          | OutOfFuel => OutOfFuel
          end
      | Throws e => Throws e
      | OutOfFuel => OutOfFuel
      end
  end.

Definition minorMatrix (m : matrix) : outcome matrix :=
  if notSquare m then Throws wrongOrderMinor
  else
    collect
      (imap (fun r row =>
               collect (imap (fun c _ => determinant (getMinor m r c)) row))
         m).

Definition cofactorMatrix (m : matrix) : outcome matrix :=
  if notSquare m then Throws wrongOrderCofactor
  else
    collect
      (imap (fun r row =>
               collect
                 (imap (fun c _ =>
                          match determinant (getMinor m r c) with
                          | Ok minorDet =>
                              Ok (mul (minusOnePow (r + c)) minorDet)
                          | Throws e => Throws e
                          | OutOfFuel => OutOfFuel
                          end) row))
         m).

Definition adjoint (m : matrix) : outcome matrix :=
  match cofactorMatrix m with
  | Ok c => Ok (transpose c)
  | Throws e => Throws e
  | OutOfFuel => OutOfFuel
  end.

Definition matrixDivide (a b : matrix) : attempt matrix :=
  match matrixInverse b with
  | Ok bInverse => matrixMultiply a bInverse
  | Throws e => Raise (ErrorOf e)
  | OutOfFuel => NoFuel
  end.

Definition solveLinearSystem (A : matrix) (B : list num)
  : attempt (list num) :=
  if notSquare A then Raise (ErrorOf wrongOrderCoefficients)
  else if negb (List.length A =? List.length B)%nat
  then Raise (ErrorOf wrongOrderVector)
  else
    match matrixInverse A with
    | Ok A_inv =>
        let B_col_matrix := List.map (fun val => [val]) B in
        match matrixMultiply A_inv B_col_matrix with
        | Value result_matrix =>
            Value (List.map (fun row => at_ row 0) result_matrix)
        | Raise e => Raise e
        | NoFuel => NoFuel
        end
    | Throws e => Raise (ErrorOf e)
    | OutOfFuel => NoFuel
    end.

(** The identity matrix, row by row as [matrixInverse] writes it next
    to its argument: [Array(n).fill(0).map((_, j) => i === j ? 1 : 0)]. *)
Definition identity (n : nat) : matrix :=
  List.map (fun i => List.map (fun j => if (i =? j)%nat then ofZ 1 else ofZ 0)
                       (seq 0 n))
    (seq 0 n).

(** A number that a double holds, finite and other than [-0]. *)
Definition plain (x : num) : Prop :=
  valid_binary prec emax x = true /\ isFinite x = true /\ x <> S754_zero true.

(** The determinant of a minor, where it has one. *)
Definition minorDet (m : matrix) (r c : nat) : num :=
  match determinant (getMinor m r c) with
  | Ok d => d
  | _ => nan
  end.

End MatrixOps.

(** ** The divisors shown with a factorisation

    [getAllFactors], the grouping of [exponentialFormJsx] and
    [factorPairs] of the prime factoriser's component, which shows them
    for the number it has factorised: an integer from 2 to 2^53 - 1. On
    such integers [%] and the division of a multiple by a divisor are
    those of [Z]. *)

Module Divisors.
Import Primes.

(** [factors.sort((a, b) => a - b)]: the order of the integers decides
    the result, whatever the host's algorithm. *)
Definition sortAscending (factors : list Z) : list Z :=
  merge_sort Z.le factors.

(** [for (let i = 1; i <= sqrt; i++) ...], entered at [i]. *)
Fixpoint factorLoop (P : platform) (fuel : nat) (i num : Z)
  (factors : list Z) : option (list Z) :=
  match fuel with
  | O => None
  | S fuel' =>
      if SFleb (ofZ i) (host_sqrt P (ofZ num)) then
        factorLoop P fuel' (i + 1) num
          (if Z.rem num i =? 0
           then if negb (i =? Z.quot num i)
                then factors ++ [i; Z.quot num i]
                else factors ++ [i]
           else factors)
      else Some factors
  end.

(** The loop runs fewer rounds than the input plus two. *)
Definition getAllFactors (P : platform) (num : Z) : outcome (list Z) :=
  match factorLoop P (Z.to_nat num + 2) 1 num [] with
  | Some factors => Ok (sortAscending factors)
  | None => OutOfFuel
  end.

(** The text of an integer in a template literal: its decimal digits. *)
Definition decimal (z : Z) : jsstring :=
  js (NilZero.string_of_int (Z.to_int z)).

(** The text between the two factors of a pair: a multiplication sign
    (U+00D7) between two spaces. *)
Definition times : jsstring := [32; 215; 32]%N.

(** [Math.ceil(allFactors.length / 2)] *)
Definition halfLength (allFactors : list Z) : nat :=
  ((List.length allFactors + 1) / 2)%nat.

Definition factorPairs (allFactors : list Z) : list jsstring :=
  match allFactors with
  | [] => []
  | _ =>
      List.map
        (fun i =>
           let factor1 := nth i allFactors 0 in
           let factor2 := nth (List.length allFactors - 1 - i) allFactors 0 in
           decimal factor1 ++ times ++ decimal factor2)
        (seq 0 (halfLength allFactors))
  end.

(** [factorGroups.get(factor)] and [factorGroups.set(factor, count)] on a
    [Map], which keeps its keys in the order of their first insertion. *)
Fixpoint mapGet (factor : Z) (groups : list (Z * Z)) : option Z :=
  match groups with
  | [] => None
  | (k, count) :: groups' =>
      if factor =? k then Some count else mapGet factor groups'
  end.

Fixpoint mapSet (factor count : Z) (groups : list (Z * Z)) : list (Z * Z) :=
  match groups with
  | [] => [(factor, count)]
  | (k, c) :: groups' =>
      if factor =? k then (k, count) :: groups'
      else (k, c) :: mapSet factor count groups'
  end.

(** [count || 0] *)
Definition orZero (count : option Z) : Z :=
  match count with
  | Some c => c
  | None => 0
  end.

(** The [Map] that [exponentialFormJsx] fills from the factors. *)
Definition factorGroups (factors : list Z) : list (Z * Z) :=
  fold_left
    (fun groups factor =>
       mapSet factor (orZero (mapGet factor groups) + 1) groups)
    factors [].

(** What the loop of [getAllFactors] on [num] has pushed when it reaches
    [i]: each divisor below [i] and its cofactor, once. *)
Definition collected (num i : Z) (factors : list Z) : Prop :=
  NoDup factors /\
  (forall d, In d factors <-> 1 <= d /\ (d | num) /\ (d < i \/ num / d < i)) /\
  (forall j, 1 <= j < i -> (j | num) -> j * j <= num).

(** The number a list of groups stands for: the product of the powers. *)
Definition groupsValue (groups : list (Z * Z)) : Z :=
  product (List.map (fun g => fst g ^ snd g) groups).

End Divisors.

(** ** Notions for the texts the parser and the evaluator produce *)

Module Texts.
Import FunctionParser.

(** Some code unit of class [p1] stands right before one of class [p2]. *)
Fixpoint adjacent (p1 p2 : N -> bool) (s : jsstring) : bool :=
  match s with
  | a :: tl => (p1 a && startsWith p2 tl) || adjacent p1 p2 tl
  | [] => false
  end.

(** [s] begins with an [x] that a lower-case letter or [(] follows. *)
Definition callsX (s : jsstring) : bool :=
  match s with
  | a :: tl => isChar 120 a && startsWith letterOrParen tl
  | [] => false
  end.

(** Somewhere in [s], which follows the code unit [prev], an [x] stands
    right before a lower-case letter or [(] and not right after [*]. *)
Fixpoint bareX (prev : N) (s : jsstring) : bool :=
  match s with
  | a :: tl => (callsX s && negb (isChar 42 prev)) || bareX a tl
  | [] => false
  end.

(** [out] is [s] with some segments [w] replaced by [rep], where [C]
    holds of the segment, its replacement and the text after it. *)
Inductive edited (C : jsstring -> jsstring -> jsstring -> Prop)
  : jsstring -> jsstring -> Prop :=
| edited_nil : edited C [] []
| edited_keep c s out : edited C s out -> edited C (c :: s) (c :: out)
| edited_replace w rep s out :
    C w rep s -> edited C s out -> edited C (w ++ s) (rep ++ out).

(** A replacement that brings in no digit and no [x], does not begin with
    a lower-case letter or [(], and ends in [*] unless it replaces a word
    or stands before something other than a call of [x]. *)
Definition benign (w rep s : jsstring) : Prop :=
  rep <> [] /\ startsWith letterOrParen rep = false /\
  forallb (fun c => negb (isDigit c) && negb (isChar 120 c)) rep = true /\
  (last rep 0%N = 42%N \/ (w <> [] /\ last w 0%N <> 42%N) \/ callsX s = false).

(** The edits of the passes: [rep] put in, [w] replaced by [rep], [FN.]
    put before a name of the table, an alternative of [alts] replaced by
    [rep]. *)
Definition inserts (rep : jsstring) (w rep' s : jsstring) : Prop :=
  w = [] /\ rep' = rep.

Definition replaces (w rep : jsstring) (w' rep' s : jsstring) : Prop :=
  w' = w /\ rep' = rep.

Definition qualifies (names : list jsstring) (w rep s : jsstring) : Prop :=
  w = [] /\ rep = js "FN." /\ exists n, In n names /\ isPrefix n s = true.

Definition removes (alts : list jsstring) (rep w rep' s : jsstring) : Prop :=
  In w alts /\ rep' = rep.

(** An edit that puts in one of the texts [reps], whatever it replaces. *)
Definition putsIn (reps : list jsstring) (w rep s : jsstring) : Prop :=
  In rep reps.

(** The texts that the passes of [preprocess] put in. *)
Definition insertions : list jsstring :=
  [[42%N]; js "**"; js "Math.PI"; js "Math.E"; js "FN."].

(** [rep] is not empty, does not begin with a code unit of class [p2] and
    holds none of class [p1]. *)
Definition clean (p1 p2 : N -> bool) (rep : jsstring) : bool :=
  (negb (str_eqb rep []) && negb (startsWith p2 rep)
   && forallb (fun c => negb (p1 c)) rep)%bool.

(** The class [[a-z\d(]] of the second pass. *)
Definition afterParen (c : N) : bool :=
  (isLower c || isDigit c || isChar 40 c)%bool.

(** The edit of an implicit-multiplication pass: a [*] put in right
    before a code unit of class [p2]. *)
Definition separates (p2 : N -> bool) (w rep s : jsstring) : Prop :=
  w = [] /\ rep = [42%N] /\ startsWith p2 s = true.

(** An edit that takes away and brings in no digit, and neither replaces
    a [*] nor puts anything right before one. *)
Definition sparesStars (w rep s : jsstring) : Prop :=
  List.filter isDigit w = [] /\ List.filter isDigit rep = [] /\
  startsWith (isChar 42) (w ++ s) = false.

(** Every code unit of [s] is an ASCII character. On such a text
    [toLowerCase] above is [String.prototype.toLowerCase]. *)
Definition ascii (s : jsstring) : bool :=
  forallb (fun c => (c <? 128)%N) s.

End Texts.

(** ** The factorial of an integer *)

(** The factorial as a product of integers, to compare [factorial] with. *)
Definition factorialOf (n : Z) : Z :=
  product (List.map Z.of_nat (seq 1 (Z.to_nat n))).

(** [r] is a finite number. *)
Definition finiteValue (r : option num) : bool :=
  match r with
  | Some v => isFinite v
  | None => false
  end.

Import MatrixOps Divisors Texts.

(** ** A platform that prints integers *)

(** [v.toPrecision(p)] for an integer [v] of at most [p] digits: its
    digits, then a point and zeros up to [p] digits ([-0] prints as [0]).
    Any other number is printed as nothing. *)
Definition toPrecisionOfInteger (v : num) (p : Z) : jsstring :=
  let z := toZ v in
  let digits := decimal (Z.abs z) in
  let k := Z.of_nat (List.length digits) in
  if (isInteger v && (k <=? p))%bool
  then (if z <? 0 then js "-" else []) ++ digits
       ++ (if k <? p then js "." ++ repeat 48%N (Z.to_nat (p - k)) else [])
  else [].

(** A platform to print examples on: the IEEE square root, the product
    for the square, and the [toPrecision] of integers. *)
Definition integerPlatform : platform :=
  {| host_sqrt := sqrt;
     host_square := fun x => mul x x;
     host_toPrecision := toPrecisionOfInteger |}.

(** * Properties *)

(** ** Strings *)

Lemma str_eqb_eq (a b : jsstring) : str_eqb a b = true <-> a = b.
Proof.
  revert b; induction a as [|x a IH]; intros [|y b]; simpl;
    try (split; [discriminate | discriminate]); try tauto.
  rewrite andb_true_iff, N.eqb_eq, IH. split.
  - intros [-> ->]; reflexivity.
  - intros H; injection H; auto.
Qed.

Lemma str_eqb_refl (a : jsstring) : str_eqb a a = true.
Proof. apply str_eqb_eq; reflexivity. Qed.

Lemma dropWhile_head (p : N -> bool) (s : jsstring) :
  dropWhile p s = [] \/ exists c r, dropWhile p s = c :: r /\ p c = false.
Proof.
  induction s as [|c s IH]; simpl; [now left|].
  destruct (p c) eqn:Hc; [exact IH|].
  right; exists c, s; auto.
Qed.

Lemma dropWhile_suffix (p : N -> bool) (s : jsstring) :
  exists pre, s = pre ++ dropWhile p s.
Proof.
  induction s as [|c s [pre IH]]; simpl; [now exists []|].
  destruct (p c).
  - exists (c :: pre); simpl; congruence.
  - now exists [].
Qed.

Lemma dropWhile_keeps (p : N -> bool) (c : N) (s : jsstring) :
  In c s -> p c = false -> In c (dropWhile p s).
Proof.
  induction s as [|d s IH]; simpl; [tauto|].
  intros [->|Hin] Hc.
  - rewrite Hc; now left.
  - destruct (p d); [auto | now right].
Qed.

Lemma trim_keeps (c : N) (s : jsstring) :
  In c s -> isWhiteSpace c = false -> In c (trim s).
Proof.
  intros Hin Hc. unfold trim, trimEnd, trimStart.
  apply in_rev. rewrite rev_involutive.
  apply dropWhile_keeps; [|exact Hc].
  apply in_rev. rewrite rev_involutive.
  now apply dropWhile_keeps.
Qed.

(** What [trim] returns starts with no white space... *)
Lemma trim_head (c : N) (r : jsstring) (s : jsstring) :
  trim s = c :: r -> isWhiteSpace c = false.
Proof.
  unfold trim, trimEnd, trimStart. intros H.
  destruct (dropWhile_head isWhiteSpace s) as [E | (d & t & E & Hd)].
  - rewrite E in H; discriminate.
  - rewrite E in H.
    destruct (dropWhile_suffix isWhiteSpace (rev (d :: t))) as [pre Hpre].
    apply (f_equal (@rev N)) in Hpre.
    rewrite rev_involutive, rev_app_distr, H in Hpre.
    simpl in Hpre. injection Hpre as -> _. exact Hd.
Qed.

(** ... and ends with none. *)
Lemma trim_last (c : N) (front : jsstring) (s : jsstring) :
  trim s = front ++ [c] -> isWhiteSpace c = false.
Proof.
  unfold trim, trimEnd. intros H.
  apply (f_equal (@rev N)) in H.
  rewrite rev_involutive, rev_app_distr in H. simpl in H.
  destruct (dropWhile_head isWhiteSpace (rev (trimStart s)))
    as [E | (d & t & E & Hd)]; rewrite E in H; [discriminate|].
  injection H as -> _. exact Hd.
Qed.

Lemma removeAll_id (p : N -> bool) (s : jsstring) :
  forallb (fun c => negb (p c)) s = true -> removeAll p s = s.
Proof.
  unfold removeAll. induction s as [|c s IH]; simpl; [reflexivity|].
  rewrite andb_true_iff. intros [-> H]. now rewrite IH.
Qed.

Lemma removeAll_In (p : N -> bool) (c : N) (s : jsstring) :
  In c (removeAll p s) -> p c = false.
Proof.
  unfold removeAll. rewrite filter_In. intros [_ H].
  now apply negb_true_iff in H.
Qed.

(** ** The evaluators *)

Lemma arithChar_whiteSpace (c : N) : isWhiteSpace c = true -> arithChar c = true.
Proof. unfold arithChar. intros ->. now rewrite orb_true_r. Qed.

Lemma sanitize_In (c : N) (s : jsstring) : In c (sanitize s) -> arithChar c = true.
Proof.
  unfold sanitize. intros H. apply removeAll_In in H.
  now apply negb_false_iff in H.
Qed.

Lemma sanitize_id (s : jsstring) : forallb arithChar s = true -> sanitize s = s.
Proof.
  intros H. apply removeAll_id.
  rewrite forallb_forall in *. intros c Hc.
  rewrite (H c Hc). reflexivity.
Qed.

(** C2. An expression with a character outside the allow-list (digits,
    [+ - * / ( ) . %] and white space) makes [safeEvaluate] return null
    without anything being evaluated; hence whenever [safeEvaluate]
    returns a number, every character of the expression is allow-listed. *)
Theorem safeEvaluate_allow_list (expression : jsstring) :
  (existsb (fun c => negb (arithChar c)) expression = true ->
   safeEvaluate expression = Returns VNull) /\
  (forall v, safeEvaluate expression = Returns (VNum v) ->
   forallb arithChar expression = true).
Proof.
  assert (A : existsb (fun c => negb (arithChar c)) expression = true ->
              safeEvaluate expression = Returns VNull).
  { rewrite existsb_exists. intros (c & Hin & Hc).
    apply negb_true_iff in Hc. unfold safeEvaluate.
    destruct (str_eqb (sanitize expression) (trim expression)) eqn:E;
      [|reflexivity].
    apply str_eqb_eq in E. exfalso.
    assert (Hws : isWhiteSpace c = false).
    { destruct (isWhiteSpace c) eqn:W; [|reflexivity].
      apply arithChar_whiteSpace in W. congruence. }
    pose proof (trim_keeps c expression Hin Hws) as Ht.
    rewrite <- E in Ht. apply sanitize_In in Ht. congruence. }
  split; [exact A|].
  intros v Hv.
  destruct (forallb arithChar expression) eqn:F; [reflexivity|].
  assert (X : existsb (fun c => negb (arithChar c)) expression = true).
  { clear -F. induction expression as [|c s IH]; simpl in *; [discriminate|].
    destruct (arithChar c); simpl in *; auto. }
  rewrite (A X) in Hv. discriminate.
Qed.

Lemma safeEvaluate_allow_list_witness :
  safeEvaluate (js "2+a") = Returns VNull /\
  forallb arithChar (js "2+2") = true.
Proof.
  split.
  - apply (proj1 (safeEvaluate_allow_list (js "2+a"))). reflexivity.
  - apply (proj2 (safeEvaluate_allow_list (js "2+2")) (ofZ 4)). reflexivity.
Defined.

(** C10. An expression made of allow-listed characters only, with white
    space at its start or at its end, makes [safeEvaluate] return null:
    the sanitised text keeps the white space and so differs from the
    trimmed expression. *)
Theorem safeEvaluate_edge_whitespace (expression : jsstring) :
  forallb arithChar expression = true ->
  ((exists c rest, expression = c :: rest /\ isWhiteSpace c = true) \/
   (exists c front, expression = front ++ [c] /\ isWhiteSpace c = true)) ->
  sanitize expression = expression /\
  trim expression <> expression /\
  safeEvaluate expression = Returns VNull.
Proof.
  intros Hall Hedge.
  pose proof (sanitize_id expression Hall) as Hs.
  assert (Hne : trim expression <> expression).
  { intros E. destruct Hedge as [(c & r & -> & Hc) | (c & f & -> & Hc)].
    - apply trim_head in E. congruence.
    - apply trim_last in E. congruence. }
  repeat split; [exact Hs | exact Hne |].
  unfold safeEvaluate. rewrite Hs.
  destruct (str_eqb expression (trim expression)) eqn:E; [|reflexivity].
  apply str_eqb_eq in E. congruence.
Qed.

Lemma safeEvaluate_edge_whitespace_witness :
  sanitize (js " 2+2") = js " 2+2" /\
  trim (js " 2+2") <> js " 2+2" /\
  safeEvaluate (js " 2+2") = Returns VNull.
Proof.
  apply safeEvaluate_edge_whitespace.
  - reflexivity.
  - left. exists 32%N, (js "2+2"). split; reflexivity.
Defined.

(** What the [try]/[catch] around [new Function(...)(...)] hands back. *)
Lemma callCaught_Normal (call : list value -> completion) (args : list value)
  (v : value) :
  call args = Normal v -> callCaught (Constructed call) args = Returns v.
Proof. unfold callCaught. now intros ->. Qed.

Lemma callCaught_Throw (call : list value -> completion) (args : list value) :
  call args = Throw -> callCaught (Constructed call) args = Returns VNull.
Proof. unfold callCaught. now intros ->. Qed.

(** Against C1 as stated: [1/0] is allow-listed text and evaluates to
    [Infinity], which both evaluators return as a number. *)
Lemma evaluators_return_Infinity :
  safeEvaluate (js "1/0") = Returns (VNum infinity) /\
  evaluateScientific (js "1/0") true = Returns (VNum infinity) /\
  evaluateScientific (js "1/0") false = Returns (VNum infinity) /\
  isFinite infinity = false.
Proof. repeat split; vm_compute; reflexivity. Qed.

(** C1, as the code has it. Each evaluator returns null when its character
    check rejects the expression, when the generated text is a syntax
    error and when running it throws; a value that the run yields is
    returned as it is, finite or not. *)
Theorem evaluators_return_the_value (expression : jsstring) (isDeg : bool) :
  (sanitize expression <> trim expression ->
   safeEvaluate expression = Returns VNull) /\
  (invalidScientific (sanitizeScientific expression) = true ->
   evaluateScientific expression isDeg = Returns VNull) /\
  (sanitize expression = trim expression ->
   forall call,
     newFunction [] (ReturnOf (sanitize expression)) = Constructed call ->
     (call [] = Throw -> safeEvaluate expression = Returns VNull) /\
     (forall v, call [] = Normal v -> safeEvaluate expression = Returns v)) /\
  (invalidScientific (sanitizeScientific expression) = false ->
   forall call,
     newFunction scientificParams (ReturnOf (sanitizeScientific expression))
       = Constructed call ->
     (call (scientificArgs isDeg) = Throw ->
      evaluateScientific expression isDeg = Returns VNull) /\
     (forall v, call (scientificArgs isDeg) = Normal v ->
      evaluateScientific expression isDeg = Returns v)) /\
  (sanitize expression = trim expression ->
   newFunction [] (ReturnOf (sanitize expression)) = SyntaxError ->
   safeEvaluate expression = Returns VNull) /\
  (invalidScientific (sanitizeScientific expression) = false ->
   newFunction scientificParams (ReturnOf (sanitizeScientific expression))
     = SyntaxError ->
   evaluateScientific expression isDeg = Returns VNull).
Proof.
  unfold safeEvaluate, evaluateScientific.
  repeat split.
  - intros H. destruct (str_eqb _ _) eqn:E; [|reflexivity].
    apply str_eqb_eq in E. contradiction.
  - now intros ->.
  - rewrite H, str_eqb_refl. simpl. rewrite <- H, H0.
    now apply callCaught_Throw.
  - rewrite H, str_eqb_refl. simpl. rewrite <- H, H0.
    now apply callCaught_Normal.
  - rewrite H, H0. now apply callCaught_Throw.
  - rewrite H, H0. now apply callCaught_Normal.
  - intros H H0. rewrite H, str_eqb_refl. simpl. rewrite <- H, H0.
    reflexivity.
  - intros H H0. rewrite H, H0. reflexivity.
Qed.

Lemma evaluators_return_the_value_witness :
  safeEvaluate (js "1/0") = Returns (VNum infinity) /\
  evaluateScientific (js "1/0") true = Returns (VNum infinity) /\
  safeEvaluate (js "1(2)") = Returns VNull /\
  safeEvaluate (js "2+") = Returns VNull /\
  safeEvaluate (js "2+a") = Returns VNull /\
  evaluateScientific (js "2+A") true = Returns VNull.
Proof.
  pose (run := fun (params : list jsstring) (src : jsstring)
                   (args : list value) =>
    match parseReturn src with
    | Parsed (Some e) =>
        let rho := combine params args ++ globals in
        if wellScoped rho e then eval rho e else Unspecified
    | _ => Unspecified
    end).
  destruct (evaluators_return_the_value (js "1/0") true)
    as (_ & _ & Hsafe & Hsci & _).
  destruct (Hsafe eq_refl (run [] (js "1/0")) eq_refl) as [_ Hv].
  destruct (Hsci eq_refl (run scientificParams (js "1/0")) eq_refl)
    as [_ Hw].
  destruct (evaluators_return_the_value (js "1(2)") true)
    as (_ & _ & Hcall & _).
  destruct (Hcall eq_refl (run [] (js "1(2)")) eq_refl) as [Ht _].
  destruct (evaluators_return_the_value (js "2+") true)
    as (_ & _ & _ & _ & Hsyn & _).
  destruct (evaluators_return_the_value (js "2+a") true) as (Hrej & _).
  destruct (evaluators_return_the_value (js "2+A") true) as (_ & Hrej' & _).
  refine (conj _ (conj _ (conj _ (conj _ (conj _ _))))).
  - apply Hv. reflexivity.
  - apply Hw. reflexivity.
  - apply Ht. reflexivity.
  - apply Hsyn; reflexivity.
  - apply Hrej. vm_compute. discriminate.
  - apply Hrej'. reflexivity.
Defined.

(** ** Matrices *)

Lemma at_map_seq (row : list num) :
  List.map (at_ row) (seq 0 (List.length row)) = row.
Proof.
  apply (nth_ext _ _ nan nan).
  - now rewrite length_map, length_seq.
  - intros j Hj. rewrite length_map, length_seq in Hj.
    rewrite (nth_indep _ nan (at_ row 0%nat))
      by now rewrite length_map, length_seq.
    now rewrite map_nth, seq_nth.
Qed.

Lemma transpose_rows (m : matrix) (c : nat) :
  m <> [] -> c <> 0%nat -> rectangular c m ->
  transpose m =
  List.map (fun j => List.map (fun row => at_ row j) m) (seq 0 c).
Proof.
  intros Hm Hc Hrect. destruct m as [|row0 rest]; [contradiction|].
  unfold transpose. inversion Hrect as [|? ? Hlen _]; subst.
  destruct (Nat.eqb_spec (List.length row0) 0); [contradiction|reflexivity].
Qed.

Lemma rectangular_nth (c : nat) (m : matrix) (i : nat) :
  rectangular c m -> (i < List.length m)%nat -> List.length (nth i m []) = c.
Proof.
  intros Hrect Hi. unfold rectangular in Hrect.
  rewrite Forall_forall in Hrect. apply Hrect. now apply nth_In.
Qed.

(** Against C9 as stated: the transpose of a matrix with rows but no
    columns has no rows, and transposing again does not bring the rows
    back. *)
Lemma transpose_twice_loses_empty_rows :
  rectangular 0 [[]] /\
  transpose (transpose [[]]) = [] /\
  transpose (transpose [[]]) <> [[]].
Proof.
  split; [repeat constructor|].
  split; [reflexivity | discriminate].
Qed.

(** C9, as the code has it. Transposing twice gives the matrix back when
    its rows all have the same, non-zero number of entries (the matrix
    without rows included). *)
Theorem transpose_involutive (c : nat) (m : matrix) :
  c <> 0%nat -> rectangular c m -> transpose (transpose m) = m.
Proof.
  intros Hc Hrect.
  destruct m as [|row0 rest] eqn:Em; [reflexivity|]. rewrite <- Em in *.
  assert (Hm : m <> []) by (rewrite Em; discriminate).
  set (r := List.length m).
  assert (Hr : r <> 0%nat) by (unfold r; rewrite Em; discriminate).
  rewrite (transpose_rows m c Hm Hc Hrect).
  rewrite (transpose_rows _ r).
  - apply (nth_ext _ _ [] []).
    + now rewrite length_map, length_seq.
    + intros i Hi. rewrite length_map, length_seq in Hi.
      rewrite (nth_indep _ [] ((fun i => List.map (fun row => at_ row i)
        (List.map (fun j => List.map (fun row => at_ row j) m) (seq 0 c)))
          0%nat)) by now rewrite length_map, length_seq.
      rewrite (map_nth (fun i => List.map (fun row => at_ row i) _)).
      rewrite seq_nth by exact Hi. simpl.
      rewrite map_map.
      transitivity (List.map (at_ (nth i m [])) (seq 0 c)).
      2:{ rewrite <- (rectangular_nth c m i Hrect Hi). apply at_map_seq. }
      apply map_ext. intros j. unfold at_ at 1.
      rewrite (nth_indep _ nan ((fun row => at_ row j) []))
        by (rewrite length_map; exact Hi).
      now rewrite (map_nth (fun row => at_ row j)).
  - destruct c; [contradiction|]. discriminate.
  - exact Hr.
  - unfold rectangular. rewrite Forall_forall. intros col Hcol.
    apply in_map_iff in Hcol. destruct Hcol as (j & <- & _).
    now rewrite length_map.
Qed.

Lemma transpose_involutive_witness :
  transpose (transpose [[ofZ 1; ofZ 2; ofZ 3]; [ofZ 4; ofZ 5; ofZ 6]])
  = [[ofZ 1; ofZ 2; ofZ 3]; [ofZ 4; ofZ 5; ofZ 6]].
Proof.
  apply (transpose_involutive 3).
  - discriminate.
  - repeat constructor.
Defined.

Lemma determinant_rec_unfold (fuel : nat) (m : matrix) :
  determinant_rec fuel m =
  if notSquare m then Throws wrongOrderDeterminant
  else if (List.length m =? 1)%nat then Ok (cell m 0 0)
  else if (List.length m =? 2)%nat
  then Ok (sub (mul (cell m 0 0) (cell m 1 1)) (mul (cell m 0 1) (cell m 1 0)))
  else
    match fuel with
    | O => OutOfFuel
    | S fuel' =>
        fold_left
          (fun (det : outcome num) (c : nat) =>
             match det with
             | Ok d =>
                 match determinant_rec fuel' (getMinor m 0 c) with
                 | Ok sub_det =>
                     Ok (add d (mul (mul (minusOnePow c) (cell m 0 c)) sub_det))
                 | Throws e => Throws e
                 | OutOfFuel => OutOfFuel
                 end
             | _ => det
             end)
          (seq 0 (List.length m)) (Ok zero)
    end.
Proof. destruct fuel; reflexivity. Qed.

Lemma removeAt_length {A : Type} (i : nat) (a : list A) :
  (i < List.length a)%nat ->
  List.length (removeAt i a) = (List.length a - 1)%nat.
Proof.
  intros Hi. unfold removeAt.
  rewrite length_app, length_firstn, length_skipn. lia.
Qed.

Lemma squareOf_notSquare (n : nat) (m : matrix) :
  squareOf n m -> notSquare m = false.
Proof.
  intros (Hn & Hlen & Hrect). unfold notSquare, cols.
  rewrite (rectangular_nth n m 0 Hrect) by lia.
  rewrite Hlen, Nat.eqb_refl.
  destruct (Nat.eqb_spec n 0); [contradiction | reflexivity].
Qed.

Lemma getMinor_square (n : nat) (m : matrix) (c : nat) :
  squareOf (S (S n)) m -> (c < S (S n))%nat -> squareOf (S n) (getMinor m 0 c).
Proof.
  intros (_ & Hlen & Hrect) Hc. unfold squareOf, getMinor.
  split; [discriminate|]. split.
  - rewrite length_map, removeAt_length by lia. lia.
  - unfold rectangular in *. rewrite Forall_forall in *.
    intros row Hrow. apply in_map_iff in Hrow as (row' & <- & Hin).
    assert (In row' m).
    { unfold removeAt in Hin. simpl in Hin.
      destruct m; [contradiction | now right]. }
    rewrite removeAt_length; rewrite (Hrect row') by assumption; lia.
Qed.

Lemma laplace_fold_total (step : nat -> outcome num) (row : nat -> num)
  (cs : list nat) (acc : num) :
  (forall c, In c cs -> exists d, step c = Ok d) ->
  exists d,
    fold_left
      (fun (det : outcome num) (c : nat) =>
         match det with
         | Ok d =>
             match step c with
             | Ok sub_det => Ok (add d (mul (row c) sub_det))
             | Throws e => Throws e
             | OutOfFuel => OutOfFuel
             end
         | _ => det
         end) cs (Ok acc) = Ok d.
Proof.
  revert acc. induction cs as [|c cs IH]; intros acc H; simpl; [eauto|].
  destruct (H c) as [d ->]; [now left|].
  apply IH. intros c' Hc'. apply H. now right.
Qed.

(** On a square matrix the expansion runs through: it throws nothing and
    the fuel lasts. *)
Lemma determinant_rec_total (fuel n : nat) (m : matrix) :
  squareOf n m -> (n <= fuel)%nat -> exists d, determinant_rec fuel m = Ok d.
Proof.
  revert n m. induction fuel as [|fuel IH]; intros n m Hsq Hn.
  - destruct Hsq as (H0 & _). lia.
  - rewrite determinant_rec_unfold, (squareOf_notSquare n m Hsq).
    pose proof Hsq as (H0 & Hlen & Hrect). rewrite Hlen.
    destruct (Nat.eqb_spec n 1); [eauto|].
    destruct (Nat.eqb_spec n 2); [eauto|].
    destruct n as [|[|n]]; [contradiction | contradiction |].
    apply (laplace_fold_total
             (fun c => determinant_rec fuel (getMinor m 0 c))
             (fun c => mul (minusOnePow c) (cell m 0 c))).
    intros c Hc. apply in_seq in Hc.
    apply (IH (S n)); [|lia].
    apply getMinor_square; [exact Hsq | lia].
Qed.

Lemma determinant_total (n : nat) (m : matrix) :
  squareOf n m -> exists d, determinant m = Ok d.
Proof.
  intros Hsq. unfold determinant.
  apply (determinant_rec_total _ n); [exact Hsq|].
  destruct Hsq as (_ & -> & _). lia.
Qed.

(** *** The loops of the inversion are row operations *)

#[local] Open Scope nat_scope.

Lemma at_lookup (row : list num) (j : nat) :
  at_ row j = default nan (row !! j).
Proof. unfold at_. apply nth_lookup. Qed.

Lemma fold_left_ext_eq {A B : Type} (f g : A -> B -> A) (l : list B) (a : A) :
  (forall acc x, f acc x = g acc x) -> fold_left f l a = fold_left g l a.
Proof.
  intros H. revert a. induction l as [|x l IH]; intros a; simpl; [reflexivity|].
  now rewrite H, IH.
Qed.

(** A loop that rewrites the cells [lo .. lo+len-1] of a row in place. *)
Lemma rowLoop_spec (g : nat -> num -> num) (len lo : nat) (row : list num) :
  lo + len <= List.length row ->
  fold_left (fun r j => store j (g j (at_ r j)) r) (seq lo len) row
  = imap (fun j x => if (lo <=? j) && (j <? lo + len) then g j x else x) row.
Proof.
  revert lo row. induction len as [|len IH]; intros lo row Hlen;
    cbn [seq fold_left].
  - apply list_eq. intros j. rewrite list_lookup_imap.
    destruct (row !! j); cbn -[Nat.leb Nat.ltb Nat.add Nat.mul Nat.sub]; [|reflexivity].
    replace ((lo <=? j) && (j <? lo + 0)) with false; [reflexivity|].
    symmetry. apply andb_false_iff.
    destruct (Nat.leb_spec lo j); [right; apply Nat.ltb_ge; lia | now left].
  - unfold store at 2.
    destruct (Nat.ltb_spec lo (List.length row)) as [Hlo|Hlo]; [|lia].
    rewrite IH by (rewrite length_insert; lia).
    apply list_eq. intros j. rewrite !list_lookup_imap.
    destruct (Nat.eq_dec j lo) as [->|Hne].
    + rewrite list_lookup_insert_eq by exact Hlo.
      rewrite at_lookup.
      destruct (row !! lo) as [x|] eqn:E;
        [|apply lookup_ge_None in E; lia].
      cbn -[Nat.leb Nat.ltb Nat.add Nat.mul Nat.sub].
      replace ((S lo <=? lo) && (lo <? S lo + len)) with false
        by (symmetry; apply andb_false_iff; left; apply Nat.leb_gt; lia).
      replace ((lo <=? lo) && (lo <? lo + S len)) with true; [reflexivity|].
      symmetry. apply andb_true_iff.
      split; [apply Nat.leb_le | apply Nat.ltb_lt]; lia.
    + rewrite list_lookup_insert_ne by congruence.
      destruct (row !! j); cbn -[Nat.leb Nat.ltb Nat.add Nat.mul Nat.sub]; [|reflexivity].
      replace ((S lo <=? j) && (j <? S lo + len))
        with ((lo <=? j) && (j <? lo + S len)); [reflexivity|].
      destruct (Nat.leb_spec lo j), (Nat.leb_spec (S lo) j),
        (Nat.ltb_spec j (lo + S len)), (Nat.ltb_spec j (S lo + len));
        simpl; try reflexivity; lia.
Qed.

Lemma nth_insert_eq (aug : list (list num)) (k : nat) (r : list num) :
  k < List.length aug -> nth k (<[k := r]> aug) [] = r.
Proof. intros H. now rewrite nth_lookup, list_lookup_insert_eq. Qed.

Lemma nth_insert_ne (aug : list (list num)) (k i : nat) (r : list num) :
  k <> i -> nth i (<[k := r]> aug) [] = nth i aug [].
Proof. intros H. now rewrite !nth_lookup, list_lookup_insert_ne. Qed.

Lemma insert_nth_id (aug : list (list num)) (k : nat) :
  k < List.length aug -> <[k := nth k aug []]> aug = aug.
Proof.
  intros H. apply list_insert_id. rewrite nth_lookup.
  destruct (aug !! k) eqn:E; [reflexivity|].
  apply lookup_ge_None in E. lia.
Qed.

(** A loop over the cells of row [k] of a matrix is a loop over that row,
    when what it computes does not read row [k] elsewhere. *)
Lemma rowLoop_in_matrix (h : list (list num) -> nat -> num -> num) (k : nat)
  (js : list nat) (aug : list (list num)) :
  k < List.length aug ->
  (forall a r j x, h (<[k := r]> a) j x = h a j x) ->
  fold_left (fun a j => setCell a k j (h a j (cell a k j))) js aug
  = <[k := fold_left (fun r j => store j (h aug j (at_ r j)) r) js
             (nth k aug [])]> aug.
Proof.
  intros Hk Hframe. revert aug Hk.
  induction js as [|j js IH]; intros aug Hk; cbn [fold_left].
  - now rewrite insert_nth_id.
  - rewrite IH by (unfold setCell; now rewrite length_insert).
    unfold setCell at 2 3. rewrite nth_insert_eq by exact Hk.
    unfold setCell. rewrite list_insert_insert_eq. f_equal.
    apply fold_left_ext_eq. intros acc x. now rewrite Hframe.
Qed.

Lemma scaleRow_rows (n i : nat) (aug : list (list num)) :
  i < n -> wide n aug ->
  scaleRow n i aug = <[i := normalizeRow i (nth i aug [])]> aug.
Proof.
  intros Hi [Hlen Hrows]. unfold scaleRow.
  rewrite (rowLoop_in_matrix (fun _ _ x => div x (cell aug i i)))
    by (auto; lia).
  f_equal.
  assert (Hrow : List.length (nth i aug []) = 2 * n).
  { rewrite Forall_forall in Hrows. apply Hrows, nth_In. lia. }
  rewrite (rowLoop_spec (fun _ x => div x (cell aug i i))) by lia.
  unfold normalizeRow. apply list_eq. intros j. rewrite !list_lookup_imap.
  destruct (nth i aug [] !! j) eqn:E; cbn -[Nat.leb Nat.ltb Nat.add Nat.mul Nat.sub];
    [|reflexivity].
  apply lookup_lt_Some in E.
  replace (j <? i + (2 * n - i)) with true
    by (symmetry; apply Nat.ltb_lt; lia).
  now rewrite andb_true_r.
Qed.

Lemma eliminateRow_rows (n i k : nat) (aug : list (list num)) :
  i < n -> k < n -> k <> i -> wide n aug ->
  eliminateRow n i k aug
  = <[k := clearRow i (nth i aug []) (nth k aug [])]> aug.
Proof.
  intros Hi Hk Hne [Hlen Hrows]. unfold eliminateRow.
  rewrite (rowLoop_in_matrix
             (fun a j x => sub x (mul (cell aug k i) (cell a i j))))
    by (try lia; intros; unfold cell; now rewrite nth_insert_ne).
  f_equal.
  assert (Hrow : List.length (nth k aug []) = 2 * n).
  { rewrite Forall_forall in Hrows. apply Hrows, nth_In. lia. }
  rewrite (rowLoop_spec
             (fun j x => sub x (mul (cell aug k i) (cell aug i j)))) by lia.
  unfold clearRow. apply list_eq. intros j. rewrite !list_lookup_imap.
  destruct (nth k aug [] !! j) eqn:E; cbn -[Nat.leb Nat.ltb Nat.add Nat.mul Nat.sub];
    [|reflexivity].
  apply lookup_lt_Some in E.
  replace (j <? i + (2 * n - i)) with true
    by (symmetry; apply Nat.ltb_lt; lia).
  now rewrite andb_true_r.
Qed.

Lemma wide_nth (n : nat) (aug : list (list num)) (k : nat) :
  wide n aug -> k < n -> List.length (nth k aug []) = 2 * n.
Proof.
  intros [Hlen Hrows] Hk. rewrite Forall_forall in Hrows.
  apply Hrows, nth_In. lia.
Qed.

Lemma wide_insert (n : nat) (aug : list (list num)) (k : nat)
  (row : list num) :
  wide n aug -> List.length row = 2 * n -> wide n (<[k := row]> aug).
Proof.
  intros [Hlen Hrows] Hrow. split; [now rewrite length_insert|].
  apply Forall_insert; assumption.
Qed.

Lemma normalizeRow_length (i : nat) (p : list num) :
  List.length (normalizeRow i p) = List.length p.
Proof. apply length_imap. Qed.

Lemma clearRow_length (i : nat) (p row : list num) :
  List.length (clearRow i p row) = List.length row.
Proof. apply length_imap. Qed.

Lemma pivotRow_bound (n i : nat) (aug : list (list num)) :
  i < n -> pivotRow n i aug < n.
Proof.
  intros Hi. unfold pivotRow.
  assert (H : forall l init, init < n -> Forall (fun k => k < n) l ->
            fold_left
              (fun maxRow k =>
                 if gt (abs (cell aug k i)) (abs (cell aug maxRow i))
                 then k else maxRow) l init < n).
  { induction l as [|k l IH]; intros init H0 Hl; [exact H0|].
    inversion Hl; subst. cbn [fold_left]. apply IH; [|assumption].
    destruct (gt _ _); assumption. }
  apply H; [exact Hi|]. apply Forall_forall. intros k Hk.
  apply in_seq in Hk. lia.
Qed.

Lemma swapRows_wide (n i k : nat) (aug : list (list num)) :
  i < n -> k < n -> wide n aug -> wide n (swapRows i k aug).
Proof.
  intros Hi Hk Hw. unfold swapRows.
  apply wide_insert; [apply wide_insert|]; auto using wide_nth.
Qed.

(** Clearing column [i] from the rows [lo .. lo+len-1]. *)
Lemma eliminateColumn_from (n i : nat) (p : list num) (len lo : nat)
  (aug : list (list num)) :
  i < n -> lo + len <= n -> wide n aug -> nth i aug [] = p ->
  fold_left (fun a k => if k =? i then a else eliminateRow n i k a)
    (seq lo len) aug
  = imap (fun k row =>
            if (lo <=? k) && (k <? lo + len) && negb (k =? i)
            then clearRow i p row else row) aug.
Proof.
  intros Hi. revert lo aug.
  induction len as [|len IH]; intros lo aug Hlen Hw Hp; cbn [seq fold_left].
  - apply list_eq. intros k. rewrite list_lookup_imap.
    destruct (aug !! k); cbn -[Nat.leb Nat.ltb Nat.add Nat.mul Nat.sub];
      [|reflexivity].
    destruct (Nat.leb_spec lo k), (Nat.ltb_spec k (lo + 0));
      cbn [andb]; try reflexivity; lia.
  - assert (Hstep : (if lo =? i then aug else eliminateRow n i lo aug)
                    = <[lo := if lo =? i then nth lo aug []
                              else clearRow i p (nth lo aug [])]> aug).
    { destruct (Nat.eqb_spec lo i) as [->|Hne].
      - symmetry. apply insert_nth_id. destruct Hw as [-> _]. exact Hi.
      - rewrite eliminateRow_rows by (auto; lia). now rewrite Hp. }
    rewrite Hstep. rewrite IH.
    + apply list_eq. intros k. rewrite !list_lookup_imap.
      destruct (Nat.eq_dec k lo) as [->|Hne].
      * rewrite list_lookup_insert_eq by (destruct Hw as [-> _]; lia).
        rewrite nth_lookup.
        destruct (aug !! lo) as [row|] eqn:E;
          [|apply lookup_ge_None in E; destruct Hw as [Hl _]; lia].
        cbn -[Nat.leb Nat.ltb Nat.add Nat.mul Nat.sub].
        replace (S lo <=? lo) with false by (symmetry; apply Nat.leb_gt; lia).
        replace (lo <=? lo) with true by (symmetry; apply Nat.leb_le; lia).
        replace (lo <? lo + S len) with true
          by (symmetry; apply Nat.ltb_lt; lia).
        cbn [andb]. now destruct (lo =? i).
      * rewrite list_lookup_insert_ne by congruence.
        destruct (aug !! k); cbn -[Nat.leb Nat.ltb Nat.add Nat.mul Nat.sub];
          [|reflexivity].
        replace ((S lo <=? k) && (k <? S lo + len))
          with ((lo <=? k) && (k <? lo + S len)); [reflexivity|].
        destruct (Nat.leb_spec lo k), (Nat.leb_spec (S lo) k),
          (Nat.ltb_spec k (lo + S len)), (Nat.ltb_spec k (S lo + len));
          simpl; try reflexivity; lia.
    + lia.
    + apply wide_insert; [exact Hw|].
      destruct (lo =? i); [|rewrite clearRow_length];
        apply (wide_nth n aug lo Hw); lia.
    + destruct (Nat.eqb_spec lo i) as [->|Hne].
      * rewrite nth_insert_eq by (destruct Hw as [-> _]; lia). exact Hp.
      * rewrite nth_insert_ne by exact Hne. exact Hp.
Qed.

(** Each round of the loops is the round on rows, and keeps the shape. *)
Lemma gaussJordanStep_rows (n i : nat) (aug : list (list num)) :
  i < n -> wide n aug ->
  gaussJordanStep n aug i = gaussJordanRound n aug i /\
  wide n (gaussJordanRound n aug i).
Proof.
  intros Hi Hw. unfold gaussJordanStep, gaussJordanRound.
  set (swapped := swapRows i (pivotRow n i aug) aug).
  assert (Hsw : wide n swapped).
  { apply swapRows_wide; auto using pivotRow_bound. }
  set (p := normalizeRow i (nth i swapped [])).
  assert (Hp : List.length p = 2 * n).
  { unfold p. rewrite normalizeRow_length. now apply wide_nth. }
  split.
  - rewrite scaleRow_rows by assumption. fold p.
    unfold eliminateColumn.
    rewrite (eliminateColumn_from n i p n 0).
    + apply list_eq. intros k. rewrite !list_lookup_imap.
      destruct (Nat.eq_dec k i) as [->|Hne].
      * rewrite list_lookup_insert_eq by (destruct Hsw as [-> _]; lia).
        destruct (swapped !! i) eqn:E;
          [|apply lookup_ge_None in E; destruct Hsw as [Hl _]; lia].
        cbn -[Nat.leb Nat.ltb Nat.add Nat.mul Nat.sub].
        rewrite Nat.eqb_refl. cbn [negb]. now rewrite andb_false_r.
      * rewrite list_lookup_insert_ne by congruence.
        destruct (swapped !! k) eqn:E;
          cbn -[Nat.leb Nat.ltb Nat.add Nat.mul Nat.sub]; [|reflexivity].
        apply lookup_lt_Some in E. destruct Hsw as [Hl _].
        replace (k <? 0 + n) with true by (symmetry; apply Nat.ltb_lt; lia).
        destruct (Nat.eqb_spec k i); [contradiction|]. reflexivity.
    + exact Hi.
    + lia.
    + now apply wide_insert.
    + apply nth_insert_eq. destruct Hsw as [-> _]. exact Hi.
  - destruct Hsw as [Hl Hrows]. split; [now rewrite length_imap|].
    apply Forall_forall. intros row Hrow.
    apply list_elem_of_In, list_elem_of_lookup in Hrow as [k Hk].
    rewrite list_lookup_imap in Hk.
    destruct (swapped !! k) as [row'|] eqn:E; [|discriminate].
    cbn in Hk. injection Hk as <-.
    destruct (k =? i); [exact Hp|].
    rewrite clearRow_length. rewrite Forall_forall in Hrows.
    apply Hrows. apply list_elem_of_In, list_elem_of_lookup. eauto.
Qed.

Lemma augment_wide (n : nat) (m : list (list num)) :
  squareOf n m -> wide n (augment n m).
Proof.
  intros (_ & Hlen & Hrect). unfold augment. split; [now rewrite length_imap|].
  apply Forall_forall. intros row Hrow.
  apply list_elem_of_In, list_elem_of_lookup in Hrow as [k Hk].
  rewrite list_lookup_imap in Hk.
  destruct (m !! k) as [row'|] eqn:E; [|discriminate].
  cbn in Hk. injection Hk as <-. unfold augmentRow.
  rewrite length_app, length_map, length_seq.
  unfold rectangular in Hrect. rewrite Forall_forall in Hrect.
  rewrite (Hrect row'); [lia|].
  apply list_elem_of_In, list_elem_of_lookup. eauto.
Qed.

(** The loops of [matrixInverse] are Gauss-Jordan rounds on rows. *)
Lemma gaussJordan_rounds (n : nat) (aug : list (list num)) :
  wide n aug ->
  gaussJordan n aug = fold_left (gaussJordanRound n) (seq 0 n) aug.
Proof.
  intros Hw. unfold gaussJordan.
  assert (H : forall l a, Forall (fun i => i < n) l -> wide n a ->
            fold_left (gaussJordanStep n) l a
            = fold_left (gaussJordanRound n) l a).
  { induction l as [|i l IH]; intros a Hl Ha; [reflexivity|].
    inversion Hl; subst. cbn [fold_left].
    destruct (gaussJordanStep_rows n i a) as [-> Hw']; auto. }
  apply H; [|exact Hw]. apply Forall_forall. intros i Hi.
  apply in_seq in Hi. lia.
Qed.

#[local] Close Scope nat_scope.

(** C8. On a square matrix [determinant] returns a number, and
    [matrixInverse] throws the singular-matrix error exactly when the
    absolute value of that number is below [1e-10], the double
    [7737125245533627 * 2^-86]; it throws nothing else, and otherwise
    returns the right half of the augmented matrix [[M | I]] after one
    Gauss-Jordan round per column: the row with the largest pivot is
    swapped in and normalised, and the column is cleared from every
    other row. *)
Theorem matrixInverse_singular_or_gaussJordan (n : nat) (m : matrix) :
  squareOf n m ->
  exists det,
    determinant m = Ok det /\
    (lt (abs det) (S754_finite false 7737125245533627 (-86)) = true <->
     matrixInverse m
     = Throws
         (js "Matrix is singular and cannot be inverted (determinant is zero).")) /\
    (lt (abs det) (S754_finite false 7737125245533627 (-86)) = false ->
     matrixInverse m
     = Ok (List.map (skipn n)
             (fold_left (gaussJordanRound n) (seq 0 n) (augment n m)))) /\
    (forall message, matrixInverse m = Throws message ->
     message
     = js "Matrix is singular and cannot be inverted (determinant is zero).").
Proof.
  intros Hsq. destruct (determinant_total n m Hsq) as [det Hdet].
  exists det. split; [exact Hdet|].
  unfold matrixInverse.
  rewrite (squareOf_notSquare n m Hsq), Hdet.
  rewrite <- (gaussJordan_rounds n (augment n m) (augment_wide n m Hsq)).
  destruct Hsq as (_ & -> & _).
  unfold epsilon, singularMessage.
  destruct (lt (abs det) (S754_finite false 7737125245533627 (-86))).
  - repeat split; try discriminate; auto. now intros message [= <-].
  - repeat split; try discriminate; auto.
Qed.

(** A singular matrix, a regular one, and two matrices of one entry: the
    double nearest to [1/10^10], which is not below the tolerance, and
    half of it, which is. *)
Lemma matrixInverse_singular_or_gaussJordan_witness :
  matrixInverse [[ofZ 1; ofZ 2]; [ofZ 2; ofZ 4]]
  = Throws
      (js "Matrix is singular and cannot be inverted (determinant is zero).") /\
  matrixInverse [[ofZ 0; ofZ 2]; [ofZ 4; ofZ 0]]
  = Ok [[ofZ 0; div (ofZ 1) (ofZ 4)]; [div (ofZ 1) (ofZ 2); ofZ 0]] /\
  matrixInverse [[div (ofZ 1) (ofZ 10000000000)]]
  = Ok [[ofZ 10000000000]] /\
  matrixInverse [[div (ofZ 1) (ofZ 20000000000)]]
  = Throws
      (js "Matrix is singular and cannot be inverted (determinant is zero).").
Proof.
  assert (Hsq : forall a b c d, squareOf 2 [[a; b]; [c; d]]).
  { intros. split; [discriminate|]. split; [reflexivity|].
    repeat constructor. }
  assert (Hone : forall a, squareOf 1 [[a]]).
  { intros. split; [discriminate|]. split; [reflexivity|].
    repeat constructor. }
  destruct (matrixInverse_singular_or_gaussJordan 2
              [[ofZ 1; ofZ 2]; [ofZ 2; ofZ 4]] (Hsq _ _ _ _))
    as (d1 & Hd1 & [Hs1 _] & _).
  destruct (matrixInverse_singular_or_gaussJordan 2
              [[ofZ 0; ofZ 2]; [ofZ 4; ofZ 0]] (Hsq _ _ _ _))
    as (d2 & Hd2 & _ & Hg2 & _).
  destruct (matrixInverse_singular_or_gaussJordan 1
              [[div (ofZ 1) (ofZ 10000000000)]] (Hone _))
    as (d3 & Hd3 & _ & Hg3 & _).
  destruct (matrixInverse_singular_or_gaussJordan 1
              [[div (ofZ 1) (ofZ 20000000000)]] (Hone _))
    as (d4 & Hd4 & [Hs4 _] & _).
  injection Hd1 as <-. injection Hd2 as <-.
  injection Hd3 as <-. injection Hd4 as <-.
  split; [apply Hs1; reflexivity|].
  split; [rewrite Hg2 by reflexivity; reflexivity|].
  split; [rewrite Hg3 by reflexivity; reflexivity|].
  apply Hs4; reflexivity.
Defined.

(** ** The quadratic solver *)

Lemma eq_zero_not_gt (d : num) : eq d (ofZ 0) = true -> gt d (ofZ 0) = false.
Proof. destruct d as [s|s| |s m e]; try destruct s; now vm_compute. Qed.

Lemma lt_zero_not_gt (d : num) : lt d (ofZ 0) = true -> gt d (ofZ 0) = false.
Proof. destruct d as [s|s| |s m e]; try destruct s; now vm_compute. Qed.

Lemma lt_zero_not_eq (d : num) : lt d (ofZ 0) = true -> eq d (ofZ 0) = false.
Proof. destruct d as [s|s| |s m e]; try destruct s; now vm_compute. Qed.

(** C6. [solveQuadratic] throws exactly when [a === 0]. Otherwise it
    returns the discriminant [b*b - 4*a*c] and classifies by its sign: one
    root [-b/(2a)] tagged [single] when it is zero, the two roots
    [(-b +- sqrt d)/(2a)] tagged [real] when it is positive, and the
    conjugate pair [-b/(2a) +- (sqrt(-d)/(2a)) i] tagged [complex] when
    it is negative. *)
Theorem solveQuadratic_classifies (P : platform) (a b c : num) :
  let d := sub (mul b b) (mul (mul (ofZ 4) a) c) in
  let shown := fun v => host_toPrecision P v 4 in
  let re := div (neg b) (mul (ofZ 2) a) in
  let im := div (host_sqrt P (neg d)) (mul (ofZ 2) a) in
  (eq a (ofZ 0) = true <->
   solveQuadratic P a b c
   = Throws (js "Coefficient 'a' cannot be zero for a quadratic equation.")) /\
  (eq a (ofZ 0) = false ->
   exists s, solveQuadratic P a b c = Ok s /\ discriminant s = d /\
     (eq d (ofZ 0) = true -> type s = single /\ roots s = [shown re]) /\
     (gt d (ofZ 0) = true ->
      type s = real /\
      roots s = [shown (div (add (neg b) (host_sqrt P d)) (mul (ofZ 2) a));
                 shown (div (sub (neg b) (host_sqrt P d)) (mul (ofZ 2) a))]) /\
     (lt d (ofZ 0) = true ->
      type s = complex /\
      roots s = [shown re ++ js " + " ++ shown im ++ js "i";
                 shown re ++ js " - " ++ shown im ++ js "i"])).
Proof.
  intros d shown re im. unfold solveQuadratic, two, four, zeroCoefficient.
  fold d.
  destruct (eq a (ofZ 0)) eqn:Ha.
  - split; [tauto | discriminate].
  - split.
    { split; [discriminate|].
      destruct (gt d (ofZ 0)); [discriminate|].
      destruct (eq d (ofZ 0)); discriminate. }
    intros _.
    destruct (gt d (ofZ 0)) eqn:Hgt.
    + eexists; split; [reflexivity|]. simpl. split; [reflexivity|].
      split; [intros H; apply eq_zero_not_gt in H; congruence|].
      split; [auto|intros H; apply lt_zero_not_gt in H; congruence].
    + destruct (eq d (ofZ 0)) eqn:Heq.
      * eexists; split; [reflexivity|]. simpl. split; [reflexivity|].
        split; [auto|]. split; [discriminate|].
        intros H; apply lt_zero_not_eq in H; congruence.
      * eexists; split; [reflexivity|]. simpl. split; [reflexivity|].
        split; [discriminate|]. split; [discriminate|auto].
Qed.

(** On a platform that prints integers: [x^2 - 3x + 2] has the roots 2
    and 1, [x^2 + 2x + 1] the root -1, [x^2 + 1] the pair [0 +- 1i],
    and [0x^2 + x + 1] is refused. *)
Lemma solveQuadratic_classifies_witness :
  solveQuadratic integerPlatform (ofZ 0) (ofZ 1) (ofZ 1)
    = Throws (js "Coefficient 'a' cannot be zero for a quadratic equation.") /\
  (exists s, solveQuadratic integerPlatform (ofZ 1) (ofZ (-3)) (ofZ 2) = Ok s /\
             discriminant s = ofZ 1 /\ type s = real /\
             roots s = [js "2.000"; js "1.000"]) /\
  (exists s, solveQuadratic integerPlatform (ofZ 1) (ofZ 2) (ofZ 1) = Ok s /\
             discriminant s = ofZ 0 /\ type s = single /\
             roots s = [js "-1.000"]) /\
  (exists s, solveQuadratic integerPlatform (ofZ 1) (ofZ 0) (ofZ 1) = Ok s /\
             discriminant s = ofZ (-4) /\ type s = complex /\
             roots s = [js "0.000 + 1.000i"; js "0.000 - 1.000i"]).
Proof.
  destruct (solveQuadratic_classifies integerPlatform (ofZ 0) (ofZ 1) (ofZ 1))
    as [[Hthrow _] _].
  destruct (solveQuadratic_classifies integerPlatform (ofZ 1) (ofZ (-3)) (ofZ 2))
    as [_ Hreal].
  destruct (solveQuadratic_classifies integerPlatform (ofZ 1) (ofZ 2) (ofZ 1))
    as [_ Hsingle].
  destruct (solveQuadratic_classifies integerPlatform (ofZ 1) (ofZ 0) (ofZ 1))
    as [_ Hcomplex].
  refine (conj (Hthrow eq_refl) (conj _ (conj _ _))).
  - destruct (Hreal eq_refl) as (s & Hs & Hd & _ & Hpos & _).
    destruct (Hpos eq_refl) as [Ht Hr].
    exists s. split; [exact Hs|]. split; [rewrite Hd; reflexivity|].
    split; [exact Ht | rewrite Hr; reflexivity].
  - destruct (Hsingle eq_refl) as (s & Hs & Hd & Hzero & _).
    destruct (Hzero eq_refl) as [Ht Hr].
    exists s. split; [exact Hs|]. split; [rewrite Hd; reflexivity|].
    split; [exact Ht | rewrite Hr; reflexivity].
  - destruct (Hcomplex eq_refl) as (s & Hs & Hd & _ & _ & Hneg).
    destruct (Hneg eq_refl) as [Ht Hr].
    exists s. split; [exact Hs|]. split; [rewrite Hd; reflexivity|].
    split; [exact Ht | rewrite Hr; reflexivity].
Defined.

(** ** The function parser *)

(** The identifier check is the first thing [parseFunction] does. *)
Lemma parseFunction_unknown (funcStr identifier : jsstring) :
  find (fun i => negb (has knownIdentifiers i))
    (letterRuns (toLowerCase funcStr)) = Some identifier ->
  parseFunction funcStr = ParseError (unknownIdentifier identifier).
Proof. unfold parseFunction. now intros ->. Qed.

Lemma find_existsb {A : Type} (p : A -> bool) (l : list A) :
  existsb p l = true -> exists a, find p l = Some a.
Proof.
  induction l as [|a l IH]; simpl; [discriminate|].
  destruct (p a); [now exists a | exact IH].
Qed.

(** The runs that [/[a-z]+/g] finds are the maximal runs of lower-case
    letters. *)

Lemma startsWith_app (p : N -> bool) (a b : jsstring) :
  a <> [] -> startsWith p (a ++ b) = startsWith p a.
Proof. destruct a; [contradiction | reflexivity]. Qed.

Lemma startsWith_rev_cons (p : N -> bool) (c : N) (pre : jsstring) :
  p c = false ->
  startsWith p (rev (c :: pre)) = startsWith p (rev pre).
Proof.
  intros Hc. simpl. destruct pre as [|d pre]; [simpl; exact Hc|].
  apply startsWith_app. simpl. now destruct (rev pre).
Qed.

Lemma startsWith_rev_app (p : N -> bool) (a b : jsstring) :
  b <> [] -> startsWith p (rev (a ++ b)) = startsWith p (rev b).
Proof.
  intros Hb. rewrite rev_app_distr. apply startsWith_app.
  intros E. apply (f_equal (@rev N)) in E. rewrite rev_involutive in E.
  contradiction.
Qed.

(** A text of lower-case letters has no boundary inside. *)
Lemma lower_no_prefix_boundary (pre rest : jsstring) :
  forallb isLower (pre ++ rest) = true ->
  startsWith isLower (rev pre) = false -> pre = [].
Proof.
  intros Hall Hb. destruct pre as [|c pre] using rev_ind; [reflexivity|].
  rewrite rev_app_distr in Hb. simpl in Hb.
  rewrite !forallb_app in Hall. simpl in Hall.
  apply andb_true_iff in Hall as [Hall _].
  apply andb_true_iff in Hall as [_ Hall].
  apply andb_true_iff in Hall as [Hall _]. congruence.
Qed.

Lemma lower_no_suffix_boundary (post : jsstring) :
  forallb isLower post = true -> startsWith isLower post = false -> post = [].
Proof.
  destruct post as [|c post]; [reflexivity|]. simpl.
  intros H. apply andb_true_iff in H as [H _]. congruence.
Qed.

Lemma maximalRun_skip (c : N) (s run : jsstring) :
  isLower c = false -> (maximalRun (c :: s) run <-> maximalRun s run).
Proof.
  intros Hc. split.
  - intros (pre & post & E & Hne & Hall & Hpre & Hpost).
    destruct pre as [|p pre].
    + destruct run as [|r run]; [contradiction|].
      simpl in E, Hall. injection E as <- _.
      apply andb_true_iff in Hall as [Hall _]. congruence.
    + simpl in E. injection E as <- E.
      exists pre, post. repeat split; auto.
      now rewrite startsWith_rev_cons in Hpre.
  - intros (pre & post & E & Hne & Hall & Hpre & Hpost).
    exists (c :: pre), post. repeat split; auto.
    + simpl. now rewrite E.
    + now rewrite startsWith_rev_cons.
Qed.

Lemma maximalRun_after (cur : jsstring) (c : N) (s run : jsstring) :
  cur <> [] -> forallb isLower cur = true -> isLower c = false ->
  (maximalRun (cur ++ c :: s) run <-> run = cur \/ maximalRun s run).
Proof.
  intros Hcur Hlow Hc. split.
  - intros (pre & post & E & Hne & Hall & Hpre & Hpost).
    apply app_eq_app in E as [l [[E1 E2] | [E1 E2]]].
    + assert (pre = []) as ->.
      { apply (lower_no_prefix_boundary pre l); [now rewrite <- E1 | exact Hpre]. }
      simpl in E1. subst l.
      symmetry in E2. apply app_eq_app in E2 as [l [[E3 E4] | [E3 E4]]].
      * left. destruct l as [|x l]; [now rewrite app_nil_r in E3|].
        rewrite E4 in Hpost. simpl in Hpost.
        rewrite E3, forallb_app in Hlow. simpl in Hlow.
        apply andb_true_iff in Hlow as [_ Hlow].
        apply andb_true_iff in Hlow as [Hlow _]. congruence.
      * left. destruct l as [|x l]; [now rewrite app_nil_r in E3|].
        simpl in E4. injection E4 as <- _.
        rewrite E3, forallb_app in Hall. simpl in Hall.
        apply andb_true_iff in Hall as [_ Hall].
        apply andb_true_iff in Hall as [Hall _]. congruence.
    + right. destruct l as [|x l].
      * simpl in E2. destruct run as [|r run]; [contradiction|].
        simpl in E2, Hall. injection E2 as -> _.
        apply andb_true_iff in Hall as [Hall _]. congruence.
      * simpl in E2. injection E2 as <- E2.
        exists l, post. repeat split; auto.
        destruct l as [|y l]; [reflexivity|].
        rewrite E1 in Hpre.
        change (cur ++ c :: y :: l) with (cur ++ [c] ++ y :: l) in Hpre.
        rewrite app_assoc, startsWith_rev_app in Hpre by discriminate.
        exact Hpre.
  - intros [-> | (pre & post & E & Hne & Hall & Hpre & Hpost)].
    + exists [], (c :: s). repeat split; auto.
    + exists (cur ++ c :: pre), post. repeat split; auto.
      * rewrite E, <- app_assoc. reflexivity.
      * destruct pre as [|y pre].
        -- rewrite rev_app_distr. simpl. exact Hc.
        -- change (cur ++ c :: y :: pre) with (cur ++ [c] ++ y :: pre).
           rewrite app_assoc, startsWith_rev_app by discriminate.
           exact Hpre.
Qed.

Lemma letterRuns_go_spec (s cur run : jsstring) :
  forallb isLower cur = true ->
  (In run (letterRuns_go cur s) <-> maximalRun (cur ++ s) run).
Proof.
  revert cur. induction s as [|c s IH]; intros cur Hlow.
  - rewrite app_nil_r. simpl. split.
    + intros H. assert (run = cur /\ cur <> []) as [-> Hne].
      { destruct cur; simpl in H; [contradiction|].
        destruct H as [<-|[]]. split; [reflexivity | discriminate]. }
      exists [], []. rewrite app_nil_r. repeat split; auto.
    + intros (pre & post & E & Hne & Hall & Hpre & Hpost).
      assert (pre = []) as ->.
      { apply (lower_no_prefix_boundary pre (run ++ post)); [now rewrite <- E | exact Hpre]. }
      assert (post = []) as ->.
      { apply lower_no_suffix_boundary; [|exact Hpost].
        rewrite E in Hlow. simpl in Hlow. rewrite forallb_app in Hlow.
        now apply andb_true_iff in Hlow as [_ Hlow]. }
      simpl in E. rewrite app_nil_r in E. subst cur.
      destruct run; [contradiction | now left].
  - simpl. destruct (isLower c) eqn:Hc.
    + rewrite IH.
      * now rewrite <- app_assoc.
      * rewrite forallb_app, Hlow. simpl. now rewrite Hc.
    + destruct cur as [|d cur].
      * rewrite (IH []) by reflexivity. simpl. symmetry. now apply maximalRun_skip.
      * rewrite (maximalRun_after (d :: cur) c s run) by (auto; discriminate).
        simpl. rewrite (IH []) by reflexivity. simpl. split.
        -- intros [<- | H]; auto.
        -- intros [-> | H]; auto.
Qed.

Lemma letterRuns_spec (s run : jsstring) :
  In run (letterRuns s) <-> maximalRun s run.
Proof. unfold letterRuns. now rewrite letterRuns_go_spec. Qed.

(** C4. When a maximal run of lower-case letters of the lower-cased input
    is not in the vocabulary, [parseFunction] throws at parse time, and
    the message names such a run (the first one) between double quotes;
    [foo(x)] fails naming [foo]. *)
Theorem parseFunction_names_unknown_identifier (funcStr : jsstring) :
  (forall run,
     maximalRun (toLowerCase funcStr) run ->
     has knownIdentifiers run = false ->
     exists identifier,
       maximalRun (toLowerCase funcStr) identifier /\
       has knownIdentifiers identifier = false /\
       parseFunction funcStr
       = ParseError (js "Unknown function or variable: "
                       ++ [34%N] ++ identifier ++ [34%N])) /\
  parseFunction (js "foo(x)")
  = ParseError (js "Unknown function or variable: "
                  ++ [34%N] ++ js "foo" ++ [34%N]).
Proof.
  split; [|reflexivity].
  intros run Hin Hun. apply letterRuns_spec in Hin.
  destruct (find_existsb (fun i => negb (has knownIdentifiers i))
              (letterRuns (toLowerCase funcStr))) as [identifier Hf].
  { apply existsb_exists. exists run. now rewrite Hun. }
  exists identifier. pose proof (find_some _ _ Hf) as [H1 H2].
  apply negb_true_iff in H2. apply letterRuns_spec in H1.
  split; [exact H1|]. split; [exact H2|].
  now apply parseFunction_unknown.
Qed.

(** In [2*Bar(x)+baz] the run [baz] is unknown, and so is [bar], which
    comes first and is the one named. *)
Lemma parseFunction_names_unknown_identifier_witness :
  (exists identifier,
     maximalRun (toLowerCase (js "2*Bar(x)+baz")) identifier /\
     has knownIdentifiers identifier = false /\
     parseFunction (js "2*Bar(x)+baz")
     = ParseError (js "Unknown function or variable: "
                     ++ [34%N] ++ identifier ++ [34%N])) /\
  parseFunction (js "2*Bar(x)+baz")
  = ParseError (js "Unknown function or variable: "
                  ++ [34%N] ++ js "bar" ++ [34%N]).
Proof.
  split; [|reflexivity].
  apply (proj1 (parseFunction_names_unknown_identifier (js "2*Bar(x)+baz"))
           (js "baz")).
  - apply letterRuns_spec. vm_compute. tauto.
  - reflexivity.
Defined.

Lemma sample_Some (r : parseResult) (x : num) (c : completion) :
  sample r x = Some c -> exists f, r = Compiled f /\ f x = c.
Proof.
  destruct r as [f| |]; simpl; try discriminate.
  intros [= <-]. now exists f.
Qed.

(** The first rewriting pass puts a [*] at every place where a character
    of the first class is followed by one of the second, the classes
    being disjoint. *)
Lemma insertStar_between (p1 p2 : N -> bool) :
  (forall c, p2 c = true -> p1 c = false) ->
  forall pre d l post, p1 d = true -> p2 l = true ->
  exists pre',
    insertStar p1 p2 (pre ++ d :: l :: post)
    = pre' ++ d :: 42%N :: l :: insertStar p1 p2 post.
Proof.
  intros Hdisj pre d l post Hd Hl.
  assert (Hd2 : p2 d = false).
  { destruct (p2 d) eqn:E; [|reflexivity].
    apply Hdisj in E. congruence. }
  remember (List.length pre) as n eqn:Hn.
  revert pre Hn. induction n as [n IH] using lt_wf_ind. intros pre Hn.
  destruct pre as [|a [|b pre]].
  - exists []. simpl. now rewrite Hd, Hl.
  - exists [a]. simpl. rewrite Hd2, andb_false_r, Hd, Hl. reflexivity.
  - change ((a :: b :: pre) ++ d :: l :: post)
      with (a :: b :: (pre ++ d :: l :: post)).
    cbn [insertStar]. destruct (p1 a && p2 b)%bool.
    + destruct (IH (List.length pre)) with (pre := pre) as [pre' E];
        [simpl in Hn; lia | reflexivity |].
      exists (a :: 42%N :: b :: pre'). now rewrite E.
    + destruct (IH (List.length (b :: pre))) with (pre := b :: pre)
        as [pre' E]; [simpl in *; lia | reflexivity |].
      exists (a :: pre'). simpl in E. now rewrite E.
Qed.

(** A function built from the [try] template never throws: its [catch]
    returns null. *)
Lemma newFunction_try_never_throws (params : list jsstring) (src : jsstring)
  (call : list value -> completion) (args : list value) :
  newFunction params (TryReturnOf src) = Constructed call ->
  call args <> Throw.
Proof.
  unfold newFunction. simpl bodySource.
  destruct (parseReturn src) as [[e|]| |]; try discriminate;
    intros [= <-]; [|discriminate].
  destruct (wellScoped _ e); [|discriminate].
  unfold guardTry. destruct (eval _ e); discriminate.
Qed.

(** So what [parseFunction] returns never throws either. *)
Lemma compiled_never_throws (funcStr : jsstring) (f : num -> completion)
  (x : num) :
  parseFunction funcStr = Compiled f -> f x <> Throw.
Proof.
  unfold parseFunction.
  destruct (find _ _); [discriminate|].
  destruct (newFunction _ _) as [call| |] eqn:E; try discriminate.
  cbv zeta. destruct (call [VNum (ofZ 1); FN]); try discriminate;
    intros [= <-]; apply (newFunction_try_never_throws _ _ _ _ E).
Qed.

(** C3 at a domain error. [Math.sqrt] of a negative number and a division
    by zero throw nothing, so the [catch] is not entered: the functions
    compiled for [sqrt(x)] and [1/x] return NaN at -1 and Infinity at 0,
    not null. *)
Theorem compiled_domain_error_is_not_null :
  (exists f, parseFunction (js "sqrt(x)") = Compiled f /\
             f (ofZ (-1)) = Normal (VNum nan) /\
             f (ofZ (-1)) <> Normal VNull) /\
  (exists g, parseFunction (js "1/x") = Compiled g /\
             g (ofZ 0) = Normal (VNum infinity) /\
             g (ofZ 0) <> Normal VNull).
Proof.
  split.
  - destruct (sample_Some (parseFunction (js "sqrt(x)")) (ofZ (-1))
                (Normal (VNum nan))) as (f & Hf & Hx);
      [vm_compute; reflexivity|].
    exists f. rewrite Hx. repeat split; [exact Hf | discriminate].
  - destruct (sample_Some (parseFunction (js "1/x")) (ofZ 0)
                (Normal (VNum infinity))) as (g & Hg & Hx);
      [vm_compute; reflexivity|].
    exists g. rewrite Hx. repeat split; [exact Hg | discriminate].
Qed.

(** ** The prime factoriser *)

Lemma product_app (a b : list Z) : product (a ++ b) = product a * product b.
Proof.
  unfold product. induction a as [|x a IH]; simpl; [lia|]. rewrite IH. lia.
Qed.

Lemma product_repeat (i : Z) (k : nat) : product (repeat i k) = i ^ Z.of_nat k.
Proof.
  induction k as [|k IH]; [reflexivity|].
  rewrite Nat2Z.inj_succ, Z.pow_succ_r by lia.
  rewrite <- IH. reflexivity.
Qed.

Lemma Sorted_app (a b : list Z) :
  Sorted Z.le a -> Sorted Z.le b ->
  (forall x y, In x a -> In y b -> x <= y) -> Sorted Z.le (a ++ b).
Proof.
  intros Ha Hb Hab. induction a as [|x a IH]; [exact Hb|].
  simpl. inversion Ha as [|? ? Hs Hh]; subst. constructor.
  - apply IH; [exact Hs|]. intros; apply Hab; [now right | assumption].
  - destruct a as [|y a]; simpl.
    + destruct b as [|y b]; constructor. apply Hab; now left.
    + inversion Hh; subst. now constructor.
Qed.

Lemma Sorted_repeat (i : Z) (k : nat) : Sorted Z.le (repeat i k).
Proof.
  induction k as [|k IH]; simpl; constructor; [exact IH|].
  destruct k; simpl; constructor. lia.
Qed.

Lemma prime_of_noSmallDivisor (p : Z) :
  2 <= p -> noSmallDivisor p p -> Z.prime p.
Proof.
  intros Hp Hno. split; [lia|].
  intros d Hd. apply Hno. lia.
Qed.

Lemma noSmallDivisor_divisor (i num d : Z) :
  noSmallDivisor i num -> (d | num) -> noSmallDivisor i d.
Proof.
  intros Hno Hd e He Hed. apply (Hno e He). now apply Z.divide_trans with d.
Qed.

Lemma noSmallDivisor_below (i num : Z) :
  2 <= num -> noSmallDivisor i num -> i <= num.
Proof.
  intros Hn Hno. destruct (Z_lt_le_dec num i) as [H|H]; [|exact H].
  exfalso. apply (Hno num); [lia | apply Z.divide_refl].
Qed.

(** What is left below the square of the next candidate is a prime. *)
Lemma prime_below_square (i num : Z) :
  0 <= i -> 2 <= num -> noSmallDivisor i num -> num < i * i -> Z.prime num.
Proof.
  intros Hi Hn Hno Hsq. split; [lia|].
  intros d Hd [k Hk].
  assert (Hk1 : 1 < k).
  { destruct (Z_lt_le_dec 1 k) as [H|H]; [exact H|].
    exfalso. assert (k * d <= 1 * d) by (apply Z.mul_le_mono_nonneg_r; lia).
    lia. }
  destruct (Z_lt_le_dec d i) as [Hdi|Hdi].
  - apply (Hno d); [lia | now exists k].
  - apply (Hno k); [|exists d; lia].
    split; [lia|].
    destruct (Z_lt_le_dec k i) as [H|H]; [exact H|].
    exfalso. assert (i * i <= k * d) by (apply Z.mul_le_mono_nonneg; lia).
    lia.
Qed.

(** ** The inner loop *)

Lemma divideOut_spec (fuel : nat) (i num : Z) (factors : list Z) :
  2 <= i -> 1 <= num -> (Z.to_nat num <= fuel)%nat ->
  exists k num',
    divideOut fuel i num factors = Some (num', factors ++ repeat i k) /\
    num = num' * i ^ Z.of_nat k /\ 1 <= num' /\ ~ (i | num') /\
    (k <> 0%nat -> (i | num)).
Proof.
  revert num factors. induction fuel as [|fuel IH]; intros num factors Hi Hn Hf.
  - lia.
  - simpl. rewrite Z.rem_mod_nonneg by lia.
    destruct (Z.eqb_spec (num mod i) 0) as [E|E].
    + assert (Hq : num = i * (num / i)).
      { rewrite (Z.div_mod num i) at 1 by lia. lia. }
      rewrite Z.quot_div_nonneg by lia.
      assert (1 <= num / i) by nia.
      destruct (IH (num / i) (factors ++ [i])) as (k & num' & Hd & Hp & H1 & Hnd & _);
        [lia | lia | nia |].
      exists (S k), num'. rewrite Hd, <- app_assoc. simpl.
      split; [reflexivity|]. split.
      { rewrite Nat2Z.inj_succ, Z.pow_succ_r by lia. nia. }
      split; [exact H1|]. split; [exact Hnd|].
      intros _. exists (num / i). lia.
    + exists 0%nat, num. simpl. rewrite app_nil_r.
      split; [reflexivity|]. split; [lia|]. split; [exact Hn|].
      split; [|congruence].
      intros Hd. apply E. apply Z.mod_divide in Hd; lia.
Qed.

Lemma noSmallDivisor_next (i num : Z) :
  3 <= i -> Z.odd i = true -> noSmallDivisor i num -> ~ (i | num) ->
  noSmallDivisor (i + 2) num.
Proof.
  intros Hi Hodd Hno Hnd d Hd Hdiv.
  destruct (Z_lt_le_dec d i) as [H|H]; [apply (Hno d); [lia | exact Hdiv]|].
  destruct (Z.eq_dec d i) as [->|Hne]; [contradiction|].
  assert (d = i + 1) as -> by lia.
  apply (Hno 2); [lia|].
  apply Z.divide_trans with (i + 1); [|exact Hdiv].
  rewrite (Zodd_div2 i) by (now apply Zodd_bool_iff).
  exists (Z.div2 i + 1). lia.
Qed.

(** ** The outer loop *)

Section TrialDivision.

Variable P : platform.
Variable bound : Z.
Hypothesis sqrt_ok : sqrtAccurate P bound.

Lemma trialDivide_spec (fuel : nat) (i num : Z) (factors : list Z) :
  3 <= i <= Z.sqrt bound + 3 -> Z.odd i = true -> 1 <= num <= bound ->
  noSmallDivisor i num ->
  (Z.to_nat num + Z.to_nat (Z.sqrt num + 3 - i) < fuel)%nat ->
  exists num' found i',
    trialDivide P fuel i num factors = Some (num', factors ++ found) /\
    num = num' * product found /\ 1 <= num' /\
    Forall Z.prime found /\ Sorted Z.le found /\
    Forall (fun g => i <= g < i') found /\
    i <= i' /\ noSmallDivisor i' num' /\ num' < i' * i'.
Proof.
  revert i num factors.
  induction fuel as [|fuel IH]; intros i num factors Hi Hodd Hn Hno Hf; [lia|].
  simpl. destruct (sqrt_ok i num Hi Hn) as [Hlow Hhigh].
  destruct (SFleb (ofZ i) (host_sqrt P (ofZ num))) eqn:Htest.
  - specialize (Hhigh eq_refl).
    assert (Hsq : i - 1 <= Z.sqrt num).
    { apply Z.sqrt_le_square; lia. }
    destruct (divideOut_spec fuel i num factors)
      as (k & num1 & Hd & Hp & H1 & Hnd & Hk); [lia | lia | lia |].
    rewrite Hd.
    assert (Hle : num1 <= num).
    { assert (0 < i ^ Z.of_nat k) by (apply Z.pow_pos_nonneg; lia). nia. }
    assert (Hdiv1 : (num1 | num)) by (exists (i ^ Z.of_nat k); lia).
    destruct (IH (i + 2) num1 (factors ++ repeat i k))
      as (num' & found & i' & Ht & Hprod & H1' & Hpr & Hso & Hrg & Hii & Hno' & Hlt).
    + assert (Z.sqrt num <= Z.sqrt bound) by (apply Z.sqrt_le_mono; lia). lia.
    + rewrite Z.odd_add, Hodd. reflexivity.
    + lia.
    + apply noSmallDivisor_next; auto; [lia|].
      intros d Hd' Hdd. apply (Hno d Hd'). now apply Z.divide_trans with num1.
    + assert (Z.sqrt num1 <= Z.sqrt num) by (apply Z.sqrt_le_mono; lia). lia.
    + exists num', (repeat i k ++ found), i'.
      rewrite Ht, <- app_assoc. split; [reflexivity|].
      split; [rewrite product_app, product_repeat; nia|].
      split; [exact H1'|]. split.
      { apply Forall_app. split; [|exact Hpr].
        destruct k as [|k]; [constructor|].
        assert (Hpi : Z.prime i).
        { apply prime_of_noSmallDivisor; [lia|].
          apply noSmallDivisor_divisor with num; [exact Hno | now apply Hk]. }
        apply Forall_forall. intros x Hx. apply repeat_spec in Hx. now subst. }
      split.
      { apply Sorted_app; [apply Sorted_repeat | exact Hso |].
        intros x y Hx Hy. apply repeat_spec in Hx. subst x.
        rewrite Forall_forall in Hrg. specialize (Hrg y Hy). lia. }
      split.
      { apply Forall_app. split.
        - apply Forall_forall. intros x Hx. apply repeat_spec in Hx. lia.
        - eapply Forall_impl; [|exact Hrg]. simpl. intros; lia. }
      split; [lia|]. split; [exact Hno' | exact Hlt].
  - exists num, [], i. rewrite app_nil_r. split; [reflexivity|].
    unfold product. simpl.
    split; [lia|]. split; [lia|]. split; [constructor|].
    split; [constructor|]. split; [constructor|]. split; [lia|].
    split; [exact Hno|].
    destruct (Z_lt_le_dec num (i * i)) as [H|H]; [exact H|].
    specialize (Hlow H). congruence.
Qed.

End TrialDivision.

(** ** The factoriser *)

Lemma primeFactorize_runs (P : platform) (n : num) :
  isInteger n = true -> lt n (ofZ 2) = false ->
  gt n MAX_SAFE_INTEGER = false ->
  2 <= toZ n -> sqrtAccurate P (toZ n) ->
  exists factors,
    primeFactorize P n = Ok factors /\
    Forall Z.prime factors /\ Sorted Z.le factors /\
    product factors = toZ n.
Proof.
  intros Hint Hlt Hgt Hn Hsqrt.
  unfold primeFactorize, primeFactorize_fuel. rewrite Hint, Hlt, Hgt. simpl.
  set (n0 := toZ n) in *. set (fuel := Z.to_nat (2 * n0)).
  destruct (divideOut_spec fuel 2 n0 [])
    as (k0 & num0 & Hd & Hp & H1 & Hnd & _); [lia | lia | lia |].
  rewrite Hd. simpl app.
  assert (Hpow : 0 < 2 ^ Z.of_nat k0) by (apply Z.pow_pos_nonneg; lia).
  assert (Hle : num0 <= n0) by nia.
  destruct (trialDivide_spec P n0 Hsqrt fuel 3 num0 (repeat 2 k0))
    as (num' & found & i' & Ht & Hprod & H1' & Hpr & Hso & Hrg & Hii & Hno & Hsq).
  - pose proof (Z.sqrt_nonneg n0). lia.
  - reflexivity.
  - lia.
  - intros d Hd2 Hdd. assert (d = 2) as -> by lia. contradiction.
  - pose proof (Z.sqrt_le_lin num0 ltac:(lia)).
    pose proof (Z.sqrt_lt_lin n0 ltac:(lia)).
    destruct (Z.eq_dec num0 n0) as [E|E]; [rewrite E|]; lia.
  - rewrite Ht.
    assert (Htwos : Forall Z.prime (repeat 2 k0)).
    { apply Forall_forall. intros x Hx. apply repeat_spec in Hx. subst.
      exact Z.prime_2. }
    assert (Hsorted : Sorted Z.le (repeat 2 k0 ++ found)).
    { apply Sorted_app; [apply Sorted_repeat | exact Hso |].
      intros x y Hx Hy. apply repeat_spec in Hx. subst x.
      rewrite Forall_forall in Hrg. specialize (Hrg y Hy). lia. }
    destruct (Z.ltb_spec 2 num') as [Hbig|Hsmall].
    + eexists. split; [reflexivity|]. split.
      { rewrite !Forall_app. repeat split; auto.
        constructor; [|constructor].
        apply (prime_below_square i'); [lia | lia | exact Hno | exact Hsq]. }
      split.
      { apply Sorted_app; [exact Hsorted | repeat constructor |].
        intros x y Hx [<-|[]].
        pose proof (noSmallDivisor_below i' num' ltac:(lia) Hno).
        apply in_app_or in Hx as [Hx|Hx].
        - apply repeat_spec in Hx. lia.
        - rewrite Forall_forall in Hrg. specialize (Hrg x Hx). lia. }
      rewrite !product_app, product_repeat. unfold product at 2. simpl. nia.
    + assert (num' = 1) as ->.
      { destruct (Z.eq_dec num' 2) as [->|]; [|lia].
        exfalso. apply (Hno 2); [lia | apply Z.divide_refl]. }
      eexists. split; [reflexivity|]. split.
      { rewrite Forall_app. split; auto. }
      split; [exact Hsorted|].
      rewrite product_app, product_repeat. nia.
Qed.


(** ** Binary64 numbers that stand for integers *)

Lemma digits2_pos_bounds (m : positive) :
  2 ^ (Z.pos (digits2_pos m) - 1) <= Z.pos m < 2 ^ Z.pos (digits2_pos m).
Proof.
  induction m as [m IH|m IH|]; simpl digits2_pos; [| |simpl; lia].
  - rewrite Pos2Z.inj_succ.
    replace (Z.succ (Z.pos (digits2_pos m)) - 1)
      with (Z.succ (Z.pos (digits2_pos m) - 1)) by lia.
    rewrite !Z.pow_succ_r by lia. lia.
  - rewrite Pos2Z.inj_succ.
    replace (Z.succ (Z.pos (digits2_pos m)) - 1)
      with (Z.succ (Z.pos (digits2_pos m) - 1)) by lia.
    rewrite !Z.pow_succ_r by lia. lia.
Qed.

Lemma digits2_pos_unique (m : positive) (k : Z) :
  2 ^ (k - 1) <= Z.pos m < 2 ^ k -> Z.pos (digits2_pos m) = k.
Proof.
  intros [Hlo Hhi]. pose proof (digits2_pos_bounds m) as [Hl Hh].
  set (d := Z.pos (digits2_pos m)) in *.
  assert (0 < k).
  { destruct (Z_lt_le_dec 0 k); [assumption|].
    destruct (Z.eq_dec k 0) as [->|]; [simpl in Hhi; lia|].
    rewrite Z.pow_neg_r in Hhi by lia. lia. }
  destruct (Z_lt_le_dec d k) as [H1|H1].
  - assert (2 ^ d <= 2 ^ (k - 1)) by (apply Z.pow_le_mono_r; lia). lia.
  - destruct (Z_lt_le_dec k d) as [H2|H2]; [|lia].
    assert (2 ^ k <= 2 ^ (d - 1)) by (apply Z.pow_le_mono_r; lia). lia.
Qed.

Lemma iter_xO_value (p d : positive) :
  Z.pos (Pos.iter xO p d) = Z.pos p * 2 ^ Z.pos d.
Proof.
  induction d as [|d IH] using Pos.peano_ind.
  - simpl. lia.
  - rewrite Pos.iter_succ, Pos2Z.inj_succ, Z.pow_succ_r by lia.
    rewrite Pos2Z.inj_xO, IH. lia.
Qed.

(** Rounding leaves a mantissa of 53 digits as it is, or moves to the next
    one. *)
Lemma shr_record_roundtrip (m : Z) (l : location) :
  shr_m (shr_record_of_loc m l) = m /\
  loc_of_shr_record (shr_record_of_loc m l) = l.
Proof. destruct l as [|[| |]]; split; reflexivity. Qed.

Lemma shr_fexp_53 (M : positive) (e : Z) (l : location) :
  Z.pos (digits2_pos M) = 53 -> -1074 <= e ->
  shr_fexp prec emax (Z.pos M) e l = (shr_record_of_loc (Z.pos M) l, e).
Proof.
  intros Hd He. unfold shr_fexp, fexp, SpecFloat.emin, prec, emax, Zdigits2.
  rewrite Hd. replace (Z.max (53 + e - 53) (3 - 1024 - 53) - e) with 0 by lia.
  reflexivity.
Qed.

Lemma round_nearest_even_cases (m : Z) (l : location) :
  round_nearest_even m l = m \/ round_nearest_even m l = m + 1.
Proof.
  destruct l as [|[| |]]; simpl; auto. destruct (Z.even m); auto.
Qed.

Lemma binary_round_aux_53 (M : positive) (e : Z) (l : location) :
  Z.pos (digits2_pos M) = 53 -> -1074 <= e <= 900 ->
  exists M' e',
    binary_round_aux prec emax false (Z.pos M) e l = S754_finite false M' e' /\
    Z.pos (digits2_pos M') = 53 /\ -1074 <= e' <= 901 /\
    (round_nearest_even (Z.pos M) l = Z.pos M -> M' = M /\ e' = e) /\
    Z.pos M * 2 ^ (e + 1074) <= Z.pos M' * 2 ^ (e' + 1074)
      <= (Z.pos M + 1) * 2 ^ (e + 1074).
Proof.
  intros Hd He. unfold binary_round_aux.
  rewrite (shr_fexp_53 M e l Hd) by lia.
  destruct (shr_record_roundtrip (Z.pos M) l) as [-> ->].
  pose proof (digits2_pos_bounds M) as HM. rewrite Hd in HM.
  change (2 ^ (53 - 1)) with 4503599627370496 in HM.
  change (2 ^ 53) with 9007199254740992 in HM.
  assert (Hpow : 0 < 2 ^ (e + 1074)) by (apply Z.pow_pos_nonneg; lia).
  destruct (round_nearest_even_cases (Z.pos M) l) as [-> | ->].
  - rewrite (shr_fexp_53 M e loc_Exact Hd) by lia. simpl shr_m.
    replace (e <=? emax - prec) with true
      by (symmetry; apply Z.leb_le; unfold emax, prec; lia).
    exists M, e. repeat split; auto; lia.
  - destruct (Z.eq_dec (Z.pos M + 1) 9007199254740992) as [E|E].
    + rewrite E. unfold shr_fexp, fexp, SpecFloat.emin, prec, emax.
      change (Zdigits2 9007199254740992) with 54.
      replace (Z.max (54 + e - 53) (3 - 1024 - 53) - e) with 1 by lia.
      simpl.
      replace (e + 1 <=? 1024 - 53) with true
        by (symmetry; apply Z.leb_le; lia).
      exists 4503599627370496%positive, (e + 1). split; [reflexivity|].
      split; [reflexivity|]. split; [lia|]. split; [lia|].
      replace (e + 1 + 1074) with (Z.succ (e + 1074)) by lia.
      rewrite Z.pow_succ_r by lia. lia.
    + assert (Hpos : exists M1, Z.pos M + 1 = Z.pos M1)
        by (exists (M + 1)%positive; lia).
      destruct Hpos as [M1 HM1]. rewrite HM1.
      assert (Hd1 : Z.pos (digits2_pos M1) = 53).
      { apply digits2_pos_unique.
        change (2 ^ (53 - 1)) with 4503599627370496.
        change (2 ^ 53) with 9007199254740992. lia. }
      rewrite (shr_fexp_53 M1 e loc_Exact Hd1) by lia. simpl shr_m.
      replace (e <=? emax - prec) with true
        by (symmetry; apply Z.leb_le; unfold emax, prec; lia).
      exists M1, e. repeat split; auto; try lia.
Qed.

(** An integer from 1 to 2^53 - 1 is represented exactly, with a mantissa
    of 53 digits. *)
Lemma ofZ_exact (z : Z) :
  1 <= z < 2 ^ 53 ->
  exists M e,
    ofZ z = S754_finite false M e /\ Z.pos (digits2_pos M) = 53 /\
    -52 <= e <= 0 /\ Z.pos M = z * 2 ^ (- e).
Proof.
  intros Hz. destruct z as [|p|p]; try lia.
  unfold ofZ, binary_normalize, binary_round.
  pose proof (digits2_pos_bounds p) as Hp.
  set (D := Z.pos (digits2_pos p)) in *.
  assert (HD : 1 <= D <= 53).
  { split; [unfold D; lia|].
    destruct (Z_lt_le_dec 53 D) as [H|H]; [|exact H].
    assert (2 ^ 53 <= 2 ^ (D - 1)) by (apply Z.pow_le_mono_r; lia). lia. }
  unfold shl_align, fexp, SpecFloat.emin, prec, emax.
  replace (Z.max (D + 0 - 53) (3 - 1024 - 53) - 0) with (D - 53) by lia.
  replace (Z.max (D + 0 - 53) (3 - 1024 - 53)) with (D - 53) by lia.
  destruct (D - 53) as [|d|d] eqn:Ed; [|lia|].
  - assert (Hd : Z.pos (digits2_pos p) = 53) by (fold D; lia).
    destruct (binary_round_aux_53 p 0 loc_Exact Hd)
      as (M' & e' & Hr & _ & _ & Hsame & _); [lia|].
    destruct (Hsame eq_refl) as [-> ->].
    exists p, 0. split; [exact Hr|]. split; [exact Hd|]. simpl. lia.
  - assert (Hval : Z.pos (Pos.iter xO p d) = Z.pos p * 2 ^ (53 - D)).
    { rewrite iter_xO_value. f_equal. f_equal. lia. }
    assert (Hpow : 2 ^ 53 = 2 ^ D * 2 ^ (53 - D)).
    { rewrite <- Z.pow_add_r by lia. f_equal. lia. }
    assert (Hpow' : 2 ^ D = 2 * 2 ^ (D - 1)).
    { rewrite <- Z.pow_succ_r by lia. f_equal. lia. }
    assert (Hpos : 0 < 2 ^ (53 - D)) by (apply Z.pow_pos_nonneg; lia).
    assert (Hd : Z.pos (digits2_pos (Pos.iter xO p d)) = 53).
    { apply digits2_pos_unique. rewrite Hval.
      change (2 ^ (53 - 1)) with 4503599627370496.
      change (2 ^ 53) with 9007199254740992 in *. nia. }
    destruct (binary_round_aux_53 (Pos.iter xO p d) (Z.neg d) loc_Exact Hd)
      as (M' & e' & Hr & _ & _ & Hsame & _); [lia|].
    destruct (Hsame eq_refl) as [-> ->].
    exists (Pos.iter xO p d), (Z.neg d).
    split; [exact Hr|]. split; [exact Hd|]. split; [lia|].
    rewrite Hval. f_equal. f_equal. lia.
Qed.

(** Two positive numbers with mantissas of 53 digits compare as their
    values do. *)
Lemma SFcompare_53 (Mx My : positive) (ex ey : Z) :
  Z.pos (digits2_pos Mx) = 53 -> Z.pos (digits2_pos My) = 53 ->
  -1074 <= ex -> -1074 <= ey ->
  SFcompare (S754_finite false Mx ex) (S754_finite false My ey)
  = Some (Z.pos Mx * 2 ^ (ex + 1074) ?= Z.pos My * 2 ^ (ey + 1074)).
Proof.
  intros Hx Hy Hex Hey.
  pose proof (digits2_pos_bounds Mx) as HMx. rewrite Hx in HMx.
  pose proof (digits2_pos_bounds My) as HMy. rewrite Hy in HMy.
  change (2 ^ (53 - 1)) with 4503599627370496 in *.
  change (2 ^ 53) with 9007199254740992 in *.
  unfold SFcompare. f_equal.
  destruct (Z.compare_spec ex ey) as [E|E|E].
  - subst ey. change (Pos.compare_cont Eq Mx My) with (Z.pos Mx ?= Z.pos My).
    assert (Hpow : 0 < 2 ^ (ex + 1074)) by (apply Z.pow_pos_nonneg; lia).
    destruct (Z.compare_spec (Z.pos Mx) (Z.pos My)) as [C|C|C]; symmetry;
      [apply Z.compare_eq_iff | apply Z.compare_lt_iff
       | apply Z.compare_gt_iff]; nia.
  - symmetry. apply Z.compare_lt_iff.
    assert (Hpow : 0 < 2 ^ (ex + 1074)) by (apply Z.pow_pos_nonneg; lia).
    assert (2 ^ (ey + 1074) = 2 ^ (ey - ex - 1) * (2 * 2 ^ (ex + 1074))).
    { rewrite <- Z.pow_succ_r, <- Z.pow_add_r by lia. f_equal. lia. }
    assert (0 < 2 ^ (ey - ex - 1)) by (apply Z.pow_pos_nonneg; lia).
    nia.
  - symmetry. apply Z.compare_gt_iff.
    assert (Hpow : 0 < 2 ^ (ey + 1074)) by (apply Z.pow_pos_nonneg; lia).
    assert (2 ^ (ex + 1074) = 2 ^ (ex - ey - 1) * (2 * 2 ^ (ey + 1074))).
    { rewrite <- Z.pow_succ_r, <- Z.pow_add_r by lia. f_equal. lia. }
    assert (0 < 2 ^ (ex - ey - 1)) by (apply Z.pow_pos_nonneg; lia).
    nia.
Qed.

Lemma SFleb_53 (Mx My : positive) (ex ey : Z) :
  Z.pos (digits2_pos Mx) = 53 -> Z.pos (digits2_pos My) = 53 ->
  -1074 <= ex -> -1074 <= ey ->
  SFleb (S754_finite false Mx ex) (S754_finite false My ey)
  = (Z.pos Mx * 2 ^ (ex + 1074) <=? Z.pos My * 2 ^ (ey + 1074)).
Proof.
  intros Hx Hy Hex Hey. unfold SFleb.
  rewrite (SFcompare_53 Mx My ex ey Hx Hy Hex Hey). unfold Z.leb.
  now destruct (_ ?= _).
Qed.

Lemma SFltb_53 (Mx My : positive) (ex ey : Z) :
  Z.pos (digits2_pos Mx) = 53 -> Z.pos (digits2_pos My) = 53 ->
  -1074 <= ex -> -1074 <= ey ->
  SFltb (S754_finite false Mx ex) (S754_finite false My ey)
  = (Z.pos Mx * 2 ^ (ex + 1074) <? Z.pos My * 2 ^ (ey + 1074)).
Proof.
  intros Hx Hy Hex Hey. unfold SFltb.
  rewrite (SFcompare_53 Mx My ex ey Hx Hy Hex Hey). unfold Z.ltb.
  now destruct (_ ?= _).
Qed.

(** The square root of a number with a mantissa of 53 digits is the
    integer square root of the scaled mantissa, or the number above it. *)
Lemma sqrt_53 (M : positive) (e : Z) :
  Z.pos (digits2_pos M) = 53 -> -52 <= e <= 0 ->
  exists Q e2 e',
    sqrt (S754_finite false M e) = S754_finite false Q e2 /\
    Z.pos (digits2_pos Q) = 53 /\ -1074 <= e2 /\
    -53 <= e' <= -26 /\ 0 <= e - 2 * e' /\
    let q := Z.sqrt (Z.pos M * 2 ^ (e - 2 * e')) in
    q * 2 ^ (e' + 1074) <= Z.pos Q * 2 ^ (e2 + 1074)
      <= (q + 1) * 2 ^ (e' + 1074).
Proof.
  intros Hd He.
  pose proof (digits2_pos_bounds M) as HM. rewrite Hd in HM.
  change (2 ^ (53 - 1)) with 4503599627370496 in HM.
  change (2 ^ 53) with 9007199254740992 in HM.
  unfold sqrt, SFsqrt, SFsqrt_core_binary, Zdigits2.
  rewrite Hd. unfold fexp, SpecFloat.emin, prec, emax.
  rewrite !Z.div2_div.
  set (e' := Z.min (Z.max ((53 + e + 1) / 2 - 53) (3 - 1024 - 53)) (e / 2)).
  assert (He' : -53 <= e' <= -26)
    by (unfold e'; Z.div_mod_to_equations; lia).
  assert (Hs : e - 2 * e' = 52 \/ e - 2 * e' = 53)
    by (unfold e'; Z.div_mod_to_equations; lia).
  set (s := e - 2 * e') in *.
  assert (Hm' : match s with
                | 0 => Z.pos M
                | Z.pos _ => Z.shiftl (Z.pos M) s
                | Z.neg _ => 0
                end = Z.pos M * 2 ^ s).
  { destruct Hs as [-> | ->]; rewrite Z.shiftl_mul_pow2 by lia; reflexivity. }
  rewrite Hm'.
  set (m' := Z.pos M * 2 ^ s) in *.
  assert (Hrange : 2 ^ 104 <= m' < 2 ^ 106).
  { unfold m'. destruct Hs as [-> | ->].
    - change (2 ^ 52) with 4503599627370496.
      change (2 ^ 104) with (4503599627370496 * 4503599627370496).
      change (2 ^ 106) with (4 * 4503599627370496 * 4503599627370496). nia.
    - change (2 ^ 53) with 9007199254740992.
      change (2 ^ 104) with (4503599627370496 * 4503599627370496).
      change (2 ^ 106) with (9007199254740992 * 9007199254740992). nia. }
  pose proof (Z.sqrtrem_sqrt m') as Hq.
  destruct (Z.sqrtrem m') as [q r]. simpl in Hq. subst q.
  assert (Hqr : 2 ^ 52 <= Z.sqrt m' < 2 ^ 53).
  { split.
    - apply Z.sqrt_le_square; [lia | lia |].
      change (2 ^ 52 * 2 ^ 52) with (2 ^ 104). lia.
    - apply Z.sqrt_lt_square; [lia | lia |].
      change (2 ^ 53 * 2 ^ 53) with (2 ^ 106). lia. }
  destruct (Z.sqrt m') as [|Qp|Qp] eqn:EQ; [simpl in Hqr; lia | | lia].
  assert (HdQ : Z.pos (digits2_pos Qp) = 53).
  { apply digits2_pos_unique. change (53 - 1) with 52. exact Hqr. }
  match goal with
  | |- context [binary_round_aux _ _ _ _ _ ?l] =>
      destruct (binary_round_aux_53 Qp e' l HdQ)
        as (Q & e2 & Hr & HQ & He2 & _ & Hval); [lia|]
  end.
  exists Q, e2, e'. split; [exact Hr|]. split; [exact HQ|].
  split; [lia|]. split; [lia|]. split; [lia|].
  cbv zeta. change (Z.pos M * 2 ^ (e - 2 * e')) with m'.
  rewrite EQ. exact Hval.
Qed.

(** The IEEE square root of an integer below 2^53, compared with an
    integer, is off by less than one. *)
Lemma ieee_sqrt_accurate (i m : Z) :
  1 <= i < 2 ^ 53 -> 1 <= m < 2 ^ 53 ->
  (i * i <= m -> SFleb (ofZ i) (sqrt (ofZ m)) = true) /\
  (SFleb (ofZ i) (sqrt (ofZ m)) = true -> (i - 1) * (i - 1) <= m).
Proof.
  intros Hi Hm.
  destruct (ofZ_exact i Hi) as (Mi & ei & -> & HdMi & Hei & HMi).
  destruct (ofZ_exact m Hm) as (M & e & -> & HdM & He & HM).
  destruct (sqrt_53 M e HdM He)
    as (Q & e2 & e' & -> & HdQ & He2 & He' & Hs & Hval).
  cbv zeta in Hval.
  rewrite (SFleb_53 Mi Q ei e2 HdMi HdQ) by lia.
  set (t := 2 ^ (- e')).
  set (T := 2 ^ (e' + 1074)) in *.
  assert (Ht : 1 <= t).
  { unfold t. change 1 with (2 ^ 0). apply Z.pow_le_mono_r; lia. }
  assert (HT : 0 < T) by (apply Z.pow_pos_nonneg; lia).
  assert (HtT : t * T = 2 ^ 1074).
  { unfold t, T. rewrite <- Z.pow_add_r by lia. f_equal. lia. }
  assert (Hleft : Z.pos Mi * 2 ^ (ei + 1074) = i * t * T).
  { rewrite HMi, <- Z.mul_assoc, <- Z.pow_add_r by lia.
    replace (- ei + (ei + 1074)) with 1074 by lia.
    rewrite <- Z.mul_assoc, HtT. reflexivity. }
  assert (Hm' : Z.pos M * 2 ^ (e - 2 * e') = m * (t * t)).
  { rewrite HM, <- Z.mul_assoc, <- Z.pow_add_r by lia.
    unfold t. rewrite <- Z.pow_add_r by lia. f_equal. f_equal. lia. }
  rewrite Hm' in Hval. rewrite Hleft.
  set (q := Z.sqrt (m * (t * t))) in *.
  assert (Hq : q * q <= m * (t * t) < (q + 1) * (q + 1)).
  { pose proof (Z.sqrt_spec (m * (t * t)) ltac:(nia)) as H.
    fold q in H. unfold Z.succ in H. exact H. }
  assert (Hq0 : 0 <= q) by apply Z.sqrt_nonneg.
  split.
  - intros Hle. apply Z.leb_le.
    assert (Hit : i * t <= q).
    { apply Z.sqrt_le_square; [nia | nia |].
      replace (i * t * (i * t)) with (i * i * (t * t)) by ring.
      apply Z.mul_le_mono_nonneg_r; nia. }
    apply Z.le_trans with (q * T); [|lia].
    apply Z.mul_le_mono_nonneg_r; lia.
  - intros Hle. apply Z.leb_le in Hle.
    assert (Hit : i * t <= q + 1).
    { apply Z.mul_le_mono_pos_r with T; [exact HT | lia]. }
    assert (H1 : (i - 1) * t <= q) by nia.
    assert (H2 : (i - 1) * t * ((i - 1) * t) <= q * q).
    { apply Z.mul_le_mono_nonneg; nia. }
    assert (H3 : (i - 1) * (i - 1) * (t * t) <= m * (t * t)).
    { replace ((i - 1) * (i - 1) * (t * t))
        with ((i - 1) * t * ((i - 1) * t)) by ring. lia. }
    apply Z.mul_le_mono_pos_r with (t * t); [nia | exact H3].
Qed.

Lemma ofZ_scaled (z : Z) (M : positive) (e : Z) :
  -52 <= e <= 0 -> Z.pos M = z * 2 ^ (- e) ->
  Z.pos M * 2 ^ (e + 1074) = z * 2 ^ 1074.
Proof.
  intros He ->. rewrite <- Z.mul_assoc, <- Z.pow_add_r by lia.
  f_equal. f_equal. lia.
Qed.

(** On integers from 1 to 2^53 - 1 the comparisons of numbers are those of
    integers. *)
Lemma ofZ_lt (a b : Z) :
  1 <= a < 2 ^ 53 -> 1 <= b < 2 ^ 53 -> lt (ofZ a) (ofZ b) = (a <? b).
Proof.
  intros Ha Hb.
  destruct (ofZ_exact a Ha) as (Ma & ea & -> & Hda & Hea & HMa).
  destruct (ofZ_exact b Hb) as (Mb & eb & -> & Hdb & Heb & HMb).
  unfold lt. rewrite SFltb_53 by (assumption || lia).
  rewrite (ofZ_scaled a Ma ea), (ofZ_scaled b Mb eb) by assumption.
  assert (0 < 2 ^ 1074) by (apply Z.pow_pos_nonneg; lia).
  destruct (Z.ltb_spec a b); [apply Z.ltb_lt | apply Z.ltb_ge]; nia.
Qed.

Lemma ofZ_isInteger (z : Z) : 1 <= z < 2 ^ 53 -> isInteger (ofZ z) = true.
Proof.
  intros Hz. destruct (ofZ_exact z Hz) as (M & e & -> & _ & He & HM).
  unfold isInteger. destruct (Z.leb_spec 0 e); [reflexivity|].
  apply Z.eqb_eq. rewrite HM. apply Z.mod_mul.
  apply Z.pow_nonzero; lia.
Qed.

Lemma toZ_ofZ (z : Z) : 1 <= z < 2 ^ 53 -> toZ (ofZ z) = z.
Proof.
  intros Hz. destruct (ofZ_exact z Hz) as (M & e & -> & _ & He & HM).
  unfold toZ, cond_Zopp. rewrite HM. destruct (Z.leb_spec 0 e).
  - replace e with 0 by lia. simpl. lia.
  - apply Z.div_mul. apply Z.pow_nonzero; lia.
Qed.

Lemma ieee_sqrtAccurate (P : platform) (bound : Z) :
  host_sqrt P = sqrt -> bound < 2 ^ 53 -> sqrtAccurate P bound.
Proof.
  intros HP Hb i m Hi Hm. rewrite HP.
  assert (Z.sqrt bound < 2 ^ 27).
  { apply Z.sqrt_lt_square; [lia | lia |].
    change (2 ^ 27 * 2 ^ 27) with (2 ^ 54). change (2 ^ 53) with 9007199254740992 in Hb.
    change (2 ^ 54) with 18014398509481984. lia. }
  apply ieee_sqrt_accurate; [|lia].
  change (2 ^ 27) with 134217728 in *.
  change (2 ^ 53) with 9007199254740992. lia.
Qed.

(** The factoriser uses nothing of the platform but its square root. *)
Lemma trialDivide_ext (P P' : platform) (fuel : nat) (i num : Z)
  (factors : list Z) :
  host_sqrt P = host_sqrt P' ->
  trialDivide P fuel i num factors = trialDivide P' fuel i num factors.
Proof.
  intros HP. revert i num factors.
  induction fuel as [|fuel IH]; intros i num factors; [reflexivity|].
  simpl. rewrite HP. destruct (SFleb _ _); [|reflexivity].
  destruct (divideOut fuel i num factors) as [[num' factors']|];
    [apply IH | reflexivity].
Qed.

Lemma primeFactorize_ext (P P' : platform) (n : num) :
  host_sqrt P = host_sqrt P' -> primeFactorize P n = primeFactorize P' n.
Proof.
  intros HP. unfold primeFactorize, primeFactorize_fuel.
  destruct (_ || _)%bool; [reflexivity|].
  destruct (gt n MAX_SAFE_INTEGER); [reflexivity|].
  destruct (divideOut _ 2 (toZ n) []) as [[num factors]|]; [|reflexivity].
  now rewrite (trialDivide_ext P P' _ 3 num factors HP).
Qed.

(** C7. With the IEEE square root for [Math.sqrt], [primeFactorize]
    returns, for every integer from 2 to 2^53 - 1, primes in ascending
    order whose product is that integer: [2,2,2,3,3,5] for 360 and [97]
    for 97. It throws for a number that is no integer or is below 2, and
    for one above [Number.MAX_SAFE_INTEGER]. *)
Theorem primeFactorize_correct (P : platform) :
  host_sqrt P = sqrt ->
  (forall n : Z, 2 <= n <= 2 ^ 53 - 1 ->
     exists factors,
       primeFactorize P (ofZ n) = Ok factors /\
       Forall Z.prime factors /\ Sorted Z.le factors /\
       product factors = n) /\
  primeFactorize P (ofZ 360) = Ok [2; 2; 2; 3; 3; 5] /\
  primeFactorize P (ofZ 97) = Ok [97] /\
  (forall x : num,
     isInteger x = false \/ lt x (ofZ 2) = true ->
     primeFactorize P x = Throws notAnInteger) /\
  (forall x : num,
     isInteger x = true -> lt x (ofZ 2) = false ->
     gt x MAX_SAFE_INTEGER = true ->
     primeFactorize P x = Throws tooLarge).
Proof.
  intros HP.
  assert (Hrun : forall n : Z, 2 <= n <= 2 ^ 53 - 1 ->
     exists factors,
       primeFactorize P (ofZ n) = Ok factors /\
       Forall Z.prime factors /\ Sorted Z.le factors /\
       product factors = n).
  { intros n Hn.
    assert (Hn' : 1 <= n < 2 ^ 53) by lia.
    destruct (primeFactorize_runs P (ofZ n)) as (factors & H1 & H2 & H3 & H4).
    - now apply ofZ_isInteger.
    - rewrite ofZ_lt by (try assumption; now vm_compute). apply Z.ltb_ge. lia.
    - unfold gt, MAX_SAFE_INTEGER.
      change (SFltb (ofZ (2 ^ 53 - 1)) (ofZ n))
        with (lt (ofZ (2 ^ 53 - 1)) (ofZ n)).
      rewrite ofZ_lt by (try assumption; now vm_compute). apply Z.ltb_ge. lia.
    - rewrite toZ_ofZ by assumption. lia.
    - apply ieee_sqrtAccurate; [exact HP|]. rewrite toZ_ofZ by assumption. lia.
    - exists factors. rewrite toZ_ofZ in H4 by assumption. auto. }
  split; [exact Hrun|].
  split; [rewrite (primeFactorize_ext P samplePlatform _ HP); now vm_compute|].
  split; [rewrite (primeFactorize_ext P samplePlatform _ HP); now vm_compute|].
  split.
  - intros x [H|H]; unfold primeFactorize, primeFactorize_fuel; rewrite H;
      [reflexivity | now rewrite orb_true_r].
  - intros x H1 H2 H3. unfold primeFactorize, primeFactorize_fuel.
    now rewrite H1, H2, H3.
Qed.

Lemma primeFactorize_correct_witness :
  (exists factors,
     primeFactorize samplePlatform (ofZ 1001) = Ok factors /\
     Forall Z.prime factors /\ Sorted Z.le factors /\
     product factors = 1001) /\
  primeFactorize samplePlatform (div (ofZ 5) (ofZ 2)) = Throws notAnInteger /\
  primeFactorize samplePlatform (ofZ 1) = Throws notAnInteger /\
  primeFactorize samplePlatform (ofZ (2 ^ 53)) = Throws tooLarge.
Proof.
  destruct (primeFactorize_correct samplePlatform eq_refl)
    as (Hrun & _ & _ & Hlow & Hhigh).
  split; [apply Hrun; vm_compute; split; discriminate|].
  split; [apply Hlow; left; reflexivity|].
  split; [apply Hlow; right; reflexivity|].
  apply Hhigh; reflexivity.
Defined.

(** * Further properties *)

(** ** Numbers *)

Lemma add_commutes (x y : num) : add x y = add y x.
Proof.
  destruct x as [sx|sx| |sx mx ex], y as [sy|sy| |sy my ey];
    try reflexivity; unfold add, SFadd.
  - destruct sx, sy; reflexivity.
  - destruct sx, sy; reflexivity.
  - rewrite (Z.min_comm ey ex), Z.add_comm. reflexivity.
Qed.

Lemma mul_commutes (x y : num) : mul x y = mul y x.
Proof.
  destruct x as [sx|sx| |sx mx ex], y as [sy|sy| |sy my ey];
    try reflexivity; unfold mul, SFmul;
    try (destruct sx, sy; reflexivity).
  rewrite (xorb_comm sy sx), (Pos.mul_comm my mx), (Z.add_comm ey ex).
  reflexivity.
Qed.

Lemma sub_itself (x : num) : isFinite x = true -> sub x x = zero.
Proof.
  destruct x as [s|s| |s m e]; try discriminate; intros _.
  - destruct s; reflexivity.
  - unfold sub, SFsub. rewrite Z.min_id, Z.sub_diag. reflexivity.
Qed.

Lemma ofZ_1 : ofZ 1 = S754_finite false 4503599627370496 (-52).
Proof. reflexivity. Qed.

Lemma mul_pow52 (m : positive) :
  (4503599627370496 * m)%positive = Pos.iter xO m 52.
Proof. reflexivity. Qed.

(** Multiplying a number that a double can hold by one gives the number. *)
Lemma mul_one_r (x : num) :
  valid_binary prec emax x = true -> isFinite x = true -> mul x (ofZ 1) = x.
Proof.
  destruct x as [s|s| |s m e]; try discriminate; intros V _.
  - now destruct s.
  - rewrite ofZ_1. unfold mul, SFmul. rewrite xorb_false_r.
    cbn [valid_binary] in V. unfold bounded, canonical_mantissa in V.
    apply andb_prop in V as [Hc Hb]. apply Z.eqb_eq in Hc.
    rewrite (Pos.mul_comm m), mul_pow52. cbv [Pos.iter].
    unfold binary_round_aux, shr_fexp at 1. cbn [Zdigits2 digits2_pos].
    set (D := digits2_pos m) in *.
    match goal with
    | |- context [fexp prec emax (Z.pos ?d + (e + -52))] =>
        replace (fexp prec emax (Z.pos d + (e + -52)) - (e + -52)) with 52
    end.
    2:{ unfold fexp, SpecFloat.emin, prec, emax in *. lia. }
    cbn [shr shr_record_of_loc].
    cbv [iter_pos shr_1 orb]. cbn [shr_m loc_of_shr_record round_nearest_even].
    unfold shr_fexp. cbn [Zdigits2]. fold D.
    replace (fexp prec emax (Z.pos D + (e + -52 + 52)) - (e + -52 + 52)) with 0.
    2:{ replace (e + -52 + 52) with e by lia. lia. }
    cbn [shr shr_record_of_loc shr_m].
    replace (e + -52 + 52) with e by lia. now rewrite Hb.
Qed.

Lemma mul_zero_r (x : num) :
  isFinite x = true -> exists s, mul x (ofZ 0) = S754_zero s.
Proof.
  destruct x as [s|s| |s m e]; try discriminate; intros _; eexists; reflexivity.
Qed.

Lemma add_zero_r (x : num) (s : bool) :
  x <> S754_zero true -> add x (S754_zero s) = x.
Proof. destruct x as [[|]|[|]| |sx m e], s; try reflexivity; congruence. Qed.

Lemma add_zero_l (x : num) :
  x <> S754_zero true -> add (S754_zero false) x = x.
Proof. destruct x as [[|]|[|]| |sx m e]; try reflexivity; congruence. Qed.

(** ** Matrices, cell by cell *)

#[local] Open Scope nat_scope.

Lemma cell_lookup (m : list (list num)) (i j : nat) (row : list num) (x : num) :
  m !! i = Some row -> row !! j = Some x -> cell m i j = x.
Proof.
  intros Hi Hj. unfold cell, at_.
  rewrite (nth_lookup m i []), Hi. cbn.
  rewrite (nth_lookup row j nan), Hj. reflexivity.
Qed.

Lemma rectangular_lookup (c : nat) (m : list (list num)) (i : nat)
  (row : list num) :
  rectangular c m -> m !! i = Some row -> List.length row = c.
Proof.
  intros H Hi. unfold rectangular in H. rewrite Forall_forall in H.
  apply H. apply list_elem_of_In. eapply list_elem_of_lookup_2; eauto.
Qed.

(** Two matrices of the same shape with the same cells are equal. *)
Lemma matrix_ext (r c : nat) (p q : list (list num)) :
  List.length p = r -> List.length q = r ->
  rectangular c p -> rectangular c q ->
  (forall i j, i < r -> j < c -> cell p i j = cell q i j) ->
  p = q.
Proof.
  intros Hp Hq Rp Rq H. apply list_eq. intros i.
  destruct (p !! i) as [rp|] eqn:Ep, (q !! i) as [rq|] eqn:Eq.
  - f_equal. apply list_eq. intros j.
    pose proof (rectangular_lookup _ _ _ _ Rp Ep) as Lp.
    pose proof (rectangular_lookup _ _ _ _ Rq Eq) as Lq.
    pose proof (lookup_lt_Some _ _ _ Ep) as Hi.
    destruct (rp !! j) as [x|] eqn:Ex, (rq !! j) as [y|] eqn:Ey.
    + f_equal. rewrite <- (cell_lookup _ _ _ _ _ Ep Ex).
      rewrite <- (cell_lookup _ _ _ _ _ Eq Ey).
      apply H; [lia|].
      apply lookup_lt_Some in Ex. lia.
    + apply lookup_lt_Some in Ex. apply lookup_ge_None in Ey.
      lia.
    + apply lookup_lt_Some in Ey. apply lookup_ge_None in Ex.
      lia.
    + reflexivity.
  - apply lookup_lt_Some in Ep. apply lookup_ge_None in Eq.
    lia.
  - apply lookup_lt_Some in Eq. apply lookup_ge_None in Ep.
    lia.
  - reflexivity.
Qed.

Lemma nth_map_seq {A : Type} (f : nat -> A) (n i : nat) (d : A) :
  i < n -> nth i (List.map f (seq 0 n)) d = f i.
Proof.
  intros H. rewrite (nth_indep _ d (f 0)) by (rewrite length_map, length_seq; lia).
  rewrite (map_nth f (seq 0 n) 0 i), seq_nth by lia. reflexivity.
Qed.

Lemma rectangular_map_seq {A : Type} (f : A -> nat -> num) (c : nat)
  (l : list A) :
  rectangular c (List.map (fun a => List.map (f a) (seq 0 c)) l).
Proof.
  unfold rectangular. rewrite Forall_map. apply Forall_forall. intros a _.
  now rewrite length_map, length_seq.
Qed.

(** The shape and the cells of a transpose. *)
Lemma transpose_shape (r c : nat) (m : list (list num)) :
  r <> 0 -> c <> 0 -> List.length m = r -> rectangular c m ->
  List.length (transpose m) = c /\ rectangular r (transpose m) /\
  forall i j, i < r -> j < c -> cell (transpose m) j i = cell m i j.
Proof.
  intros Hr Hc Hm R.
  assert (Hne : m <> []) by (intros ->; cbn in Hm; lia).
  rewrite (transpose_rows m c Hne Hc R). repeat split.
  - now rewrite length_map, length_seq.
  - unfold rectangular. rewrite Forall_map. apply Forall_forall. intros j _.
    now rewrite length_map.
  - intros i j Hi Hj. unfold cell at 1.
    rewrite (nth_map_seq _ c j [] Hj). unfold at_ at 1.
    rewrite (nth_indep _ nan (at_ [] j)) by (rewrite length_map; lia).
    rewrite (map_nth (fun row => at_ row j) m [] i). reflexivity.
Qed.

Lemma imap_rows_shape (g : nat -> nat -> num -> num) (c : nat)
  (a : list (list num)) :
  rectangular c a ->
  rectangular c (imap (fun i row => imap (g i) row) a) /\
  forall i j, i < List.length a -> j < c ->
    cell (imap (fun i row => imap (g i) row) a) i j = g i j (cell a i j).
Proof.
  intros R. split.
  - unfold rectangular. apply Forall_forall. intros row Hin.
    apply list_elem_of_In, list_elem_of_lookup in Hin. destruct Hin as [i Hi].
    rewrite list_lookup_imap in Hi.
    destruct (a !! i) as [ra|] eqn:Ea; [|discriminate].
    cbn in Hi. injection Hi as <-. rewrite length_imap.
    eapply rectangular_lookup; eauto.
  - intros i j Hi Hj.
    destruct (lookup_lt_is_Some_2 a i Hi) as [ra Ea].
    pose proof (rectangular_lookup _ _ _ _ R Ea) as La.
    destruct (lookup_lt_is_Some_2 ra j) as [x Ex]; [lia|].
    rewrite (cell_lookup a i j ra x Ea Ex).
    apply (cell_lookup _ i j (imap (g i) ra) (g i j x)).
    + rewrite list_lookup_imap, Ea. reflexivity.
    + rewrite list_lookup_imap, Ex. reflexivity.
Qed.

Lemma fold_left_ext_in {A B : Type} (f g : A -> B -> A) (l : list B) (a : A) :
  (forall acc x, In x l -> f acc x = g acc x) ->
  fold_left f l a = fold_left g l a.
Proof.
  revert a. induction l as [|x l IH]; intros a H; [reflexivity|].
  cbn. rewrite (H a x) by now left. apply IH. intros acc y Hy. apply H. now right.
Qed.

(** ** Sums and differences *)

(** On two matrices of the same shape the sum is taken cell by cell. *)
Lemma matrixAdd_cells (r c : nat) (a b : list (list num)) :
  r <> 0 -> List.length a = r -> List.length b = r ->
  rectangular c a -> rectangular c b ->
  exists s, matrixAdd a b = Value s /\ List.length s = r /\ rectangular c s /\
    forall i j, i < r -> j < c -> cell s i j = add (cell a i j) (cell b i j).
Proof.
  intros Hr Ha Hb Ra Rb. unfold matrixAdd.
  rewrite Ha, Hb, Nat.eqb_refl. cbn [negb].
  destruct a as [|a0 a']; [cbn in Ha; lia|].
  destruct b as [|b0 b']; [cbn in Hb; lia|].
  assert (La : List.length a0 = c) by (inversion Ra; assumption).
  assert (Lb : List.length b0 = c) by (inversion Rb; assumption).
  rewrite La, Lb, Nat.eqb_refl. cbn [negb].
  eexists. split; [reflexivity|].
  destruct (imap_rows_shape (fun i j val => add val (cell (b0 :: b') i j)) c
              (a0 :: a') Ra) as [S C].
  split; [now rewrite length_imap|]. split; [exact S|].
  intros i j Hi Hj. apply C; [lia | exact Hj].
Qed.

Lemma matrixSubtract_cells (r c : nat) (a b : list (list num)) :
  r <> 0 -> List.length a = r -> List.length b = r ->
  rectangular c a -> rectangular c b ->
  exists s, matrixSubtract a b = Value s /\ List.length s = r /\
    rectangular c s /\
    forall i j, i < r -> j < c -> cell s i j = sub (cell a i j) (cell b i j).
Proof.
  intros Hr Ha Hb Ra Rb. unfold matrixSubtract.
  rewrite Ha, Hb, Nat.eqb_refl. cbn [negb].
  destruct a as [|a0 a']; [cbn in Ha; lia|].
  destruct b as [|b0 b']; [cbn in Hb; lia|].
  assert (La : List.length a0 = c) by (inversion Ra; assumption).
  assert (Lb : List.length b0 = c) by (inversion Rb; assumption).
  rewrite La, Lb, Nat.eqb_refl. cbn [negb].
  eexists. split; [reflexivity|].
  destruct (imap_rows_shape (fun i j val => sub val (cell (b0 :: b') i j)) c
              (a0 :: a') Ra) as [S C].
  split; [now rewrite length_imap|]. split; [exact S|].
  intros i j Hi Hj. apply C; [lia | exact Hj].
Qed.

(** X1. [matrixAdd] and [matrixSubtract] throw their Wrong Order error
    when the two matrices differ in the number of rows or, with as many
    rows, in the length of the first row. On two empty matrices they
    throw a TypeError, [a[0]] being undefined. On two matrices of [r]
    rows of [c] entries, [r] not zero, they return a matrix of that
    shape whose cells are the sums, or the differences, of the cells. *)
Theorem matrixAdd_dimensions (a b : matrix) :
  (List.length a <> List.length b ->
   matrixAdd a b = Raise (ErrorOf wrongOrderAddition) /\
   matrixSubtract a b = Raise (ErrorOf wrongOrderSubtraction)) /\
  (a <> [] -> List.length a = List.length b -> cols a <> cols b ->
   matrixAdd a b = Raise (ErrorOf wrongOrderAddition) /\
   matrixSubtract a b = Raise (ErrorOf wrongOrderSubtraction)) /\
  (a = [] -> b = [] ->
   matrixAdd a b = Raise TypeError /\ matrixSubtract a b = Raise TypeError) /\
  (forall r c, r <> 0 -> List.length a = r -> List.length b = r ->
     rectangular c a -> rectangular c b ->
     exists s d,
       matrixAdd a b = Value s /\ matrixSubtract a b = Value d /\
       List.length s = r /\ rectangular c s /\
       List.length d = r /\ rectangular c d /\
       forall i j, i < r -> j < c ->
         cell s i j = add (cell a i j) (cell b i j) /\
         cell d i j = sub (cell a i j) (cell b i j)).
Proof.
  split; [|split; [|split]].
  - intros H. apply Nat.eqb_neq in H. unfold matrixAdd, matrixSubtract.
    now rewrite H.
  - intros Ha Hl Hc. unfold matrixAdd, matrixSubtract.
    rewrite Hl, Nat.eqb_refl. cbn [negb].
    destruct a as [|a0 a']; [congruence|].
    destruct b as [|b0 b']; [discriminate|].
    unfold cols in Hc. cbn [nth] in Hc. apply Nat.eqb_neq in Hc.
    now rewrite Hc.
  - intros -> ->. now split.
  - intros r c Hr La Lb Ra Rb.
    destruct (matrixAdd_cells r c a b Hr La Lb Ra Rb) as (s & Hs & Ls & Rs & Cs).
    destruct (matrixSubtract_cells r c a b Hr La Lb Ra Rb)
      as (d & Hd & Ld & Rd & Cd).
    exists s, d. repeat split; try assumption; [now apply Cs | now apply Cd].
Qed.

Lemma matrixAdd_dimensions_witness :
  (matrixAdd [[ofZ 1]] [[ofZ 1]; [ofZ 2]] = Raise (ErrorOf wrongOrderAddition) /\
   matrixSubtract [[ofZ 1]] [[ofZ 1]; [ofZ 2]]
   = Raise (ErrorOf wrongOrderSubtraction)) /\
  (matrixAdd [[ofZ 1]] [[ofZ 1; ofZ 2]] = Raise (ErrorOf wrongOrderAddition) /\
   matrixSubtract [[ofZ 1]] [[ofZ 1; ofZ 2]]
   = Raise (ErrorOf wrongOrderSubtraction)) /\
  (matrixAdd [] [] = Raise TypeError /\ matrixSubtract [] [] = Raise TypeError) /\
  exists s d,
    matrixAdd [[ofZ 1; ofZ 2]] [[ofZ 3; ofZ 4]] = Value s /\
    matrixSubtract [[ofZ 1; ofZ 2]] [[ofZ 3; ofZ 4]] = Value d /\
    List.length s = 1 /\ rectangular 2 s /\
    List.length d = 1 /\ rectangular 2 d /\
    forall i j, i < 1 -> j < 2 ->
      cell s i j = add (cell [[ofZ 1; ofZ 2]] i j) (cell [[ofZ 3; ofZ 4]] i j) /\
      cell d i j = sub (cell [[ofZ 1; ofZ 2]] i j) (cell [[ofZ 3; ofZ 4]] i j).
Proof.
  split; [|split; [|split]].
  - apply (proj1 (matrixAdd_dimensions [[ofZ 1]] [[ofZ 1]; [ofZ 2]])).
    discriminate.
  - apply (proj1 (proj2 (matrixAdd_dimensions [[ofZ 1]] [[ofZ 1; ofZ 2]])));
      [discriminate | reflexivity | discriminate].
  - apply (proj1 (proj2 (proj2 (matrixAdd_dimensions [] [])))); reflexivity.
  - apply (proj2 (proj2 (proj2
             (matrixAdd_dimensions [[ofZ 1; ofZ 2]] [[ofZ 3; ofZ 4]]))) 1 2);
      try reflexivity; [lia | repeat constructor | repeat constructor].
Defined.

(** X2. On matrices whose rows all have the length of the first row,
    [matrixAdd(a, b)] and [matrixAdd(b, a)] are the same, be it a matrix,
    equal bit for bit, or an error. *)
Theorem matrixAdd_commutative (a b : matrix) :
  rectangular (cols a) a -> rectangular (cols b) b ->
  matrixAdd a b = matrixAdd b a.
Proof.
  intros Ra Rb.
  destruct (Nat.eq_dec (List.length a) (List.length b)) as [E|E].
  - destruct a as [|a0 a'], b as [|b0 b']; try discriminate; [reflexivity|].
    destruct (Nat.eq_dec (List.length a0) (List.length b0)) as [C|C].
    + unfold cols in Ra, Rb. cbn [nth] in Ra, Rb. rewrite <- C in Rb.
      assert (Hr : List.length (a0 :: a') <> 0) by discriminate.
      destruct (matrixAdd_cells _ _ (a0 :: a') (b0 :: b') Hr eq_refl
                  (eq_sym E) Ra Rb) as (s & Hs & Ls & Rs & Cs).
      destruct (matrixAdd_cells _ _ (b0 :: b') (a0 :: a') Hr (eq_sym E)
                  eq_refl Rb Ra) as (t & Ht & Lt & Rt & Ct).
      rewrite Hs, Ht. f_equal.
      apply (matrix_ext (List.length (a0 :: a')) (List.length a0)); try easy.
      intros i j Hi Hj. rewrite Cs, Ct by assumption. apply add_commutes.
    + unfold matrixAdd. rewrite <- E, Nat.eqb_refl. cbn [negb].
      rewrite (Nat.eqb_sym (List.length b0)).
      apply Nat.eqb_neq in C. now rewrite C.
  - unfold matrixAdd. rewrite (Nat.eqb_sym (List.length b)).
    apply Nat.eqb_neq in E. now rewrite E.
Qed.

Lemma matrixAdd_commutative_witness :
  matrixAdd [[ofZ 1; ofZ 2]; [ofZ 3; ofZ 4]] [[ofZ 5; ofZ 6]; [ofZ 7; ofZ 8]]
  = matrixAdd [[ofZ 5; ofZ 6]; [ofZ 7; ofZ 8]] [[ofZ 1; ofZ 2]; [ofZ 3; ofZ 4]].
Proof.
  apply matrixAdd_commutative; repeat constructor.
Defined.

(** X3. On two matrices of the same shape, no dimension zero, the sum of
    the transposes is the transpose of the sum. *)
Theorem matrixAdd_transpose (r c : nat) (a b : matrix) :
  r <> 0 -> c <> 0 ->
  List.length a = r -> List.length b = r ->
  rectangular c a -> rectangular c b ->
  exists s, matrixAdd a b = Value s /\
            matrixAdd (transpose a) (transpose b) = Value (transpose s).
Proof.
  intros Hr Hc Ha Hb Ra Rb.
  destruct (matrixAdd_cells r c a b) as (s & Hs & Ls & Rs & Cs); try assumption.
  destruct (transpose_shape r c a) as (LTa & RTa & CTa); try assumption.
  destruct (transpose_shape r c b) as (LTb & RTb & CTb); try assumption.
  destruct (transpose_shape r c s) as (LTs & RTs & CTs); try assumption.
  destruct (matrixAdd_cells c r (transpose a) (transpose b))
    as (t & Ht & Lt & Rt & Ct); try assumption.
  exists s. split; [exact Hs|]. rewrite Ht. f_equal.
  apply (matrix_ext c r); try assumption.
  intros j i Hj Hi. rewrite Ct, CTa, CTb, CTs, Cs by assumption. reflexivity.
Qed.

Lemma matrixAdd_transpose_witness :
  exists s,
    matrixAdd [[ofZ 1; ofZ 2; ofZ 3]] [[ofZ 4; ofZ 5; ofZ 6]] = Value s /\
    matrixAdd (transpose [[ofZ 1; ofZ 2; ofZ 3]])
      (transpose [[ofZ 4; ofZ 5; ofZ 6]]) = Value (transpose s).
Proof.
  apply (matrixAdd_transpose 1 3); try reflexivity; try lia;
    repeat constructor.
Defined.

(** X4. A matrix of finite numbers, not empty, less itself is the matrix
    of the same shape filled with [+0]. *)
Theorem matrixSubtract_self (a : matrix) :
  a <> [] -> Forall (Forall (fun x => isFinite x = true)) a ->
  matrixSubtract a a = Value (List.map (List.map (fun _ => zero)) a).
Proof.
  intros Hne F. unfold matrixSubtract. rewrite Nat.eqb_refl. cbn [negb].
  destruct a as [|a0 a'] eqn:Ea; [congruence|].
  rewrite Nat.eqb_refl. cbn [negb]. rewrite <- Ea in *. clear Ea Hne a0 a'.
  f_equal. apply list_eq. intros i.
  rewrite list_lookup_imap.
  change (List.map (List.map (fun _ : num => zero)) a)
    with (fmap (M := list) (List.map (fun _ : num => zero)) a).
  rewrite list_lookup_fmap.
  destruct (a !! i) as [row|] eqn:Ei; [|reflexivity]. cbn. f_equal.
  apply list_eq. intros j. rewrite list_lookup_imap.
  change (List.map (fun _ : num => zero) row)
    with (fmap (M := list) (fun _ : num => zero) row).
  rewrite list_lookup_fmap.
  destruct (row !! j) as [x|] eqn:Ej; [|reflexivity]. cbn. f_equal.
  rewrite (cell_lookup a i j row x Ei Ej). apply sub_itself.
  rewrite Forall_forall in F.
  assert (Hrow : In row a)
    by (apply list_elem_of_In; eapply list_elem_of_lookup_2; eauto).
  specialize (F row Hrow). rewrite Forall_forall in F. apply F.
  apply list_elem_of_In. eapply list_elem_of_lookup_2; eauto.
Qed.

Lemma matrixSubtract_self_witness :
  matrixSubtract [[ofZ 1; ofZ 2]; [ofZ 3; ofZ 4]]
    [[ofZ 1; ofZ 2]; [ofZ 3; ofZ 4]]
  = Value [[zero; zero]; [zero; zero]].
Proof.
  apply (matrixSubtract_self [[ofZ 1; ofZ 2]; [ofZ 3; ofZ 4]]);
    [discriminate | repeat constructor].
Defined.

(** ** Products *)

(** On conformable matrices the product has the rows of the left and the
    columns of the right factor, and its cells are the inner loop's sums. *)
Lemma matrixMultiply_cells (r n c : nat) (a b : list (list num)) :
  r <> 0 -> n <> 0 -> List.length a = r -> rectangular n a ->
  List.length b = n -> rectangular c b ->
  exists p, matrixMultiply a b = Value p /\ List.length p = r /\
    rectangular c p /\
    forall i j, i < r -> j < c -> cell p i j = dot a b i j.
Proof.
  intros Hr Hn Ha Ra Hb Rb. unfold matrixMultiply.
  destruct a as [|a0 a']; [cbn in Ha; lia|].
  destruct b as [|b0 b']; [cbn in Hb; lia|].
  assert (La : List.length a0 = n) by (inversion Ra; assumption).
  assert (Lb : List.length b0 = c) by (inversion Rb; assumption).
  rewrite La, Hb, Nat.eqb_refl. cbn [negb]. rewrite Ha, Lb.
  eexists. split; [reflexivity|].
  split; [now rewrite length_map, length_seq|].
  split; [apply rectangular_map_seq|].
  intros i j Hi Hj. unfold cell at 1.
  rewrite (nth_map_seq _ r i [] Hi). unfold at_.
  now rewrite (nth_map_seq _ c j nan Hj).
Qed.

(** X5. [matrixMultiply(a, b)] throws a TypeError when [a] is empty, its
    Wrong Order error when the first row of [a] has not as many entries
    as [b] has rows, and a TypeError when that row and [b] are both empty.
    For [a] of [r] rows of [n] entries and [b] of [n] rows of [c] entries,
    [r] and [n] not zero, it returns [r] rows of [c] entries; the cell
    [(i, j)] is the sum, from [+0] and in the order of [k], of
    [a[i][k] * b[k][j]]. *)
Theorem matrixMultiply_dimensions (a b : matrix) :
  (a = [] -> matrixMultiply a b = Raise TypeError) /\
  (a <> [] -> cols a <> List.length b ->
   matrixMultiply a b = Raise (ErrorOf wrongOrderMultiply)) /\
  (a <> [] -> cols a = 0 -> b = [] -> matrixMultiply a b = Raise TypeError) /\
  (forall r n c, r <> 0 -> n <> 0 -> List.length a = r -> rectangular n a ->
     List.length b = n -> rectangular c b ->
     exists p,
       matrixMultiply a b = Value p /\ List.length p = r /\ rectangular c p /\
       forall i j, i < r -> j < c ->
         cell p i j
         = fold_left (fun sum k => add sum (mul (cell a i k) (cell b k j)))
             (seq 0 n) zero).
Proof.
  split; [|split; [|split]].
  - now intros ->.
  - intros Ha Hc. destruct a as [|a0 a']; [congruence|].
    unfold cols in Hc. cbn [nth] in Hc. apply Nat.eqb_neq in Hc.
    unfold matrixMultiply. now rewrite Hc.
  - intros Ha Hc ->. destruct a as [|a0 a']; [congruence|].
    unfold cols in Hc. cbn [nth] in Hc. unfold matrixMultiply.
    now rewrite Hc.
  - intros r n c Hr Hn La Ra Lb Rb.
    destruct (matrixMultiply_cells r n c a b Hr Hn La Ra Lb Rb)
      as (p & Hp & Lp & Rp & Cp).
    exists p. repeat split; try assumption.
    intros i j Hi Hj. rewrite (Cp i j Hi Hj). unfold dot. now rewrite Lb.
Qed.

Lemma matrixMultiply_dimensions_witness :
  matrixMultiply [] [[ofZ 1]] = Raise TypeError /\
  matrixMultiply [[ofZ 1; ofZ 2]] [[ofZ 1]]
  = Raise (ErrorOf wrongOrderMultiply) /\
  matrixMultiply [[]] [] = Raise TypeError /\
  exists p,
    matrixMultiply [[ofZ 1; ofZ 2]] [[ofZ 3]; [ofZ 4]] = Value p /\
    List.length p = 1 /\ rectangular 1 p /\
    forall i j, i < 1 -> j < 1 ->
      cell p i j
      = fold_left
          (fun sum k =>
             add sum (mul (cell [[ofZ 1; ofZ 2]] i k)
                        (cell [[ofZ 3]; [ofZ 4]] k j)))
          (seq 0 2) zero.
Proof.
  split; [|split; [|split]].
  - apply (proj1 (matrixMultiply_dimensions [] [[ofZ 1]])). reflexivity.
  - apply (proj1 (proj2 (matrixMultiply_dimensions [[ofZ 1; ofZ 2]] [[ofZ 1]])));
      discriminate.
  - apply (proj1 (proj2 (proj2 (matrixMultiply_dimensions [[]] []))));
      [discriminate | reflexivity | reflexivity].
  - apply (proj2 (proj2 (proj2
             (matrixMultiply_dimensions [[ofZ 1; ofZ 2]] [[ofZ 3]; [ofZ 4]])))
             1 2 1); try reflexivity; try lia; repeat constructor.
Defined.

(** X6. The transpose of a product is the product of the transposes in
    the opposite order, bit for bit: for [a] of [r] rows of [n] entries
    and [b] of [n] rows of [c] entries, no dimension zero. *)
Theorem matrixMultiply_transpose (r n c : nat) (a b : matrix) :
  r <> 0 -> n <> 0 -> c <> 0 ->
  List.length a = r -> rectangular n a ->
  List.length b = n -> rectangular c b ->
  exists p, matrixMultiply a b = Value p /\
            matrixMultiply (transpose b) (transpose a) = Value (transpose p).
Proof.
  intros Hr Hn Hc Ha Ra Hb Rb.
  destruct (matrixMultiply_cells r n c a b) as (p & Hp & Lp & Rp & Cp);
    try assumption.
  destruct (transpose_shape r n a) as (LTa & RTa & CTa); try assumption.
  destruct (transpose_shape n c b) as (LTb & RTb & CTb); try assumption.
  destruct (transpose_shape r c p) as (LTp & RTp & CTp); try assumption.
  destruct (matrixMultiply_cells c n r (transpose b) (transpose a))
    as (q & Hq & Lq & Rq & Cq); try assumption.
  exists p. split; [exact Hp|]. rewrite Hq. f_equal.
  apply (matrix_ext c r); try assumption.
  intros j i Hj Hi. rewrite Cq, CTp, Cp by assumption.
  unfold dot. rewrite LTa, Hb. apply fold_left_ext_in.
  intros acc k Hk. apply in_seq in Hk.
  rewrite CTb, CTa by lia. now rewrite mul_commutes.
Qed.

Lemma matrixMultiply_transpose_witness :
  exists p,
    matrixMultiply [[ofZ 1; ofZ 2]] [[ofZ 3]; [ofZ 4]] = Value p /\
    matrixMultiply (transpose [[ofZ 3]; [ofZ 4]]) (transpose [[ofZ 1; ofZ 2]])
    = Value (transpose p).
Proof.
  apply (matrixMultiply_transpose 1 2 1); try reflexivity; try lia;
    repeat constructor.
Defined.

(** The inner loop against a column of the identity picks one entry. *)
Lemma dot_unit (f : nat -> num) (n j : nat) :
  j < n -> (forall k, k < n -> plain (f k)) ->
  fold_left
    (fun sum k => add sum (mul (f k) (if k =? j then ofZ 1 else ofZ 0)))
    (seq 0 n) zero
  = f j.
Proof.
  intros Hj Hf.
  assert (Hzeros : forall len lo acc,
            acc <> S754_zero true -> lo + len <= n ->
            (forall k, lo <= k < lo + len -> k <> j) ->
            fold_left
              (fun sum k => add sum (mul (f k) (if k =? j then ofZ 1 else ofZ 0)))
              (seq lo len) acc = acc).
  { induction len as [|len IH]; intros lo acc Hacc Hn Hne; [reflexivity|].
    cbn [seq fold_left].
    destruct (Nat.eqb_spec lo j) as [E|_]; [exfalso; apply (Hne lo); lia|].
    destruct (Hf lo ltac:(lia)) as (_ & Hfin & _).
    destruct (mul_zero_r (f lo) Hfin) as [s ->].
    rewrite add_zero_r by exact Hacc.
    apply IH; [exact Hacc | lia | intros k Hk; apply Hne; lia]. }
  replace n with (j + S (n - S j)) by lia.
  rewrite seq_app, fold_left_app. cbn [seq fold_left Nat.add].
  rewrite (Hzeros j 0 zero); [|discriminate | lia | intros k Hk; lia].
  rewrite ?Nat.add_0_l, Nat.eqb_refl.
  destruct (Hf j Hj) as (Hv & Hfin & Hnz).
  rewrite (mul_one_r (f j) Hv Hfin), add_zero_l by exact Hnz.
  apply Hzeros; [exact Hnz | lia | intros k Hk; lia].
Qed.

Lemma identity_shape (n : nat) :
  List.length (identity n) = n /\ rectangular n (identity n) /\
  forall i j, i < n -> j < n ->
    cell (identity n) i j = if i =? j then ofZ 1 else ofZ 0.
Proof.
  unfold identity. split; [now rewrite length_map, length_seq|].
  split; [apply rectangular_map_seq|].
  intros i j Hi Hj. unfold cell.
  rewrite (nth_map_seq _ n i [] Hi). unfold at_.
  now rewrite (nth_map_seq _ n j nan Hj).
Qed.

Lemma plain_cell (r n : nat) (a : list (list num)) (i k : nat) :
  List.length a = r -> rectangular n a -> Forall (Forall plain) a ->
  i < r -> k < n -> plain (cell a i k).
Proof.
  intros La Ra Pa Hi Hk.
  destruct (lookup_lt_is_Some_2 a i) as [row Hrow]; [lia|].
  pose proof (rectangular_lookup _ _ _ _ Ra Hrow) as Lrow.
  destruct (lookup_lt_is_Some_2 row k) as [x Hx]; [lia|].
  rewrite (cell_lookup a i k row x Hrow Hx).
  rewrite Forall_forall in Pa.
  assert (Hin : In row a)
    by (apply list_elem_of_In; eapply list_elem_of_lookup_2; eauto).
  specialize (Pa row Hin). rewrite Forall_forall in Pa. apply Pa.
  apply list_elem_of_In. eapply list_elem_of_lookup_2; eauto.
Qed.

(** X7. Multiplied by the identity matrix of the fitting order, on
    either side, a matrix comes back as it is, when its entries are
    finite doubles other than [-0]. *)
Theorem matrixMultiply_identity (r n : nat) (a : matrix) :
  r <> 0 -> n <> 0 -> List.length a = r -> rectangular n a ->
  Forall (Forall plain) a ->
  matrixMultiply a (identity n) = Value a /\
  matrixMultiply (identity r) a = Value a.
Proof.
  intros Hr Hn La Ra Pa.
  destruct (identity_shape n) as (Ln & Rn & Cn).
  destruct (identity_shape r) as (Lr & Rr & Cr).
  split.
  - destruct (matrixMultiply_cells r n n a (identity n))
      as (p & -> & Lp & Rp & Cp); try assumption.
    f_equal. apply (matrix_ext r n); try assumption.
    intros i j Hi Hj. rewrite Cp by assumption. unfold dot. rewrite Ln.
    rewrite (fold_left_ext_in _
               (fun sum k => add sum (mul (cell a i k)
                                        (if k =? j then ofZ 1 else ofZ 0)))).
    + apply (dot_unit (fun k => cell a i k) n j Hj).
      intros k Hk. now apply (plain_cell r n).
    + intros acc k Hk. apply in_seq in Hk. now rewrite Cn by lia.
  - destruct (matrixMultiply_cells r r n (identity r) a)
      as (p & -> & Lp & Rp & Cp); try assumption.
    f_equal. apply (matrix_ext r n); try assumption.
    intros i j Hi Hj. rewrite Cp by assumption. unfold dot. rewrite La.
    rewrite (fold_left_ext_in _
               (fun sum k => add sum (mul (cell a k j)
                                        (if k =? i then ofZ 1 else ofZ 0)))).
    + apply (dot_unit (fun k => cell a k j) r i Hi).
      intros k Hk. now apply (plain_cell r n).
    + intros acc k Hk. apply in_seq in Hk. rewrite Cr by lia.
      rewrite mul_commutes, (Nat.eqb_sym i k). reflexivity.
Qed.

Lemma matrixMultiply_identity_witness :
  matrixMultiply [[ofZ 1; ofZ 2; ofZ 3]; [ofZ 4; ofZ 5; ofZ 6]] (identity 3)
  = Value [[ofZ 1; ofZ 2; ofZ 3]; [ofZ 4; ofZ 5; ofZ 6]] /\
  matrixMultiply (identity 2) [[ofZ 1; ofZ 2; ofZ 3]; [ofZ 4; ofZ 5; ofZ 6]]
  = Value [[ofZ 1; ofZ 2; ofZ 3]; [ofZ 4; ofZ 5; ofZ 6]].
Proof.
  apply (matrixMultiply_identity 2 3); try lia; try reflexivity;
    repeat constructor; discriminate.
Defined.

(** ** Determinants, minors and cofactors *)

(** X8. [determinant] throws its Wrong Order error for a matrix that is
    empty or whose first row has not as many entries as the matrix has
    rows, and returns a number for every [n] by [n] matrix, [n] not zero:
    the expansion never meets a minor that is not square. *)
Theorem determinant_square (m : matrix) :
  (notSquare m = true -> determinant m = Throws wrongOrderDeterminant) /\
  (forall n, squareOf n m -> exists d, determinant m = Ok d).
Proof.
  split.
  - intros H. unfold determinant. rewrite determinant_rec_unfold. now rewrite H.
  - intros n. apply determinant_total.
Qed.

Lemma determinant_square_witness :
  determinant [[ofZ 1; ofZ 2]] = Throws wrongOrderDeterminant /\
  exists d, determinant [[ofZ 2; ofZ 0; ofZ 1]; [ofZ 1; ofZ 3; ofZ 2];
                         [ofZ 1; ofZ 1; ofZ 1]] = Ok d.
Proof.
  split.
  - apply (proj1 (determinant_square [[ofZ 1; ofZ 2]])). reflexivity.
  - apply (proj2 (determinant_square _) 3).
    repeat split; [lia | repeat constructor].
Defined.

Lemma collect_imap_ok {A B : Type} (f : nat -> A -> outcome B)
  (g : nat -> A -> B) (l : list A) :
  (forall i x, l !! i = Some x -> f i x = Ok (g i x)) ->
  collect (imap f l) = Ok (imap g l).
Proof.
  revert f g. induction l as [|x l IH]; intros f g H; [reflexivity|].
  cbn. rewrite (H 0 x eq_refl).
  rewrite (IH (f ∘ S) (g ∘ S)); [reflexivity|].
  intros i y Hy. apply (H (S i) y Hy).
Qed.

Lemma removeAt_In {A : Type} (i : nat) (a : list A) (x : A) :
  In x (removeAt i a) -> In x a.
Proof.
  unfold removeAt. rewrite in_app_iff. intros [H|H].
  - rewrite <- (firstn_skipn i a). apply in_or_app. now left.
  - rewrite <- (firstn_skipn (S i) a). apply in_or_app. now right.
Qed.

(** Striking a row and a column of a square matrix leaves a square one. *)
Lemma getMinor_squareOf (n : nat) (m : list (list num)) (r c : nat) :
  squareOf (S (S n)) m -> r < S (S n) -> c < S (S n) ->
  squareOf (S n) (getMinor m r c).
Proof.
  intros (_ & L & R) Hr Hc. unfold squareOf, getMinor. split; [lia|]. split.
  - rewrite length_map, removeAt_length by lia. lia.
  - unfold rectangular in *. rewrite Forall_map. apply Forall_forall.
    intros row Hin. apply removeAt_In in Hin.
    rewrite Forall_forall in R. specialize (R row Hin).
    rewrite removeAt_length by lia. lia.
Qed.

Lemma minorDet_Ok (n : nat) (m : list (list num)) (r c : nat) :
  squareOf (S (S n)) m -> r < S (S n) -> c < S (S n) ->
  determinant (getMinor m r c) = Ok (minorDet m r c).
Proof.
  intros S Hr Hc. unfold minorDet.
  destruct (determinant_total _ _ (getMinor_squareOf n m r c S Hr Hc)) as [d ->].
  reflexivity.
Qed.

Lemma minorMatrix_cells (n : nat) (m : list (list num)) :
  squareOf (S (S n)) m ->
  minorMatrix m
  = Ok (imap (fun r row => imap (fun c _ => minorDet m r c) row) m).
Proof.
  intros S. unfold minorMatrix. rewrite (squareOf_notSquare _ _ S).
  apply collect_imap_ok. intros r row Hr.
  apply collect_imap_ok. intros c x Hc.
  destruct S as (N & L & R).
  pose proof (rectangular_lookup _ _ _ _ R Hr) as Lrow.
  apply lookup_lt_Some in Hr. apply lookup_lt_Some in Hc.
  apply (minorDet_Ok n); [repeat split; assumption | lia | lia].
Qed.

Lemma cofactorMatrix_cells (n : nat) (m : list (list num)) :
  squareOf (S (S n)) m ->
  cofactorMatrix m
  = Ok (imap (fun r row =>
                imap (fun c _ => mul (minusOnePow (r + c)) (minorDet m r c)) row)
          m).
Proof.
  intros S. unfold cofactorMatrix. rewrite (squareOf_notSquare _ _ S).
  apply collect_imap_ok. intros r row Hr.
  apply collect_imap_ok. intros c x Hc.
  destruct S as (N & L & R).
  pose proof (rectangular_lookup _ _ _ _ R Hr) as Lrow.
  apply lookup_lt_Some in Hr. apply lookup_lt_Some in Hc.
  rewrite (minorDet_Ok n); [reflexivity | repeat split; assumption | lia | lia].
Qed.

(** X9. On every 1 by 1 matrix [minorMatrix], [cofactorMatrix] and
    [adjoint] throw the Wrong Order error of [determinant]: the only minor
    is the empty matrix. *)
Theorem minors_of_order_one_throw (x : num) :
  minorMatrix [[x]] = Throws wrongOrderDeterminant /\
  cofactorMatrix [[x]] = Throws wrongOrderDeterminant /\
  adjoint [[x]] = Throws wrongOrderDeterminant.
Proof. repeat split. Qed.

(** X10. For an [n] by [n] matrix, [n] at least 2, [minorMatrix] returns
    an [n] by [n] matrix whose cell [(r, c)] is the determinant of the
    matrix without row [r] and column [c]. *)
Theorem minorMatrix_square (n : nat) (m : matrix) :
  squareOf n m -> 2 <= n ->
  exists minors,
    minorMatrix m = Ok minors /\ squareOf n minors /\
    forall r c, r < n -> c < n ->
      determinant (getMinor m r c) = Ok (cell minors r c).
Proof.
  intros S Hn. destruct n as [|[|n]]; try lia.
  rewrite (minorMatrix_cells n m S). eexists. split; [reflexivity|].
  destruct S as (N & L & R).
  destruct (imap_rows_shape (fun r c _ => minorDet m r c) _ m R) as [Sh C].
  split; [repeat split; [lia | now rewrite length_imap | exact Sh] |].
  intros r c Hr Hc. rewrite C by lia.
  apply (minorDet_Ok n); [repeat split; assumption | lia | lia].
Qed.

Lemma minorMatrix_square_witness :
  exists minors,
    minorMatrix [[ofZ 1; ofZ 2]; [ofZ 3; ofZ 4]] = Ok minors /\
    squareOf 2 minors /\
    forall r c, r < 2 -> c < 2 ->
      determinant (getMinor [[ofZ 1; ofZ 2]; [ofZ 3; ofZ 4]] r c)
      = Ok (cell minors r c).
Proof.
  apply (minorMatrix_square 2); [|lia].
  repeat split; [lia | repeat constructor].
Defined.

(** X11. For an [n] by [n] matrix, [n] at least 2, [cofactorMatrix]
    returns the [n] by [n] matrix of the minors, each times
    [(-1) ** (r + c)], and [adjoint] returns its transpose, [n] by [n]
    as well. *)
Theorem cofactorMatrix_signs (n : nat) (m : matrix) :
  squareOf n m -> 2 <= n ->
  exists minors cofactors,
    minorMatrix m = Ok minors /\ cofactorMatrix m = Ok cofactors /\
    adjoint m = Ok (transpose cofactors) /\
    squareOf n cofactors /\ squareOf n (transpose cofactors) /\
    forall r c, r < n -> c < n ->
      cell cofactors r c = mul (minusOnePow (r + c)) (cell minors r c) /\
      cell (transpose cofactors) c r = cell cofactors r c.
Proof.
  intros S Hn. destruct n as [|[|n]]; try lia.
  unfold adjoint.
  rewrite (minorMatrix_cells n m S), (cofactorMatrix_cells n m S).
  destruct S as (N & L & R).
  destruct (imap_rows_shape (fun r c _ => minorDet m r c) _ m R) as [Sh C].
  destruct (imap_rows_shape
              (fun r c _ => mul (minusOnePow (r + c)) (minorDet m r c)) _ m R)
    as [Sh' C'].
  remember (imap (fun r row =>
                    imap (fun c (_ : num) =>
                            mul (minusOnePow (r + c)) (minorDet m r c)) row) m)
    as cof eqn:Ecof.
  assert (Lc : List.length cof = S (S n))
    by (rewrite Ecof; now rewrite length_imap).
  destruct (transpose_shape (S (S n)) (S (S n)) cof N N Lc Sh') as (LT & RT & CT).
  do 2 eexists. split; [reflexivity|]. split; [reflexivity|].
  split; [reflexivity|].
  split; [repeat split; assumption|].
  split; [repeat split; assumption|].
  intros r c Hr Hc. split.
  - rewrite C', C by lia. reflexivity.
  - apply CT; assumption.
Qed.

Lemma cofactorMatrix_signs_witness :
  exists minors cofactors,
    minorMatrix [[ofZ 1; ofZ 2]; [ofZ 3; ofZ 4]] = Ok minors /\
    cofactorMatrix [[ofZ 1; ofZ 2]; [ofZ 3; ofZ 4]] = Ok cofactors /\
    adjoint [[ofZ 1; ofZ 2]; [ofZ 3; ofZ 4]] = Ok (transpose cofactors) /\
    squareOf 2 cofactors /\ squareOf 2 (transpose cofactors) /\
    forall r c, r < 2 -> c < 2 ->
      cell cofactors r c = mul (minusOnePow (r + c)) (cell minors r c) /\
      cell (transpose cofactors) c r = cell cofactors r c.
Proof.
  apply (cofactorMatrix_signs 2); [|lia].
  repeat split; [lia | repeat constructor].
Defined.

(** ** Inverses, quotients and linear systems *)

Lemma gaussJordanRounds_wide (n : nat) (l : list nat) (aug : list (list num)) :
  (forall i, In i l -> i < n) -> wide n aug ->
  wide n (fold_left (gaussJordanRound n) l aug).
Proof.
  revert aug. induction l as [|i l IH]; intros aug Hl W; [exact W|].
  cbn. apply IH; [intros k Hk; apply Hl; now right|].
  apply gaussJordanStep_rows; [apply Hl; now left | exact W].
Qed.

(** The right half of the reduced augmented matrix has the order of the
    matrix. *)
Lemma gaussJordan_right_half (n : nat) (m : list (list num)) :
  squareOf n m ->
  squareOf n (List.map (skipn n) (gaussJordan n (augment n m))).
Proof.
  intros S. pose proof S as (N & L & R).
  rewrite (gaussJordan_rounds n _ (augment_wide n m S)).
  assert (W : wide n (fold_left (gaussJordanRound n) (seq 0 n) (augment n m))).
  { apply gaussJordanRounds_wide; [|apply augment_wide; exact S].
    intros i Hi. apply in_seq in Hi. lia. }
  destruct W as [WL WR]. repeat split; [exact N | now rewrite length_map |].
  unfold rectangular. rewrite Forall_map.
  eapply Forall_impl; [|exact WR]. intros row Hrow. cbn beta in *.
  rewrite length_skipn. lia.
Qed.

(** The inverse, where there is one, has the order of the matrix. *)
Lemma matrixInverse_shape (n : nat) (m : list (list num)) :
  squareOf n m ->
  matrixInverse m = Throws singularMessage \/
  exists inverse, matrixInverse m = Ok inverse /\ squareOf n inverse.
Proof.
  intros S. unfold matrixInverse. rewrite (squareOf_notSquare _ _ S).
  destruct (determinant_total _ _ S) as [det ->].
  destruct (lt (abs det) epsilon); [now left|]. right.
  eexists. split; [reflexivity|].
  destruct S as (N & L & R). rewrite L.
  now apply gaussJordan_right_half.
Qed.

(** X12. An [n] by [n] matrix has a determinant, and [matrixInverse]
    throws the singular-matrix error when the absolute value of the
    determinant is below [1e-10] (the double [7737125245533627 * 2^-86]),
    and returns an [n] by [n] matrix otherwise. *)
Theorem matrixInverse_order (n : nat) (m : matrix) :
  squareOf n m ->
  exists det,
    determinant m = Ok det /\
    if lt (abs det) (S754_finite false 7737125245533627 (-86))
    then matrixInverse m
         = Throws
             (js "Matrix is singular and cannot be inverted (determinant is zero).")
    else exists inverse, matrixInverse m = Ok inverse /\ squareOf n inverse.
Proof.
  intros S. destruct (determinant_total _ _ S) as [det Hdet].
  exists det. split; [exact Hdet|].
  unfold matrixInverse. rewrite (squareOf_notSquare _ _ S), Hdet.
  unfold epsilon, singularMessage.
  destruct (lt (abs det) (S754_finite false 7737125245533627 (-86)));
    [reflexivity|].
  eexists. split; [reflexivity|].
  pose proof S as (N & L & R). rewrite L.
  now apply gaussJordan_right_half.
Qed.

(** A matrix of determinant -8, and the matrix whose one entry is the
    double nearest to [1/10^10]: both are inverted. *)
Lemma matrixInverse_order_witness :
  (exists inverse,
     matrixInverse [[ofZ 0; ofZ 2]; [ofZ 4; ofZ 0]] = Ok inverse /\
     squareOf 2 inverse) /\
  (exists inverse,
     matrixInverse [[div (ofZ 1) (ofZ 10000000000)]] = Ok inverse /\
     squareOf 1 inverse).
Proof.
  split.
  - destruct (matrixInverse_order 2 [[ofZ 0; ofZ 2]; [ofZ 4; ofZ 0]])
      as (det & Hdet & H);
      [repeat split; [lia | repeat constructor] |].
    injection Hdet as <-. exact H.
  - destruct (matrixInverse_order 1 [[div (ofZ 1) (ofZ 10000000000)]])
      as (det & Hdet & H);
      [repeat split; [lia | repeat constructor] |].
    injection Hdet as <-. exact H.
Defined.

(** X13. For [a] of [r] rows of [n] entries and an [n] by [n] matrix
    [b], [matrixDivide(a, b)] throws the singular-matrix error of the
    inversion or returns the product of [a] and the inverse of [b], a
    matrix of [r] rows of [n] entries. *)
Theorem matrixDivide_shape (r n : nat) (a b : matrix) :
  r <> 0 -> List.length a = r -> rectangular n a -> squareOf n b ->
  matrixDivide a b = Raise (ErrorOf singularMessage) \/
  exists bInverse q,
    matrixInverse b = Ok bInverse /\ matrixMultiply a bInverse = Value q /\
    matrixDivide a b = Value q /\ List.length q = r /\ rectangular n q.
Proof.
  intros Hr La Ra S. unfold matrixDivide.
  destruct (matrixInverse_shape n b S) as [-> | (inv & -> & (N & Li & Ri))];
    [now left|]. right.
  destruct (matrixMultiply_cells r n n a inv) as (q & Hq & Lq & Rq & _);
    try assumption.
  exists inv, q. now rewrite Hq.
Qed.

Lemma matrixDivide_shape_witness :
  matrixDivide [[ofZ 6; ofZ 8]] [[ofZ 0; ofZ 2]; [ofZ 4; ofZ 0]]
  = Raise (ErrorOf singularMessage) \/
  exists bInverse q,
    matrixInverse [[ofZ 0; ofZ 2]; [ofZ 4; ofZ 0]] = Ok bInverse /\
    matrixMultiply [[ofZ 6; ofZ 8]] bInverse = Value q /\
    matrixDivide [[ofZ 6; ofZ 8]] [[ofZ 0; ofZ 2]; [ofZ 4; ofZ 0]] = Value q /\
    List.length q = 1 /\ rectangular 2 q.
Proof.
  apply (matrixDivide_shape 1 2); [lia | reflexivity | repeat constructor |].
  repeat split; [lia | repeat constructor].
Defined.

(** The solution of a square system is the product of the inverse and
    the right-hand side. *)
Lemma solveLinearSystem_solution (n : nat) (A : matrix) (B : list num) :
  squareOf n A -> List.length B = n ->
  solveLinearSystem A B = Raise (ErrorOf singularMessage) \/
  exists A_inv x,
    matrixInverse A = Ok A_inv /\ solveLinearSystem A B = Value x /\
    List.length x = n /\
    forall i, i < n ->
      at_ x i
      = fold_left (fun sum k => add sum (mul (cell A_inv i k) (at_ B k)))
          (seq 0 n) zero.
Proof.
  intros S HB. unfold solveLinearSystem.
  rewrite (squareOf_notSquare _ _ S).
  pose proof S as (N & L & R). rewrite L, HB, Nat.eqb_refl. cbn [negb].
  destruct (matrixInverse_shape n A S) as [-> | (inv & -> & (_ & Li & Ri))];
    [now left|]. right.
  assert (RB : rectangular 1 (List.map (fun val => [val]) B)).
  { unfold rectangular. rewrite Forall_map. now apply Forall_forall. }
  destruct (matrixMultiply_cells n n 1 inv (List.map (fun val => [val]) B))
    as (p & -> & Lp & Rp & Cp); try assumption; [now rewrite length_map|].
  exists inv. eexists. split; [reflexivity|]. split; [reflexivity|].
  split; [now rewrite length_map|].
  intros i Hi. unfold at_ at 1.
  rewrite (nth_indep _ nan (at_ [] 0)) by (rewrite length_map; lia).
  rewrite (map_nth (fun row => at_ row 0) p [] i).
  change (at_ (nth i p []) 0) with (cell p i 0). rewrite Cp by lia.
  unfold dot. rewrite length_map, HB. apply fold_left_ext_in.
  intros acc k Hk. apply in_seq in Hk. do 2 f_equal.
  unfold cell. rewrite (nth_indep _ [] [nan]) by (rewrite length_map; lia).
  rewrite (map_nth (fun val => [val]) B nan k). reflexivity.
Qed.

(** X14. [solveLinearSystem(A, B)] throws its first Wrong Order error
    when [A] is empty or its first row has not as many entries as [A] has
    rows, and otherwise its second when [B] has not as many entries as
    [A] has rows. For an [n] by [n] matrix and [n] right-hand sides it
    throws the singular-matrix error or returns [n] numbers, the [i]-th
    being the sum, from [+0] and in the order of [k], of
    [A_inv[i][k] * B[k]]. *)
Theorem solveLinearSystem_outcomes (A : matrix) (B : list num) :
  (notSquare A = true ->
   solveLinearSystem A B = Raise (ErrorOf wrongOrderCoefficients)) /\
  (notSquare A = false -> List.length A <> List.length B ->
   solveLinearSystem A B = Raise (ErrorOf wrongOrderVector)) /\
  (forall n, squareOf n A -> List.length B = n ->
     solveLinearSystem A B = Raise (ErrorOf singularMessage) \/
     exists A_inv x,
       matrixInverse A = Ok A_inv /\ solveLinearSystem A B = Value x /\
       List.length x = n /\
       forall i, i < n ->
         at_ x i
         = fold_left (fun sum k => add sum (mul (cell A_inv i k) (at_ B k)))
             (seq 0 n) zero).
Proof.
  split; [|split].
  - intros H. unfold solveLinearSystem. now rewrite H.
  - intros H Hl. apply Nat.eqb_neq in Hl. unfold solveLinearSystem.
    now rewrite H, Hl.
  - intros n. apply solveLinearSystem_solution.
Qed.

Lemma solveLinearSystem_outcomes_witness :
  solveLinearSystem [[ofZ 1; ofZ 2]] [ofZ 1]
  = Raise (ErrorOf wrongOrderCoefficients) /\
  solveLinearSystem [[ofZ 2]] [ofZ 6; ofZ 7] = Raise (ErrorOf wrongOrderVector) /\
  (solveLinearSystem [[ofZ 2]] [ofZ 6] = Raise (ErrorOf singularMessage) \/
   exists A_inv x,
     matrixInverse [[ofZ 2]] = Ok A_inv /\
     solveLinearSystem [[ofZ 2]] [ofZ 6] = Value x /\
     List.length x = 1 /\
     forall i, i < 1 ->
       at_ x i
       = fold_left
           (fun sum k => add sum (mul (cell A_inv i k) (at_ [ofZ 6] k)))
           (seq 0 1) zero).
Proof.
  split; [|split].
  - apply (proj1 (solveLinearSystem_outcomes [[ofZ 1; ofZ 2]] [ofZ 1])).
    reflexivity.
  - apply (proj1 (proj2 (solveLinearSystem_outcomes [[ofZ 2]] [ofZ 6; ofZ 7])));
      [reflexivity | discriminate].
  - apply (proj2 (proj2 (solveLinearSystem_outcomes [[ofZ 2]] [ofZ 6])) 1);
      [|reflexivity].
    repeat split; [lia | repeat constructor].
Defined.

#[local] Close Scope nat_scope.

(** ** The function parser and upper case *)

Lemma lowerUnit_fixed (c d : N) :
  In d (lowerUnit c) -> lowerUnit d = [d].
Proof.
  unfold lowerUnit at 1. destruct (isUpper c) eqn:U.
  - intros [<-|[]]. unfold isUpper, inRange in U.
    apply andb_prop in U as [U1 U2]. apply N.leb_le in U1, U2.
    unfold lowerUnit, isUpper, inRange.
    replace (N.leb (c + 32) 90) with false
      by (symmetry; apply N.leb_gt; lia).
    rewrite andb_false_r.
    destruct (N.eqb_spec (c + 32) 304); [lia|].
    destruct (N.eqb_spec (c + 32) 8490); [lia|]. reflexivity.
  - destruct (N.eqb_spec c 304) as [->|H1];
      [intros [<-|[<-|[]]]; reflexivity|].
    destruct (N.eqb_spec c 8490) as [->|H2]; [intros [<-|[]]; reflexivity|].
    intros [<-|[]]. unfold lowerUnit. rewrite U.
    destruct (N.eqb_spec c 304); [contradiction|].
    destruct (N.eqb_spec c 8490); [contradiction|]. reflexivity.
Qed.

Lemma toLowerCase_idempotent (s : jsstring) :
  toLowerCase (toLowerCase s) = toLowerCase s.
Proof.
  unfold toLowerCase. induction s as [|c s IH]; [reflexivity|].
  cbn [flat_map]. rewrite flat_map_app, IH. f_equal.
  assert (H : forall l, (forall d, In d l -> lowerUnit d = [d]) ->
                        flat_map lowerUnit l = l).
  { induction l as [|d l IHl]; intros Hl; [reflexivity|].
    cbn [flat_map]. rewrite (Hl d (or_introl eq_refl)), IHl; [reflexivity|].
    intros e He. apply Hl. now right. }
  apply H. intros d. apply lowerUnit_fixed.
Qed.

(** X15. On a text of ASCII characters [parseFunction] does not tell
    upper case from lower case: the lower-cased text gives the same
    result as the text. *)
Theorem parseFunction_ignores_case (funcStr : jsstring) :
  ascii funcStr = true ->
  parseFunction (toLowerCase funcStr) = parseFunction funcStr.
Proof.
  intros _. unfold parseFunction, preprocess.
  now rewrite toLowerCase_idempotent.
Qed.

Lemma parseFunction_ignores_case_witness :
  parseFunction (js "2*sin(x)") = parseFunction (js "2*SIN(X)").
Proof.
  apply (parseFunction_ignores_case (js "2*SIN(X)")). reflexivity.
Defined.

(** ** The text handed to the host

    The passes of [preprocess] are edits that put in [*], [**],
    [Math.PI], [Math.E] and [FN.]; two properties of the text survive
    every such edit. *)

Lemma adjacent_suffix (p1 p2 : N -> bool) (u v : jsstring) :
  adjacent p1 p2 (u ++ v) = false -> adjacent p1 p2 v = false.
Proof.
  induction u as [|a u IH]; [trivial|]. cbn [app adjacent].
  intros H. apply orb_false_elim in H. now apply IH.
Qed.

Lemma adjacent_clean_prefix (p1 p2 : N -> bool) (rep l : jsstring) :
  forallb (fun c => negb (p1 c)) rep = true ->
  adjacent p1 p2 (rep ++ l) = adjacent p1 p2 l.
Proof.
  induction rep as [|a rep IH]; [reflexivity|]. cbn [forallb app adjacent].
  intros H. apply andb_prop in H as [Ha H]. rewrite (IH H).
  apply negb_true_iff in Ha. now rewrite Ha.
Qed.

Lemma last_cons (a : N) (u : jsstring) (d : N) :
  last (a :: u) d = last u a.
Proof.
  revert a d. induction u as [|b u IH]; intros a d; [reflexivity|].
  change (last (a :: b :: u) d) with (last (b :: u) d).
  now rewrite !IH.
Qed.

Lemma bareX_suffix (prev : N) (u v : jsstring) :
  bareX prev (u ++ v) = false -> bareX (last u prev) v = false.
Proof.
  revert prev. induction u as [|a u IH]; intros prev; [trivial|].
  cbn [app bareX]. intros H. apply orb_false_elim in H as [_ H].
  rewrite last_cons. now apply IH.
Qed.

Lemma bareX_clean_prefix (prev : N) (rep l : jsstring) :
  rep <> [] -> forallb (fun c => negb (isChar 120 c)) rep = true ->
  bareX prev (rep ++ l) = bareX (last rep 0%N) l.
Proof.
  revert prev. induction rep as [|a rep IH]; intros prev Hne H; [congruence|].
  cbn [forallb] in H. apply andb_prop in H as [Ha H].
  apply negb_true_iff in Ha.
  cbn [app bareX callsX]. rewrite Ha. cbn [andb orb].
  destruct rep as [|b rep]; [reflexivity|].
  rewrite (IH a) by (congruence || exact H).
  now rewrite !last_cons.
Qed.

(** What stands right before matters to [bareX] only at a call of [x]. *)
Lemma bareX_prev (p q : N) (l : jsstring) :
  bareX p l = false -> isChar 42 q = true \/ callsX l = false ->
  bareX q l = false.
Proof.
  destruct l as [|a l]; [trivial|]. cbn [bareX].
  intros H Hq. apply orb_false_elim in H as [H1 H2]. rewrite H2.
  destruct Hq as [Hq|Hq]; [rewrite Hq | rewrite Hq]; cbn;
    now rewrite ?andb_false_r.
Qed.

Lemma forallb_weaken {A : Type} (p q : A -> bool) (l : list A) :
  (forall x, p x = true -> q x = true) ->
  forallb p l = true -> forallb q l = true.
Proof.
  intros H. rewrite !forallb_forall. intros Hp x Hx. apply H, Hp, Hx.
Qed.

Section Edits.

Variable C : jsstring -> jsstring -> jsstring -> Prop.
Hypothesis C_benign : forall w rep s, C w rep s -> benign w rep s.

Lemma edited_head (s out : jsstring) :
  edited C s out ->
  startsWith letterOrParen out = true -> startsWith letterOrParen s = true.
Proof.
  intros E. destruct E as [|c s out E|w rep s out Hc E]; [trivial | trivial|].
  destruct (C_benign _ _ _ Hc) as (Hne & Hhead & _).
  destruct rep as [|r rep]; [congruence|]. cbn in *. congruence.
Qed.

Lemma edited_callsX (s out : jsstring) :
  edited C s out -> callsX out = true -> callsX s = true.
Proof.
  intros E. destruct E as [|c s out E|w rep s out Hc E]; [trivial | |].
  - cbn [callsX]. intros H. apply andb_prop in H as [H1 H2].
    now rewrite H1, (edited_head s out E H2).
  - destruct (C_benign _ _ _ Hc) as (Hne & _ & Hclean & _).
    destruct rep as [|r rep]; [congruence|].
    cbn [forallb] in Hclean. apply andb_prop in Hclean as [Hr _].
    apply andb_prop in Hr as [_ Hr]. apply negb_true_iff in Hr.
    cbn [app callsX]. now rewrite Hr.
Qed.

Lemma edited_bareX (s out : jsstring) :
  edited C s out ->
  forall prev, bareX prev s = false -> bareX prev out = false.
Proof.
  induction 1 as [|c s out E IH|w rep s out Hc E IH]; intros prev;
    [trivial | |].
  - cbn [bareX]. intros H. apply orb_false_elim in H as [H1 H2].
    rewrite (IH c H2), orb_false_r.
    destruct (callsX (c :: out)) eqn:Eo; [|reflexivity].
    now rewrite (edited_callsX (c :: s) (c :: out) (edited_keep C c s out E) Eo)
      in H1.
  - intros H. apply bareX_suffix in H.
    destruct (C_benign _ _ _ Hc) as (Hne & _ & Hclean & Hlast).
    rewrite bareX_clean_prefix;
      [|exact Hne
       |eapply forallb_weaken; [|exact Hclean]; cbn; intros x Hx;
        now apply andb_prop in Hx].
    specialize (IH _ H).
    apply (bareX_prev _ _ _ IH).
    destruct (callsX out) eqn:Eo; [|now right].
    pose proof (edited_callsX s out E Eo) as Es.
    destruct Hlast as [Hl | [[Hw Hl] | Hl]].
    + left. rewrite Hl. reflexivity.
    + exfalso. destruct s as [|a s]; [discriminate|].
      cbn [bareX] in H. rewrite Es in H. cbn in H.
      apply orb_false_elim in H as [H _].
      apply negb_false_iff in H. apply N.eqb_eq in H.
      destruct w as [|w0 w]; [congruence|].
      apply Hl. rewrite <- H. now rewrite !last_cons.
    + congruence.
Qed.

End Edits.

Lemma edited_keeps (C : jsstring -> jsstring -> jsstring -> Prop) (c : N)
  (s out : jsstring) :
  (forall w rep s', C w rep s' -> ~ In c w) ->
  edited C s out -> In c s -> In c out.
Proof.
  intros HC. induction 1 as [|d s out E IH|w rep s out Hc E IH]; [trivial | |].
  - intros [->|H]; [now left | right; now apply IH].
  - intros H. apply in_app_or in H as [H|H]; [now apply HC in Hc|].
    apply in_or_app. right. now apply IH.
Qed.

(** *** Edits that keep two classes apart *)

Lemma edited_mono (C C' : jsstring -> jsstring -> jsstring -> Prop)
  (s out : jsstring) :
  (forall w rep s', C w rep s' -> C' w rep s') ->
  edited C s out -> edited C' s out.
Proof.
  intros H. induction 1 as [|c s out E IH|w rep s out Hc E IH].
  - constructor.
  - now apply edited_keep.
  - apply edited_replace; [now apply H | exact IH].
Qed.

Section Apart.

Variables p1 p2 : N -> bool.
Variable reps : list jsstring.
Hypothesis reps_clean : forallb (clean p1 p2) reps = true.

Lemma putsIn_clean (w rep s : jsstring) :
  putsIn reps w rep s ->
  rep <> [] /\ startsWith p2 rep = false /\
  forallb (fun c => negb (p1 c)) rep = true.
Proof.
  intros Hin. rewrite forallb_forall in reps_clean.
  specialize (reps_clean rep Hin). unfold clean in reps_clean.
  apply andb_prop in reps_clean as [H12 H3].
  apply andb_prop in H12 as [H1 H2].
  split; [intros ->; discriminate|].
  split; [now apply negb_true_iff | exact H3].
Qed.

Lemma putsIn_head (s out : jsstring) :
  edited (putsIn reps) s out ->
  startsWith p2 out = true -> startsWith p2 s = true.
Proof.
  intros E. destruct E as [|c s out E|w rep s out Hc E]; [trivial | trivial|].
  destruct (putsIn_clean _ _ _ Hc) as (Hne & Hhead & _).
  destruct rep as [|r rep]; [congruence|]. cbn in *. congruence.
Qed.

Lemma putsIn_adjacent (s out : jsstring) :
  edited (putsIn reps) s out ->
  adjacent p1 p2 s = false -> adjacent p1 p2 out = false.
Proof.
  induction 1 as [|c s out E IH|w rep s out Hc E IH]; [trivial | |].
  - cbn [adjacent]. intros H. apply orb_false_elim in H as [H1 H2].
    rewrite (IH H2), orb_false_r.
    destruct (p1 c); [|reflexivity]. cbn in *.
    destruct (startsWith p2 out) eqn:Eo; [|reflexivity].
    now rewrite (putsIn_head s out E Eo) in H1.
  - intros H. apply adjacent_suffix in H.
    destruct (putsIn_clean _ _ _ Hc) as (_ & _ & Hclean).
    rewrite adjacent_clean_prefix; [now apply IH | exact Hclean].
Qed.

End Apart.

(** *** The passes as edits *)

Lemma insertStar_unfold (p1 p2 : N -> bool) (s : jsstring) :
  insertStar p1 p2 s =
  match s with
  | a :: b :: rest =>
      if (p1 a && p2 b)%bool then a :: 42%N :: b :: insertStar p1 p2 rest
      else a :: insertStar p1 p2 (b :: rest)
  | _ => s
  end.
Proof. destruct s as [|a [|b rest]]; reflexivity. Qed.

Lemma insertStar_head (p1 p2 q : N -> bool) (s : jsstring) :
  startsWith q (insertStar p1 p2 s) = startsWith q s.
Proof.
  rewrite insertStar_unfold. destruct s as [|a [|b rest]]; try reflexivity.
  now destruct (p1 a && p2 b)%bool.
Qed.

Lemma insertStar_edited (p1 p2 : N -> bool) (s : jsstring) :
  edited (inserts [42%N]) s (insertStar p1 p2 s).
Proof.
  assert (H : forall n s, (List.length s <= n)%nat ->
            edited (inserts [42%N]) s (insertStar p1 p2 s)).
  { clear s. induction n as [|n IH]; intros s Hn.
    - destruct s; [constructor | cbn in Hn; lia].
    - rewrite insertStar_unfold. destruct s as [|a [|b rest]].
      + constructor.
      + repeat constructor.
      + cbn [List.length] in Hn. destruct (p1 a && p2 b)%bool.
        * apply edited_keep.
          apply (edited_replace _ [] [42%N] (b :: rest)
                   (b :: insertStar p1 p2 rest)); [now split|].
          apply edited_keep. apply IH. lia.
        * apply edited_keep. apply IH. cbn [List.length]. lia. }
  now apply (H (List.length s)).
Qed.

Lemma replaceChar_edited (c : N) (rep s : jsstring) :
  edited (replaces [c] rep) s (replaceChar c rep s).
Proof.
  unfold replaceChar. induction s as [|d s IH]; [constructor|].
  cbn [flat_map]. destruct (N.eqb_spec d c) as [->|Hne].
  - apply (edited_replace _ [c] rep s); [now split | exact IH].
  - apply edited_keep. exact IH.
Qed.

Lemma isPrefix_split (w s : jsstring) :
  isPrefix w s = true -> s = w ++ skipn (List.length w) s.
Proof.
  revert s. induction w as [|x w IH]; intros s H; [reflexivity|].
  destruct s as [|y s]; [discriminate|]. cbn [isPrefix] in H.
  apply andb_prop in H as [Hx H]. apply N.eqb_eq in Hx. subst y.
  cbn [List.length skipn app]. f_equal. now apply IH.
Qed.

Lemma replaceWord_go_skip (w rep : jsstring) (k : nat) (s : jsstring)
  (prevWord : bool) :
  exists prevWord',
    replaceWord_go w rep prevWord k s
    = replaceWord_go w rep prevWord' O (skipn k s).
Proof.
  revert k prevWord. induction s as [|c s IH]; intros k prevWord.
  - exists prevWord. now destruct k.
  - destruct k as [|k]; [now exists prevWord|].
    cbn [replaceWord_go skipn]. apply IH.
Qed.

Lemma replaceWord_edited (w rep s : jsstring) :
  w <> [] -> edited (replaces w rep) s (replaceWord w rep s).
Proof.
  intros Hw. unfold replaceWord. generalize false.
  assert (H : forall n s prevWord, (List.length s <= n)%nat ->
            edited (replaces w rep) s (replaceWord_go w rep prevWord O s)).
  { clear s. induction n as [|n IH]; intros s prevWord Hn.
    - destruct s; [constructor | cbn in Hn; lia].
    - destruct s as [|c s]; [constructor|]. cbn [replaceWord_go].
      cbn [List.length] in Hn.
      destruct (negb prevWord && isPrefix w (c :: s)
                && negb (startsWith isWord (skipn (List.length w) (c :: s))))%bool
        eqn:Em.
      + apply andb_prop in Em as [Em _]. apply andb_prop in Em as [_ Em].
        destruct (replaceWord_go_skip w rep (List.length w - 1) s (isWord c))
          as [pw' ->].
        rewrite (isPrefix_split w (c :: s) Em) at 1.
        destruct w as [|w0 w']; [congruence|].
        cbn [List.length skipn Nat.sub]. rewrite ?Nat.sub_0_r.
        apply edited_replace; [now split|].
        apply IH. rewrite length_skipn. lia.
      + apply edited_keep. apply IH. lia. }
  intros b. now apply (H (List.length s)).
Qed.

Lemma firstCall_Some (names : list jsstring) (s n : jsstring) :
  firstCall names s = Some n -> In n names /\ isPrefix n s = true.
Proof.
  induction names as [|m names IH]; [discriminate|]. cbn [firstCall].
  destruct (isPrefix m s && _)%bool eqn:E.
  - intros [= <-]. apply andb_prop in E as [E _]. split; [now left | exact E].
  - intros H. destruct (IH H) as [H1 H2]. split; [now right | exact H2].
Qed.

Lemma qualify_edited (names : list jsstring) (s : jsstring) :
  edited (qualifies names) s (qualify names s).
Proof.
  unfold qualify. generalize false, O.
  induction s as [|c s IH]; intros prevWord skip; [constructor|].
  cbn [qualify_go]. destruct skip as [|k].
  - destruct (if prevWord then None else firstCall names (c :: s))
      as [n|] eqn:En.
    + apply (edited_replace _ [] (js "FN.") (c :: s)).
      * split; [reflexivity|]. split; [reflexivity|]. exists n.
        destruct prevWord; [discriminate|]. now apply firstCall_Some.
      * apply edited_keep. apply IH.
    + apply edited_keep. apply IH.
  - apply edited_keep. apply IH.
Qed.

Lemma firstPrefix_Some (alts : list jsstring) (s a : jsstring) :
  firstPrefix alts s = Some a -> In a alts /\ isPrefix a s = true.
Proof.
  induction alts as [|b alts IH]; [discriminate|]. cbn [firstPrefix].
  destruct (isPrefix b s) eqn:E.
  - intros [= <-]. split; [now left | exact E].
  - intros H. destruct (IH H) as [H1 H2]. split; [now right | exact H2].
Qed.

Lemma replaceAlt_go_skip (alts : list jsstring) (rep : jsstring) (k : nat)
  (s : jsstring) :
  replaceAlt_go alts rep k s = replaceAlt_go alts rep O (skipn k s).
Proof.
  revert k. induction s as [|c s IH]; intros k; [now destruct k|].
  destruct k as [|k]; [reflexivity|]. cbn [replaceAlt_go skipn]. apply IH.
Qed.

Lemma replaceAlt_edited (alts : list jsstring) (rep s : jsstring) :
  edited (removes (List.filter (fun a => negb (str_eqb a [])) alts) rep) s
    (replaceAlt alts rep s).
Proof.
  unfold replaceAlt.
  set (alts' := List.filter (fun a => negb (str_eqb a [])) alts).
  assert (Hne : forall a, In a alts' -> a <> []).
  { intros a Ha ->. unfold alts' in Ha. apply filter_In in Ha as [_ Ha].
    discriminate. }
  assert (H : forall n s, (List.length s <= n)%nat ->
            edited (removes alts' rep) s (replaceAlt_go alts' rep O s)).
  { clear s. induction n as [|n IH]; intros s Hn.
    - destruct s; [constructor | cbn in Hn; lia].
    - destruct s as [|c s]; [constructor|]. cbn [replaceAlt_go].
      cbn [List.length] in Hn.
      destruct (firstPrefix alts' (c :: s)) as [a|] eqn:Ea.
      + apply firstPrefix_Some in Ea as [Ha Hp].
        rewrite replaceAlt_go_skip.
        rewrite (isPrefix_split a (c :: s) Hp) at 1.
        pose proof (Hne a Ha) as Hnil.
        destruct a as [|a0 a']; [congruence|].
        cbn [List.length skipn Nat.sub]. rewrite ?Nat.sub_0_r.
        apply edited_replace; [now split|].
        apply IH. rewrite length_skipn. lia.
      + apply edited_keep. apply IH. lia. }
  now apply (H (List.length s)).
Qed.

(** *** Every pass of [preprocess] puts in one of five texts *)

Lemma insertStar_puts (p1 p2 : N -> bool) (s : jsstring) :
  edited (putsIn insertions) s (insertStar p1 p2 s).
Proof.
  apply (edited_mono (inserts [42%N])); [|apply insertStar_edited].
  intros w rep s' [_ ->]. now left.
Qed.

Lemma power_puts (s : jsstring) :
  edited (putsIn insertions) s (replaceChar 94 (js "**") s).
Proof.
  apply (edited_mono (replaces [94%N] (js "**"))); [|apply replaceChar_edited].
  intros w rep s' [_ ->]. right. now left.
Qed.

Lemma pi_puts (s : jsstring) :
  edited (putsIn insertions) s (replaceWord (js "pi") (js "Math.PI") s).
Proof.
  apply (edited_mono (replaces (js "pi") (js "Math.PI")));
    [|apply replaceWord_edited; discriminate].
  intros w rep s' [_ ->]. right. right. now left.
Qed.

Lemma e_puts (s : jsstring) :
  edited (putsIn insertions) s (replaceWord (js "e") (js "Math.E") s).
Proof.
  apply (edited_mono (replaces (js "e") (js "Math.E")));
    [|apply replaceWord_edited; discriminate].
  intros w rep s' [_ ->]. right. right. right. now left.
Qed.

Lemma qualify_puts (names : list jsstring) (s : jsstring) :
  edited (putsIn insertions) s (qualify names s).
Proof.
  apply (edited_mono (qualifies names)); [|apply qualify_edited].
  intros w rep s' (_ & -> & _). right. right. right. right. now left.
Qed.

(** What the last four passes keep apart stays apart to the end. *)
Lemma late_passes_keep_apart (p1 p2 : N -> bool) (s : jsstring) :
  forallb (clean p1 p2) insertions = true ->
  adjacent p1 p2 s = false ->
  adjacent p1 p2
    (qualify funcNames
       (replaceWord (js "e") (js "Math.E")
          (replaceWord (js "pi") (js "Math.PI")
             (replaceChar 94 (js "**") s)))) = false.
Proof.
  intros Hclean H.
  apply (putsIn_adjacent p1 p2 insertions Hclean _ _ (qualify_puts _ _)).
  apply (putsIn_adjacent p1 p2 insertions Hclean _ _ (e_puts _)).
  apply (putsIn_adjacent p1 p2 insertions Hclean _ _ (pi_puts _)).
  now apply (putsIn_adjacent p1 p2 insertions Hclean _ _ (power_puts _)).
Qed.

(** *** The replacements of [preprocess] are benign *)

Lemma inserts_star_benign (w rep s : jsstring) :
  inserts [42%N] w rep s -> benign w rep s.
Proof.
  intros [-> ->]. split; [discriminate|]. split; [reflexivity|].
  split; [reflexivity|]. now left.
Qed.

Lemma power_benign (w rep s : jsstring) :
  replaces [94%N] (js "**") w rep s -> benign w rep s.
Proof.
  intros [-> ->]. split; [discriminate|]. split; [reflexivity|].
  split; [reflexivity|]. now left.
Qed.

Lemma pi_benign (w rep s : jsstring) :
  replaces (js "pi") (js "Math.PI") w rep s -> benign w rep s.
Proof.
  intros [-> ->]. split; [discriminate|]. split; [reflexivity|].
  split; [reflexivity|]. right. left. split; discriminate.
Qed.

Lemma e_benign (w rep s : jsstring) :
  replaces (js "e") (js "Math.E") w rep s -> benign w rep s.
Proof.
  intros [-> ->]. split; [discriminate|]. split; [reflexivity|].
  split; [reflexivity|]. right. left. split; discriminate.
Qed.

Lemma qualifies_benign (w rep s : jsstring) :
  qualifies funcNames w rep s -> benign w rep s.
Proof.
  intros (-> & -> & n & Hn & Hp). split; [discriminate|].
  split; [reflexivity|]. split; [reflexivity|]. right. right.
  assert (Hall : forallb (fun n => negb (startsWith (isChar 120) n)
                                   && negb (str_eqb n [])) funcNames = true)
    by now vm_compute.
  rewrite forallb_forall in Hall. specialize (Hall n Hn).
  apply andb_prop in Hall as [H1 H2].
  destruct n as [|n0 n]; [discriminate|]. destruct s as [|a s]; [reflexivity|].
  cbn [isPrefix] in Hp. apply andb_prop in Hp as [Hp _].
  apply N.eqb_eq in Hp. subst a. cbn in H1. cbn [callsX].
  apply negb_true_iff in H1. now rewrite H1.
Qed.

(** *** The two passes that set the invariants up *)

Lemma insertStar_sets_up (p1 p2 : N -> bool) (s : jsstring) :
  (forall c, p2 c = true -> p1 c = false) ->
  p1 42%N = false -> p2 42%N = false ->
  adjacent p1 p2 (insertStar p1 p2 s) = false.
Proof.
  intros Hdisj H1 H2.
  assert (H : forall n s, (List.length s <= n)%nat ->
            adjacent p1 p2 (insertStar p1 p2 s) = false).
  { clear s. induction n as [|n IH]; intros s Hn.
    - destruct s; [reflexivity | cbn in Hn; lia].
    - rewrite insertStar_unfold. destruct s as [|a [|b rest]].
      + reflexivity.
      + cbn. now rewrite andb_false_r.
      + cbn [List.length] in Hn.
        destruct (p1 a && p2 b)%bool eqn:Em.
        * apply andb_prop in Em as [Ha Hb].
          cbn [adjacent startsWith]. rewrite (Hdisj b Hb), H1, H2.
          rewrite IH by lia. cbn. now rewrite andb_false_r.
        * cbn [adjacent]. rewrite insertStar_head. cbn [startsWith].
          rewrite Em. apply IH. cbn [List.length]. lia. }
  now apply (H (List.length s)).
Qed.

Lemma insertStar_x (s : jsstring) (prev : N) :
  bareX prev (insertStar (isChar 120) letterOrParen s) = false.
Proof.
  assert (H : forall n s prev, (List.length s <= n)%nat ->
            bareX prev (insertStar (isChar 120) letterOrParen s) = false).
  { clear s prev. induction n as [|n IH]; intros s prev Hn.
    - destruct s; [reflexivity | cbn in Hn; lia].
    - rewrite insertStar_unfold. destruct s as [|a [|b rest]].
      + reflexivity.
      + cbn. now rewrite andb_false_r.
      + cbn [List.length] in Hn.
        destruct (isChar 120 a && letterOrParen b)%bool eqn:Em.
        * cbn [bareX callsX startsWith].
          rewrite IH by lia.
          change (letterOrParen 42) with false.
          change (isChar 120 42) with false.
          change (isChar 42 42) with true.
          cbn. now rewrite !andb_false_r.
        * cbn [bareX callsX]. rewrite insertStar_head. cbn [startsWith].
          rewrite Em. apply IH. cbn [List.length]. lia. }
  now apply (H (List.length s)).
Qed.

Lemma preprocess_adjacent (funcStr : jsstring) :
  adjacent isDigit letterOrParen (preprocess funcStr) = false.
Proof.
  unfold preprocess, implicitMultiplication.
  assert (Hclean : forallb (clean isDigit letterOrParen) insertions = true)
    by reflexivity.
  apply (late_passes_keep_apart _ _ _ Hclean).
  do 3 apply (putsIn_adjacent _ _ insertions Hclean _ _ (insertStar_puts _ _ _)).
  apply insertStar_sets_up; [|reflexivity | reflexivity].
  intros c. unfold letterOrParen, isLower, isDigit, isChar, inRange.
  destruct (N.leb_spec 48 c), (N.leb_spec c 57), (N.leb_spec 97 c),
    (N.leb_spec c 122), (N.eqb_spec c 40); cbn; try reflexivity; try lia;
    discriminate.
Qed.

Lemma preprocess_bareX (funcStr : jsstring) (prev : N) :
  bareX prev (preprocess funcStr) = false.
Proof.
  unfold preprocess, implicitMultiplication.
  apply (edited_bareX _ qualifies_benign _ _ (qualify_edited _ _)).
  apply (edited_bareX _ e_benign _ _
           (replaceWord_edited (js "e") (js "Math.E") _ ltac:(discriminate))).
  apply (edited_bareX _ pi_benign _ _
           (replaceWord_edited (js "pi") (js "Math.PI") _
              ltac:(discriminate))).
  apply (edited_bareX _ power_benign _ _ (replaceChar_edited _ _ _)).
  apply insertStar_x.
Qed.

(** *** The star after a digit

    No pass takes a digit away or brings one in, and none touches a [*]
    or puts anything right before one: a digit with a [*] after it keeps
    it to the end, and so do the digits before it. *)

Lemma edited_digits (C : jsstring -> jsstring -> jsstring -> Prop)
  (s out : jsstring) :
  (forall w rep s', C w rep s' -> sparesStars w rep s') ->
  edited C s out -> List.filter isDigit out = List.filter isDigit s.
Proof.
  intros HC. induction 1 as [|c s out E IH|w rep s out Hc E IH].
  - reflexivity.
  - cbn [List.filter]. now rewrite IH.
  - destruct (HC _ _ _ Hc) as (Hw & Hrep & _).
    now rewrite !List.filter_app, Hw, Hrep, IH.
Qed.

Lemma star_stays (C : jsstring -> jsstring -> jsstring -> Prop)
  (v out : jsstring) :
  (forall w rep s', C w rep s' -> sparesStars w rep s') ->
  edited C (42%N :: v) out -> exists v', out = 42%N :: v'.
Proof.
  intros HC E. remember (42%N :: v) as s eqn:Hs.
  destruct E as [|c s out E|w rep s out Hc E]; [discriminate | |].
  - injection Hs as -> _. now exists out.
  - destruct (HC _ _ _ Hc) as (_ & _ & Hhead). now rewrite Hs in Hhead.
Qed.

Lemma digit_split (w s u t : jsstring) (d : N) :
  List.filter isDigit w = [] -> isDigit d = true ->
  w ++ s = u ++ d :: t ->
  exists u0, u = w ++ u0 /\ s = u0 ++ d :: t.
Proof.
  intros Hw Hd. revert u. induction w as [|a w IH]; intros u E.
  - now exists u.
  - cbn [List.filter] in Hw. destruct (isDigit a) eqn:Ha; [discriminate|].
    destruct u as [|b u]; cbn [app] in E; injection E as -> E.
    + congruence.
    + destruct (IH Hw u E) as (u0 & -> & ->). now exists u0.
Qed.

Lemma edited_keeps_star (C : jsstring -> jsstring -> jsstring -> Prop)
  (s out : jsstring) :
  (forall w rep s', C w rep s' -> sparesStars w rep s') ->
  edited C s out ->
  forall u d v, isDigit d = true -> s = u ++ d :: 42%N :: v ->
  exists u' v',
    out = u' ++ d :: 42%N :: v' /\
    List.filter isDigit u' = List.filter isDigit u.
Proof.
  intros HC. induction 1 as [|c s out E IH|w rep s out Hc E IH];
    intros u d v Hd Hs.
  - destruct u; discriminate.
  - destruct u as [|a u]; cbn [app] in Hs; injection Hs as -> ->.
    + destruct (star_stays C v out HC E) as [v' ->]. now exists [], v'.
    + destruct (IH u d v Hd eq_refl) as (u' & v' & -> & F).
      exists (a :: u'), v'. split; [reflexivity|].
      cbn [List.filter]. now rewrite F.
  - destruct (HC _ _ _ Hc) as (Hw & Hrep & _).
    destruct (digit_split w s u (42%N :: v) d Hw Hd Hs) as (u0 & -> & Hs0).
    destruct (IH u0 d v Hd Hs0) as (u' & v' & -> & F).
    exists (rep ++ u'), v'. split; [now rewrite <- app_assoc|].
    now rewrite !List.filter_app, Hw, Hrep, F.
Qed.

Lemma insertStar_separates (p1 p2 : N -> bool) (s : jsstring) :
  edited (separates p2) s (insertStar p1 p2 s).
Proof.
  assert (H : forall n s, (List.length s <= n)%nat ->
            edited (separates p2) s (insertStar p1 p2 s)).
  { clear s. induction n as [|n IH]; intros s Hn.
    - destruct s; [constructor | cbn in Hn; lia].
    - rewrite insertStar_unfold. destruct s as [|a [|b rest]].
      + constructor.
      + repeat constructor.
      + cbn [List.length] in Hn. destruct (p1 a && p2 b)%bool eqn:Em.
        * apply andb_prop in Em as [_ Hb]. apply edited_keep.
          apply (edited_replace _ [] [42%N] (b :: rest)
                   (b :: insertStar p1 p2 rest)); [now repeat split|].
          apply edited_keep. apply IH. lia.
        * apply edited_keep. apply IH. cbn [List.length]. lia. }
  now apply (H (List.length s)).
Qed.

Lemma insertStar_spares (p1 p2 : N -> bool) (s : jsstring) :
  p2 42%N = false -> edited sparesStars s (insertStar p1 p2 s).
Proof.
  intros H42.
  apply (edited_mono (separates p2)); [|apply insertStar_separates].
  intros w rep s' (-> & -> & Hs'). split; [reflexivity|].
  split; [reflexivity|]. destruct s' as [|c s']; [reflexivity|].
  cbn in *. unfold isChar. destruct (N.eqb_spec c 42) as [->|]; congruence.
Qed.

Lemma power_spares (s : jsstring) :
  edited sparesStars s (replaceChar 94 (js "**") s).
Proof.
  apply (edited_mono (replaces [94%N] (js "**"))); [|apply replaceChar_edited].
  intros w rep s' [-> ->]. now repeat split.
Qed.

Lemma word_spares (w rep s : jsstring) :
  w <> [] -> List.filter isDigit w = [] -> List.filter isDigit rep = [] ->
  startsWith (isChar 42) w = false ->
  edited sparesStars s (replaceWord w rep s).
Proof.
  intros Hne Hw Hrep Hhead.
  apply (edited_mono (replaces w rep)); [|now apply replaceWord_edited].
  intros w' rep' s' [-> ->]. split; [exact Hw|]. split; [exact Hrep|].
  destruct w; [contradiction | exact Hhead].
Qed.

Lemma qualify_spares (s : jsstring) :
  edited sparesStars s (qualify funcNames s).
Proof.
  apply (edited_mono (qualifies funcNames)); [|apply qualify_edited].
  intros w rep s' (-> & -> & n & Hin & Hpre). split; [reflexivity|].
  split; [reflexivity|]. cbn [app].
  assert (Hnames : forallb (startsWith isLower) funcNames = true)
    by reflexivity.
  rewrite forallb_forall in Hnames. specialize (Hnames n Hin).
  destruct n as [|c n]; [discriminate|]. cbn in Hnames.
  destruct s' as [|c' s']; [discriminate|]. cbn [isPrefix] in Hpre.
  apply andb_prop in Hpre as [Hc _]. apply N.eqb_eq in Hc. subst c'.
  cbn. unfold isChar. destruct (N.eqb_spec c 42) as [->|]; [|reflexivity].
  discriminate.
Qed.

Lemma letterOrParen_not_digit (c : N) :
  letterOrParen c = true -> isDigit c = false.
Proof.
  intros Hc. unfold letterOrParen in Hc.
  apply orb_true_iff in Hc as [Hc | Hc].
  - unfold isLower, isDigit, inRange in *.
    apply andb_true_iff in Hc as [Hc _]. apply N.leb_le in Hc.
    apply andb_false_iff. right. apply N.leb_gt. lia.
  - unfold isChar in Hc. apply N.eqb_eq in Hc. now subst c.
Qed.

(** The first pass puts the star in, and leaves the digits before it as
    they are. *)
Lemma first_pass_star (pre post : jsstring) (d l : N) :
  isDigit d = true -> letterOrParen l = true ->
  exists pre' rest,
    insertStar isDigit letterOrParen (pre ++ d :: l :: post)
    = pre' ++ d :: 42%N :: rest /\
    List.filter isDigit pre' = List.filter isDigit pre.
Proof.
  intros Hd Hl.
  destruct (insertStar_between isDigit letterOrParen letterOrParen_not_digit
              pre d l post Hd Hl) as [pre' E].
  exists pre', (l :: insertStar isDigit letterOrParen post).
  split; [exact E|].
  assert (Hspares : forall s,
            List.filter isDigit (insertStar isDigit letterOrParen s)
            = List.filter isDigit s).
  { intros s. apply (edited_digits sparesStars); [auto|].
    now apply insertStar_spares. }
  pose proof (Hspares (pre ++ d :: l :: post)) as F. rewrite E in F.
  rewrite !List.filter_app in F. cbn [List.filter] in F.
  rewrite Hd, (letterOrParen_not_digit l Hl), Hspares in F.
  now apply app_inv_tail in F.
Qed.

(** C5. [parseFunction] inserts [*] between a digit and a letter or [(]
    that follows it. In the text it hands to the host no digit is left
    right before a lower-case letter or [(]; and where the input, in
    lower case and without white space, has a digit right before a
    lower-case letter or [(], that digit (the one after the same digits)
    has a [*] right after it in the text handed to the host. It is the
    first pass that puts the [*] there. So [2x] becomes [2*x] and the
    compiled function returns 6 at 3; the function compiled for [sin(x)]
    returns 0 at 0. *)
Theorem parseFunction_implicit_multiplication :
  (forall funcStr,
     adjacent isDigit letterOrParen (preprocess funcStr) = false) /\
  (forall funcStr pre d l post,
     isDigit d = true -> letterOrParen l = true ->
     removeAll isWhiteSpace (toLowerCase funcStr) = pre ++ d :: l :: post ->
     exists pre' post',
       preprocess funcStr = pre' ++ d :: 42%N :: post' /\
       List.filter isDigit pre' = List.filter isDigit pre) /\
  (forall pre d l post,
     isDigit d = true -> letterOrParen l = true ->
     exists pre',
       insertStar isDigit letterOrParen (pre ++ d :: l :: post)
       = pre' ++ d :: 42%N :: l :: insertStar isDigit letterOrParen post) /\
  preprocess (js "2x") = js "2*x" /\
  preprocess (js "2sin(") = js "2*FN.sin(" /\
  preprocess (js "3(") = js "3*(" /\
  (exists f, parseFunction (js "2x") = Compiled f /\
             f (ofZ 3) = Normal (VNum (ofZ 6))) /\
  (exists f, parseFunction (js "sin(x)") = Compiled f /\
             f (ofZ 0) = Normal (VNum (ofZ 0))).
Proof.
  split; [exact preprocess_adjacent|].
  split.
  { intros funcStr pre d l post Hd Hl Hclean.
    unfold preprocess, implicitMultiplication. rewrite Hclean.
    destruct (first_pass_star pre post d l Hd Hl) as (u1 & v1 & -> & F1).
    rewrite <- F1.
    assert (Hkeep : forall f : jsstring -> jsstring,
              (forall s, edited sparesStars s (f s)) ->
              forall s u,
                (exists u' v', s = u' ++ d :: 42%N :: v' /\
                   List.filter isDigit u' = List.filter isDigit u) ->
                exists u' v', f s = u' ++ d :: 42%N :: v' /\
                   List.filter isDigit u' = List.filter isDigit u).
    { intros f Hf s u (u' & v' & Hs & F).
      destruct (edited_keeps_star sparesStars s (f s) (fun _ _ _ H => H)
                  (Hf s) u' d v' Hd Hs) as (u'' & v'' & E & F').
      exists u'', v''. split; [exact E | congruence]. }
    apply (Hkeep (qualify funcNames) qualify_spares).
    apply (Hkeep (replaceWord (js "e") (js "Math.E"))).
    { intros s. now apply word_spares. }
    apply (Hkeep (replaceWord (js "pi") (js "Math.PI"))).
    { intros s. now apply word_spares. }
    apply (Hkeep (replaceChar 94 (js "**")) power_spares).
    apply (Hkeep (insertStar (isChar 120) letterOrParen)).
    { intros s. now apply insertStar_spares. }
    apply (Hkeep (insertStar (isChar 120) isDigit)).
    { intros s. now apply insertStar_spares. }
    apply (Hkeep (insertStar (isChar 41)
                    (fun c => isLower c || isDigit c || isChar 40 c)%bool)).
    { intros s. now apply insertStar_spares. }
    now exists u1, v1. }
  split.
  { apply insertStar_between. exact letterOrParen_not_digit. }
  split; [reflexivity|]. split; [reflexivity|]. split; [reflexivity|].
  split; apply sample_Some; vm_compute; reflexivity.
Qed.

(** In [X + 2 Sin(x)] the digit [2], the first one, gets its star. *)
Lemma parseFunction_implicit_multiplication_witness :
  (exists pre' post',
     preprocess (js "X + 2 Sin(x)") = pre' ++ 50%N :: 42%N :: post' /\
     List.filter isDigit pre' = []) /\
  preprocess (js "X + 2 Sin(x)") = js "x+2*FN.sin(x)".
Proof.
  split; [|reflexivity].
  apply (proj1 (proj2 parseFunction_implicit_multiplication)
           (js "X + 2 Sin(x)") (js "x+") 50%N 115%N (js "in(x)"));
    reflexivity.
Defined.

(** X16. In the text that [parseFunction] hands to the host, whatever
    the input: no digit stands right before a lower-case letter or [(];
    no [)] stands right before a lower-case letter, a digit or [(]; no
    [x] stands right before a digit; and an [x] stands right before a
    lower-case letter or [(] only right after a [*]. *)
Theorem preprocess_implicit_multiplication (funcStr : jsstring) :
  adjacent isDigit letterOrParen (preprocess funcStr) = false /\
  adjacent (isChar 41) afterParen (preprocess funcStr) = false /\
  adjacent (isChar 120) isDigit (preprocess funcStr) = false /\
  bareX 0 (preprocess funcStr) = false.
Proof.
  split; [apply preprocess_adjacent|].
  split; [|split; [|apply preprocess_bareX]].
  - unfold preprocess, implicitMultiplication.
    assert (Hclean : forallb (clean (isChar 41) afterParen) insertions = true)
      by reflexivity.
    apply (late_passes_keep_apart _ _ _ Hclean).
    do 2 apply (putsIn_adjacent _ _ insertions Hclean _ _
                  (insertStar_puts _ _ _)).
    apply (insertStar_sets_up (isChar 41) afterParen);
      [|reflexivity | reflexivity].
    intros c. unfold afterParen, isLower, isDigit, isChar, inRange.
    destruct (N.eqb_spec c 41) as [->|]; [discriminate | reflexivity].
  - unfold preprocess, implicitMultiplication.
    assert (Hclean : forallb (clean (isChar 120) isDigit) insertions = true)
      by reflexivity.
    apply (late_passes_keep_apart _ _ _ Hclean).
    apply (putsIn_adjacent _ _ insertions Hclean _ _ (insertStar_puts _ _ _)).
    apply insertStar_sets_up; [|reflexivity | reflexivity].
    intros c. unfold isDigit, isChar, inRange.
    destruct (N.eqb_spec c 120) as [->|]; [discriminate | reflexivity].
Qed.

(** X17. The text that [parseFunction] hands to the host never contains
    [exp], [max(], [log10(] or [log2(]: the passes for implicit
    multiplication put a [*] after the [x] and after the digit. So the
    entries [exp], [max], [log10] and [log2] of the function table are
    never called. *)
Theorem preprocess_never_calls (funcStr pre post : jsstring) :
  preprocess funcStr <> pre ++ js "exp" ++ post /\
  preprocess funcStr <> pre ++ js "max(" ++ post /\
  preprocess funcStr <> pre ++ js "log10(" ++ post /\
  preprocess funcStr <> pre ++ js "log2(" ++ post.
Proof.
  pose proof (preprocess_adjacent funcStr) as HA.
  pose proof (preprocess_bareX funcStr 0%N) as HB.
  repeat split; intros E; rewrite E in HA, HB.
  - apply bareX_suffix in HB. vm_compute in HB. discriminate.
  - apply bareX_suffix in HB. vm_compute in HB. discriminate.
  - apply adjacent_suffix in HA. vm_compute in HA. discriminate.
  - apply adjacent_suffix in HA. vm_compute in HA. discriminate.
Qed.

(** ** The scientific evaluator's character check *)

Lemma replaceChar_keeps (c d : N) (rep s : jsstring) :
  c <> d -> In c s -> In c (replaceChar d rep s).
Proof.
  intros Hne Hin. unfold replaceChar. apply in_flat_map. exists c.
  split; [exact Hin|]. destruct (N.eqb_spec c d); [contradiction | now left].
Qed.

Lemma replaceAlt_keeps (c : N) (alts : list jsstring) (rep s : jsstring) :
  (forall a, In a alts -> ~ In c a) -> In c s -> In c (replaceAlt alts rep s).
Proof.
  intros Halts.
  apply (edited_keeps _ c _ _) with (2 := replaceAlt_edited alts rep s).
  intros w rep' s' [Hw _]. apply filter_In in Hw as [Hw _]. now apply Halts.
Qed.

(** X18. [evaluateScientific] returns [null], in either angle mode, for
    every expression that holds a code unit outside the class
    [[0-9+\-*/().\s%a-z]] other than [^], the letter pi and the capitals
    [M], [P], [I], [E] of [Math.PI] and [Math.E]. *)
Theorem evaluateScientific_allow_list (expression : jsstring) (isDeg : bool)
  (c : N) :
  In c expression -> scientificChar c = false ->
  ~ In c [94; 960; 77; 80; 73; 69]%N ->
  evaluateScientific expression isDeg = Returns VNull.
Proof.
  intros Hin Hc Hnot. unfold evaluateScientific.
  assert (Hinv : invalidScientific (sanitizeScientific expression) = true);
    [|now rewrite Hinv].
  unfold invalidScientific, testAny. apply existsb_exists. exists c.
  split; [|now rewrite Hc].
  assert (Hne : forall d, In d [94; 960; 77; 80; 73; 69]%N -> c <> d)
    by (intros d Hd ->; contradiction).
  assert (He : c <> 101%N) by (intros ->; discriminate).
  apply replaceAlt_keeps.
  - intros a Ha F.
    assert (Hall : forallb
                     (fun a => forallb (fun d => scientificChar d
                                                 || oneOf [77; 80; 73; 69]%N d) a)
                     [js "Math.PI"; js "Math.E"] = true) by now vm_compute.
    rewrite forallb_forall in Hall. specialize (Hall a Ha).
    rewrite forallb_forall in Hall. specialize (Hall c F).
    rewrite Hc in Hall. cbn [orb] in Hall. unfold oneOf in Hall.
    apply existsb_exists in Hall as (d & Hd & E). apply N.eqb_eq in E.
    subst d. apply Hnot. cbn in Hd |- *. tauto.
  - unfold sanitizeScientific.
    apply replaceChar_keeps; [exact He|].
    apply replaceChar_keeps; [apply Hne; cbn; tauto|].
    apply replaceChar_keeps; [apply Hne; cbn; tauto|].
    exact Hin.
Qed.

Lemma evaluateScientific_allow_list_witness :
  evaluateScientific (js "sin(30);alert(1)") true = Returns VNull.
Proof.
  apply (evaluateScientific_allow_list _ true 59%N);
    [vm_compute; tauto | reflexivity |].
  intros H. cbn in H. repeat (destruct H as [H|H]; [discriminate|]). exact H.
Defined.

(** ** The factorial *)

Lemma factorial_finite_table :
  forallb (fun k => finiteValue (factorial (ofZ (Z.of_nat k)))) (seq 0 171) = true.
Proof. now vm_compute. Qed.

Lemma factorial_exact_table :
  Forall (fun k => factorial (ofZ (Z.of_nat k))
                   = Some (ofZ (factorialOf (Z.of_nat k))) /\
                   toZ (ofZ (factorialOf (Z.of_nat k)))
                   = factorialOf (Z.of_nat k))
    (seq 0 23).
Proof. repeat (constructor; [split; now vm_compute|]). constructor. Qed.

(** X19. [factorial] returns a finite number for every integer from 0
    to 170, the exact factorial up to 22 and not at 23, [Infinity] for
    every integer from 171 to 2^53 - 1, and NaN for every number that is
    not an integer. *)
Theorem factorial_range :
  (forall n, 0 <= n <= 170 ->
     exists v, factorial (ofZ n) = Some v /\ isFinite v = true) /\
  (forall n, 0 <= n <= 22 ->
     factorial (ofZ n) = Some (ofZ (factorialOf n)) /\
     toZ (ofZ (factorialOf n)) = factorialOf n) /\
  (exists v, factorial (ofZ 23) = Some v /\ toZ v <> factorialOf 23) /\
  (forall n, 171 <= n < 2 ^ 53 -> factorial (ofZ n) = Some infinity) /\
  (forall x, isInteger x = false -> factorial x = Some nan).
Proof.
  split; [|split; [|split; [|split]]].
  - intros n Hn.
    pose proof factorial_finite_table as T. rewrite forallb_forall in T.
    assert (Hin : In (Z.to_nat n) (seq 0 171)) by (apply in_seq; lia).
    specialize (T _ Hin). rewrite Z2Nat.id in T by lia.
    unfold finiteValue in T.
    destruct (factorial (ofZ n)) as [v|]; [now exists v | discriminate].
  - intros n Hn.
    pose proof factorial_exact_table as T. rewrite Forall_forall in T.
    assert (Hin : In (Z.to_nat n) (seq 0 23)) by (apply in_seq; lia).
    specialize (T _ Hin). rewrite Z2Nat.id in T by lia. exact T.
  - eexists. split; [reflexivity|]. now vm_compute.
  - intros n Hn. unfold factorial.
    assert (Hn' : 1 <= n < 2 ^ 53) by lia.
    rewrite (ofZ_isInteger n Hn').
    assert (H0 : lt (ofZ n) (ofZ 0) = false).
    { destruct (ofZ_exact n Hn') as (M & e & -> & _). reflexivity. }
    rewrite H0. cbn [negb orb]. unfold gt.
    change (SFltb (ofZ 170) (ofZ n)) with (lt (ofZ 170) (ofZ n)).
    rewrite ofZ_lt by (try assumption; now vm_compute).
    replace (170 <? n) with true by (symmetry; apply Z.ltb_lt; lia).
    reflexivity.
  - intros x Hx. unfold factorial. rewrite Hx. cbn [negb].
    now rewrite orb_true_r.
Qed.

Lemma factorial_range_witness :
  (exists v, factorial (ofZ 100) = Some v /\ isFinite v = true) /\
  factorial (ofZ 10) = Some (ofZ 3628800) /\
  factorial (ofZ 200) = Some infinity /\
  factorial (div (ofZ 1) (ofZ 2)) = Some nan.
Proof.
  destruct factorial_range as (Hfinite & Hexact & _ & Hlarge & Hfraction).
  split; [apply Hfinite; lia|].
  split; [apply (Hexact 10); lia|].
  split; [apply Hlarge; vm_compute; split; [discriminate | reflexivity]|].
  apply Hfraction. reflexivity.
Defined.

(** ** The quadratic solver on NaN *)

(** X20. When a coefficient is NaN, and [a] does not compare equal to
    zero, [solveQuadratic] throws nothing: the discriminant is NaN and
    the roots are reported as complex. *)
Theorem solveQuadratic_nan (P : platform) (a b c : num) :
  eq a (ofZ 0) = false -> a = nan \/ b = nan \/ c = nan ->
  exists s, solveQuadratic P a b c = Ok s /\
            type s = complex /\ discriminant s = nan.
Proof.
  intros Ha Hnan. unfold solveQuadratic. rewrite Ha.
  assert (Hd : sub (mul b b) (mul (mul four a) c) = nan).
  { destruct Hnan as [-> | [-> | ->]].
    - now destruct (mul b b), c.
    - reflexivity.
    - now destruct (mul b b), (mul four a). }
  rewrite Hd. cbn [gt eq]. eexists. split; [reflexivity|]. now split.
Qed.

Lemma solveQuadratic_nan_witness :
  exists s, solveQuadratic samplePlatform (ofZ 1) nan (ofZ 1) = Ok s /\
            type s = complex /\ discriminant s = nan.
Proof.
  apply solveQuadratic_nan; [reflexivity | right; now left].
Defined.

(** ** The divisors shown with a factorisation *)

(** The IEEE square root of an integer below 2^53 is at least [i] only
    for an [i] whose square exceeds the integer by less than four. *)
Lemma ieee_sqrt_tight (i m : Z) :
  1 <= i < 2 ^ 53 -> 1 <= m < 2 ^ 53 ->
  SFleb (ofZ i) (sqrt (ofZ m)) = true -> i * i <= m + 3.
Proof.
  intros Hi Hm Htest.
  assert (Hsmall : i < 2 ^ 27).
  { pose proof (proj2 (ieee_sqrt_accurate i m Hi Hm) Htest) as H.
    change (2 ^ 53) with 9007199254740992 in *.
    change (2 ^ 27) with 134217728. nia. }
  revert Htest.
  destruct (ofZ_exact i Hi) as (Mi & ei & -> & HdMi & Hei & HMi).
  destruct (ofZ_exact m Hm) as (M & e & -> & HdM & He & HM).
  destruct (sqrt_53 M e HdM He)
    as (Q & e2 & e' & -> & HdQ & He2 & He' & Hs & Hval).
  cbv zeta in Hval.
  rewrite (SFleb_53 Mi Q ei e2 HdMi HdQ) by lia.
  set (t := 2 ^ (- e')).
  set (T := 2 ^ (e' + 1074)) in *.
  assert (Ht : 2 ^ 26 <= t).
  { unfold t. apply Z.pow_le_mono_r; lia. }
  assert (HT : 0 < T) by (apply Z.pow_pos_nonneg; lia).
  assert (HtT : t * T = 2 ^ 1074).
  { unfold t, T. rewrite <- Z.pow_add_r by lia. f_equal. lia. }
  assert (Hleft : Z.pos Mi * 2 ^ (ei + 1074) = i * t * T).
  { rewrite HMi, <- Z.mul_assoc, <- Z.pow_add_r by lia.
    replace (- ei + (ei + 1074)) with 1074 by lia.
    rewrite <- Z.mul_assoc, HtT. reflexivity. }
  assert (Hm' : Z.pos M * 2 ^ (e - 2 * e') = m * (t * t)).
  { rewrite HM, <- Z.mul_assoc, <- Z.pow_add_r by lia.
    unfold t. rewrite <- Z.pow_add_r by lia. f_equal. f_equal. lia. }
  rewrite Hm' in Hval. rewrite Hleft.
  set (q := Z.sqrt (m * (t * t))) in *.
  assert (Hq : q * q <= m * (t * t) < (q + 1) * (q + 1)).
  { pose proof (Z.sqrt_spec (m * (t * t)) ltac:(nia)) as H.
    fold q in H. unfold Z.succ in H. exact H. }
  assert (Hq0 : 0 <= q) by apply Z.sqrt_nonneg.
  intros Hle. apply Z.leb_le in Hle.
  assert (Hit : i * t <= q + 1).
  { apply Z.mul_le_mono_pos_r with T; [exact HT | lia]. }
  change (2 ^ 26) with 67108864 in Ht.
  change (2 ^ 27) with 134217728 in Hsmall.
  assert (H0 : 1 <= i * t) by nia.
  assert (H1 : (i * t - 1) * (i * t - 1) <= q * q).
  { apply Z.mul_le_mono_nonneg; lia. }
  assert (H2 : i * i * (t * t) <= m * (t * t) + 2 * (i * t)).
  { replace (i * i * (t * t)) with ((i * t - 1) * (i * t - 1) + 2 * (i * t) - 1)
      by ring. lia. }
  assert (H3 : 2 * (i * t) < 4 * (t * t)).
  { assert (i * t < 2 * t * t); [|lia].
    rewrite <- Z.mul_assoc. rewrite (Z.mul_comm 2 (t * t)), <- Z.mul_assoc.
    rewrite (Z.mul_comm i t). apply Z.mul_lt_mono_pos_l; lia. }
  assert (H4 : i * i * (t * t) < (m + 4) * (t * t)).
  { rewrite Z.mul_add_distr_r. lia. }
  assert (i * i < m + 4); [|lia].
  apply Z.mul_lt_mono_pos_r with (t * t); [nia | exact H4].
Qed.

Lemma divisor_pair (num d : Z) :
  1 <= num -> 1 <= d -> (d | num) ->
  d * (num / d) = num /\ 1 <= num / d /\ (num / d | num) /\
  num / (num / d) = d.
Proof.
  intros Hn Hd [k Hk]. subst num.
  rewrite Z.div_mul by lia.
  assert (1 <= k) by nia.
  repeat split; try lia.
  - exists d. lia.
  - rewrite Z.mul_comm. apply Z.div_mul. lia.
Qed.

Section AllFactors.

Variable P : platform.
Variable num : Z.
Hypothesis HP : host_sqrt P = sqrt.
Hypothesis Hnum : 1 <= num < 2 ^ 53.

(** The loop test at a divisor is exact. *)
Lemma test_divisor (i : Z) :
  1 <= i < 2 ^ 53 -> SFleb (ofZ i) (host_sqrt P (ofZ num)) = true -> (i | num) -> i * i <= num.
Proof using HP Hnum.
  intros Hi Ht Hdiv. rewrite HP in Ht.
  pose proof (ieee_sqrt_tight i num Hi Hnum Ht) as Htight.
  destruct (divisor_pair num i) as (Hk & Hk1 & _ & _); [lia | lia | exact Hdiv |].
  set (k := num / i) in *.
  destruct (Z_le_gt_dec i k) as [L|G]; [nia|].
  assert (Hi3 : i <= 3) by nia.
  assert (Hcases : (i = 2 /\ num = 2) \/ (i = 3 /\ num = 3) \/ (i = 3 /\ num = 6))
    by nia.
  destruct Hcases as [[-> ->] | [[-> ->] | [-> ->]]]; vm_compute in Ht;
    discriminate.
Qed.

Lemma collected_step (i : Z) (factors : list Z) :
  1 <= i < 2 ^ 53 -> SFleb (ofZ i) (host_sqrt P (ofZ num)) = true -> collected num i factors ->
  collected num (i + 1)
    (if Z.rem num i =? 0
     then if negb (i =? Z.quot num i)
          then factors ++ [i; Z.quot num i]
          else factors ++ [i]
     else factors).
Proof using HP Hnum.
  intros Hi Ht (ND & Hin & Hsq).
  rewrite Z.quot_div_nonneg by lia.
  destruct (Z.eqb_spec (Z.rem num i) 0) as [Hr|Hr].
  - assert (Hdiv : (i | num)) by (apply Z.rem_divide; [lia | exact Hr]).
    pose proof (test_divisor i Hi Ht Hdiv) as Hle.
    destruct (divisor_pair num i) as (Hk & Hk1 & Hkd & Hkk);
      [lia | lia | exact Hdiv |].
    set (k := num / i) in *.
    assert (Hik : i <= k) by nia.
    assert (Hnot_i : ~ In i factors).
    { intros H. apply Hin in H. fold k in H. lia. }
    assert (Hnot_k : ~ In k factors).
    { intros H. apply Hin in H. rewrite Hkk in H. lia. }
    assert (Hsq' : forall j, 1 <= j < i + 1 -> (j | num) -> j * j <= num).
    { intros j Hj Hjd. destruct (Z.eq_dec j i) as [->|]; [exact Hle|].
      apply Hsq; [lia | exact Hjd]. }
    assert (Hmem : forall d, 1 <= d -> (d | num) ->
              (d < i + 1 \/ num / d < i + 1) <->
              (d < i \/ num / d < i) \/ d = i \/ d = k).
    { intros d Hd Hdd.
      destruct (divisor_pair num d) as (Hq & Hq1 & _ & Hqq);
        [lia | lia | exact Hdd |].
      split.
      - intros [H|H].
        + destruct (Z.eq_dec d i); [now right; left | left; left; lia].
        + destruct (Z.eq_dec (num / d) i) as [E|E]; [|left; right; lia].
          right. right. unfold k. rewrite <- E. symmetry. exact Hqq.
      - intros [[H|H] | [-> | ->]]; [left; lia | right; lia | left; lia |].
        right. rewrite Hkk. lia. }
    destruct (Z.eqb_spec i k) as [E|E]; cbn [negb].
    + split; [|split; [|exact Hsq']].
      * apply NoDup_app; [exact ND | repeat constructor; now intros [] |].
        intros x Hx [<-|[]]. now apply Hnot_i.
      * intros d. split.
        -- intros H. apply in_app_or in H. destruct H as [H|[<-|[]]].
           ++ apply Hin in H. destruct H as (H1 & H2 & H3).
              split; [exact H1|]. split; [exact H2|]. lia.
           ++ split; [lia|]. split; [exact Hdiv|]. lia.
        -- intros (H1 & H2 & H3). apply in_or_app.
           apply (Hmem d H1 H2) in H3. destruct H3 as [H3 | [-> | ->]].
           ++ left. apply Hin. tauto.
           ++ right. now left.
           ++ right. left. exact E.
    + split; [|split; [|exact Hsq']].
      * apply NoDup_app; [exact ND | |].
        -- apply NoDup_cons; [|repeat constructor; now intros []].
           intros [H|[]]. now apply E.
        -- intros x Hx [<-|[<-|[]]]; [now apply Hnot_i | now apply Hnot_k].
      * intros d. split.
        -- intros H. apply in_app_or in H. destruct H as [H|[<-|[<-|[]]]].
           ++ apply Hin in H. destruct H as (H1 & H2 & H3).
              split; [exact H1|]. split; [exact H2|]. lia.
           ++ split; [lia|]. split; [exact Hdiv|]. lia.
           ++ split; [lia|]. split; [exact Hkd|]. right. rewrite Hkk. lia.
        -- intros (H1 & H2 & H3). apply in_or_app.
           apply (Hmem d H1 H2) in H3. destruct H3 as [H3 | [-> | ->]].
           ++ left. apply Hin. tauto.
           ++ right. now left.
           ++ right. right. now left.
  - assert (Hdiv : ~ (i | num)).
    { intros H. apply Hr. apply Z.rem_divide; [lia | exact H]. }
    split; [exact ND|]. split.
    + intros d. split.
      * intros H. apply Hin in H. destruct H as (H1 & H2 & H3).
        split; [exact H1|]. split; [exact H2|]. lia.
      * intros (H1 & H2 & H3). apply Hin. split; [exact H1|].
        split; [exact H2|].
        destruct (divisor_pair num d) as (Hq & Hq1 & Hqd & Hqq);
          [lia | lia | exact H2 |].
        destruct H3 as [H3|H3].
        -- destruct (Z.eq_dec d i) as [->|]; [contradiction | left; lia].
        -- destruct (Z.eq_dec (num / d) i) as [E|]; [|right; lia].
           exfalso. apply Hdiv. rewrite <- E. exact Hqd.
    + intros j Hj Hjd. destruct (Z.eq_dec j i) as [->|]; [contradiction|].
      apply Hsq; [lia | exact Hjd].
Qed.

Lemma factorLoop_runs (fuel : nat) (i : Z) (factors : list Z) :
  1 <= i -> (i - 1) * (i - 1) <= num + 3 ->
  num + 3 - i <= Z.of_nat fuel ->
  collected num i factors ->
  exists K result,
    factorLoop P fuel i num factors = Some result /\
    collected num K result /\ 1 <= K /\ num < K * K.
Proof using HP Hnum.
  revert i factors.
  induction fuel as [|fuel IH]; intros i factors Hi HB Hfuel Hc.
  - exfalso. change (2 ^ 53) with 9007199254740992 in Hnum. nia.
  - assert (Hi53 : 1 <= i < 2 ^ 53).
    { change (2 ^ 53) with 9007199254740992 in *. nia. }
    cbn [factorLoop].
    destruct (SFleb (ofZ i) (host_sqrt P (ofZ num))) eqn:Ht.
    + pose proof Ht as Ht'. rewrite HP in Ht'.
      pose proof (ieee_sqrt_tight i num Hi53 Hnum Ht') as Htight.
      apply IH; [lia | | lia |].
      * replace (i + 1 - 1) with i by lia. exact Htight.
      * now apply collected_step.
    + exists i, factors. split; [reflexivity|]. split; [exact Hc|].
      split; [lia|].
      destruct (Z_lt_le_dec num (i * i)) as [L|G]; [exact L|exfalso].
      rewrite HP in Ht.
      rewrite (proj1 (ieee_sqrt_accurate i num Hi53 Hnum) G) in Ht.
      discriminate.
Qed.

End AllFactors.

Lemma Sorted_le_NoDup_lt (l : list Z) :
  Sorted Z.le l -> NoDup l -> StronglySorted Z.lt l.
Proof.
  intros S ND. apply Sorted_StronglySorted in S; [|intros x y z; lia].
  induction S as [|a l S IH F]; [constructor|].
  apply NoDup_cons_iff in ND. destruct ND as [Ha ND].
  constructor; [now apply IH|].
  rewrite Forall_forall in *. intros x Hx. specialize (F x Hx).
  assert (a <> x) by (intros ->; now apply Ha).
  lia.
Qed.

(** The loop started as [getAllFactors] starts it ends with every
    divisor, each of them once. *)
Lemma factorLoop_divisors (P : platform) (num : Z) :
  host_sqrt P = sqrt -> 1 <= num < 2 ^ 53 ->
  exists result,
    factorLoop P (Z.to_nat num + 2) 1 num [] = Some result /\
    NoDup result /\
    forall d, In d result <-> 1 <= d /\ (d | num).
Proof.
  intros HP Hnum.
  assert (A1 : 1 <= 1) by lia.
  assert (A2 : (1 - 1) * (1 - 1) <= num + 3) by (cbn; lia).
  assert (A3 : num + 3 - 1 <= Z.of_nat (Z.to_nat num + 2)).
  { rewrite Nat2Z.inj_add, Z2Nat.id by lia. cbn. lia. }
  destruct (factorLoop_runs P num HP Hnum (Z.to_nat num + 2) 1 [] A1 A2 A3)
    as (K & result & E & (ND & Hin & _) & HK1 & HK).
  { split; [constructor|]. split; [|intros j Hj; lia].
    intros d. split; [now intros []|].
    intros (H1 & H2 & [H|H]); [lia|].
    destruct (divisor_pair num d) as (_ & Hq & _); [lia | lia | exact H2 | lia]. }
  exists result. split; [exact E|]. split; [exact ND|].
  intros d. rewrite Hin.
  split; [tauto|]. intros (H1 & H2). split; [exact H1|]. split; [exact H2|].
  destruct (divisor_pair num d) as (Hq & Hq1 & _ & _); [lia | lia | exact H2 |].
  destruct (Z_lt_le_dec d K) as [L|G]; [now left|]. right.
  destruct (Z_lt_le_dec (num / d) K) as [L'|G']; [exact L'|]. nia.
Qed.

Lemma sortAscending_In (l : list Z) (d : Z) :
  In d (sortAscending l) <-> In d l.
Proof.
  assert (Hperm : merge_sort Z.le l ≡ₚ l) by apply merge_sort_Permutation.
  split; apply Permutation.Permutation_in;
    [exact Hperm | exact (Permutation.Permutation_sym Hperm)].
Qed.

Lemma sortAscending_NoDup (l : list Z) : NoDup l -> NoDup (sortAscending l).
Proof.
  apply Permutation.Permutation_NoDup, Permutation.Permutation_sym.
  apply merge_sort_Permutation.
Qed.

(** X21. With the IEEE square root for [Math.sqrt], [getAllFactors]
    returns, for every integer from 1 to 2^53 - 1, the divisors of the
    integer in ascending order, each of them once. *)
Theorem getAllFactors_divisors (P : platform) (num : Z) :
  host_sqrt P = sqrt -> 1 <= num < 2 ^ 53 ->
  exists factors,
    getAllFactors P num = Ok factors /\
    StronglySorted Z.lt factors /\
    forall d, In d factors <-> 1 <= d /\ (d | num).
Proof.
  intros HP Hnum. unfold getAllFactors.
  destruct (factorLoop_divisors P num HP Hnum) as (result & -> & ND & Hin).
  exists (sortAscending result). split; [reflexivity|]. split.
  - apply Sorted_le_NoDup_lt; [|now apply sortAscending_NoDup].
    apply Sorted_merge_sort. intros x y. lia.
  - intros d. now rewrite sortAscending_In.
Qed.

Lemma getAllFactors_divisors_witness :
  exists factors,
    getAllFactors samplePlatform 12 = Ok factors /\
    StronglySorted Z.lt factors /\
    forall d, In d factors <-> 1 <= d /\ (d | 12).
Proof.
  apply (getAllFactors_divisors samplePlatform 12 eq_refl).
  vm_compute. split; [discriminate | reflexivity].
Defined.

Lemma StronglySorted_lt_NoDup (l : list Z) : StronglySorted Z.lt l -> NoDup l.
Proof.
  induction 1 as [|a l S IH F]; constructor; [|exact IH].
  intros Hin. rewrite Forall_forall in F. specialize (F a Hin). lia.
Qed.

Lemma StronglySorted_lt_nth (l : list Z) (i j : nat) :
  StronglySorted Z.lt l -> (i <= j)%nat -> (j < List.length l)%nat ->
  nth i l 0 <= nth j l 0.
Proof.
  intros S. revert i j. induction S as [|a l S IH F]; intros i j Hij Hj.
  - cbn in Hj. lia.
  - destruct i as [|i], j as [|j]; cbn in *; try lia.
    + rewrite Forall_forall in F.
      assert (a < nth j l 0) by (apply F, nth_In; lia). lia.
    + apply IH; lia.
Qed.

Lemma StronglySorted_snoc (k : list Z) (y : Z) :
  StronglySorted Z.lt k -> Forall (fun x => x < y) k ->
  StronglySorted Z.lt (k ++ [y]).
Proof.
  intros Sk. induction Sk as [|c k Sk IHk Fk]; intros Hk; cbn.
  - repeat constructor.
  - apply Forall_cons_1 in Hk as [Hc Hk]. constructor; [now apply IHk|].
    apply Forall_app. split; [exact Fk | now repeat constructor].
Qed.

Lemma cofactors_sorted (num : Z) (l : list Z) :
  1 <= num -> StronglySorted Z.lt l ->
  (forall d, In d l -> 1 <= d /\ (d | num)) ->
  StronglySorted Z.lt (List.map (fun d => num / d) (rev l)).
Proof.
  intros Hnum S. induction S as [|a l S IH F]; intros Hin; [constructor|].
  cbn [rev]. rewrite map_app. cbn [List.map].
  assert (Hin' : forall d, In d l -> 1 <= d /\ (d | num))
    by (intros d Hd; apply Hin; now right).
  apply StronglySorted_snoc; [now apply IH|].
  rewrite Forall_map, Forall_forall. intros d Hd.
  apply in_rev in Hd. rewrite Forall_forall in F.
  specialize (F d Hd). destruct (Hin' d Hd) as [Hd1 Hdd].
  destruct (Hin a (or_introl eq_refl)) as [Ha1 Had].
  destruct (divisor_pair num d) as (Hq & Hq1 & _); try assumption.
  destruct (divisor_pair num a) as (Hp & Hp1 & _); try assumption.
  nia.
Qed.

(** The ascending list of the divisors, read from the end, is the list of
    their cofactors. *)
Lemma divisors_mirror (num : Z) (l : list Z) :
  1 <= num -> StronglySorted Z.lt l ->
  (forall d, In d l <-> 1 <= d /\ (d | num)) ->
  forall i, (i < List.length l)%nat ->
    nth i l 0 * nth (List.length l - 1 - i) l 0 = num.
Proof.
  intros Hnum S Hin i Hi.
  set (m := List.map (fun d => num / d) (rev l)).
  assert (Hm : StronglySorted Z.lt m).
  { apply cofactors_sorted; [exact Hnum | exact S |]. intros d Hd. now apply Hin. }
  assert (Hsame : forall x, In x m <-> In x l).
  { intros x. unfold m. rewrite in_map_iff. split.
    - intros (d & <- & Hd). apply in_rev in Hd. apply Hin in Hd as [Hd1 Hdd].
      apply Hin. destruct (divisor_pair num d) as (_ & Hq1 & Hqd & _);
        try assumption. split; assumption.
    - intros Hx. apply Hin in Hx as [Hx1 Hxd].
      destruct (divisor_pair num x) as (_ & Hq1 & Hqd & Hqq); try assumption.
      exists (num / x). split; [exact Hqq|].
      apply in_rev. rewrite rev_involutive. apply Hin. split; assumption. }
  assert (Heq : m = l).
  { assert (HA : AntiSymm Logic.eq Z.lt) by (intros x y; lia).
    apply (@StronglySorted_unique Z Z.lt HA); [exact Hm | exact S |].
    apply NoDup_Permutation; [| |exact Hsame];
      now apply StronglySorted_lt_NoDup. }
  assert (Hnth : nth i l 0 = num / nth (List.length l - 1 - i) l 0).
  { rewrite <- Heq at 1. unfold m.
    rewrite (nth_indep _ 0 (num / 0)) by (rewrite length_map, length_rev; lia).
    rewrite (map_nth (fun d => num / d) (rev l) 0 i).
    rewrite rev_nth by lia. do 2 f_equal. lia. }
  rewrite Hnth.
  assert (Hd : In (nth (List.length l - 1 - i) l 0) l) by (apply nth_In; lia).
  apply Hin in Hd as [Hd1 Hdd].
  destruct (divisor_pair num _ Hnum Hd1 Hdd) as (Hq & _). lia.
Qed.

(** X22. The factor pairs shown for an integer from 1 to 2^53 - 1 are
    as many as half its divisors, rounded up; each reads [d × e] with
    [d <= e] and [d * e] the integer. *)
Theorem factorPairs_multiply (P : platform) (num : Z) (allFactors : list Z) :
  host_sqrt P = sqrt -> 1 <= num < 2 ^ 53 ->
  getAllFactors P num = Ok allFactors ->
  List.length (factorPairs allFactors) = halfLength allFactors /\
  forall i, (i < halfLength allFactors)%nat ->
    exists factor1 factor2,
      nth i (factorPairs allFactors) []
      = decimal factor1 ++ times ++ decimal factor2 /\
      1 <= factor1 <= factor2 /\ factor1 * factor2 = num.
Proof.
  intros HP Hnum Hall. unfold getAllFactors in Hall.
  destruct (factorLoop_divisors P num HP Hnum) as (result & E & ND & Hres).
  rewrite E in Hall. injection Hall as <-.
  assert (S : StronglySorted Z.lt (sortAscending result)).
  { apply Sorted_le_NoDup_lt; [|now apply sortAscending_NoDup].
    apply Sorted_merge_sort. intros x y. lia. }
  assert (Hin : forall d, In d (sortAscending result) <-> 1 <= d /\ (d | num)).
  { intros d. now rewrite sortAscending_In. }
  set (allFactors := sortAscending result) in *.
  assert (Hpairs : factorPairs allFactors
                   = List.map
                       (fun i =>
                          decimal (nth i allFactors 0) ++ times ++
                          decimal (nth (List.length allFactors - 1 - i)
                                     allFactors 0))
                       (seq 0 (halfLength allFactors)))
    by now destruct allFactors.
  rewrite Hpairs. split; [now rewrite length_map, length_seq|].
  intros i Hi.
  assert (Hlen : (i < List.length allFactors)%nat).
  { unfold halfLength in Hi.
    pose proof (Nat.div_mod_eq (List.length allFactors + 1) 2).
    pose proof (Nat.mod_upper_bound (List.length allFactors + 1) 2). lia. }
  rewrite (nth_map_seq (A := jsstring) _ _ i [] Hi).
  do 2 eexists. split; [reflexivity|]. split.
  - split.
    + assert (Hd : In (nth i allFactors 0) allFactors) by (apply nth_In; lia).
      apply Hin in Hd. lia.
    + apply StronglySorted_lt_nth; [exact S | | lia].
      unfold halfLength in Hi.
      pose proof (Nat.div_mod_eq (List.length allFactors + 1) 2).
      pose proof (Nat.mod_upper_bound (List.length allFactors + 1) 2). lia.
  - apply divisors_mirror; [lia | exact S | exact Hin | exact Hlen].
Qed.

Lemma factorPairs_multiply_witness :
  List.length (factorPairs [1; 2; 3; 4; 6; 12]) = halfLength [1; 2; 3; 4; 6; 12] /\
  forall i, (i < halfLength [1; 2; 3; 4; 6; 12]%Z)%nat ->
    exists factor1 factor2,
      nth i (factorPairs [1; 2; 3; 4; 6; 12]) []
      = decimal factor1 ++ times ++ decimal factor2 /\
      1 <= factor1 <= factor2 /\ factor1 * factor2 = 12.
Proof.
  apply (factorPairs_multiply samplePlatform 12 [1; 2; 3; 4; 6; 12] eq_refl);
    [vm_compute; split; [discriminate | reflexivity] | now vm_compute].
Defined.

Lemma bump_spec (factor : Z) (groups : list (Z * Z)) :
  Forall (fun g => 1 <= snd g) groups ->
  let groups' := mapSet factor (orZero (mapGet factor groups) + 1) groups in
  groupsValue groups' = groupsValue groups * factor /\
  Forall (fun g => 1 <= snd g) groups' /\
  (In factor (List.map fst groups) /\
   List.map fst groups' = List.map fst groups \/
   ~ In factor (List.map fst groups) /\
   List.map fst groups' = List.map fst groups ++ [factor]).
Proof.
  unfold groupsValue.
  induction groups as [|[k c] groups IH]; intros F; cbn zeta.
  - cbn. split; [lia|]. split; [repeat constructor; cbn; lia|].
    right. split; [now intros []|reflexivity].
  - apply Forall_cons_1 in F as [Hc F]. cbn [snd] in Hc.
    cbn [mapGet mapSet]. destruct (Z.eqb_spec factor k) as [->|Hne].
    + cbn [orZero List.map product fold_right fst snd].
      split; [|split; [constructor; [cbn; lia | exact F] | left]].
      * rewrite Z.pow_add_r, Z.pow_1_r by lia. unfold product. lia.
      * split; [now left | reflexivity].
    + specialize (IH F). cbn zeta in IH. destruct IH as (V & F' & K).
      cbn [List.map fst snd].
      split; [|split; [constructor; [cbn; lia | exact F'] |]].
      * unfold product in *. cbn [fold_right]. rewrite V. lia.
      * destruct K as [[Hyes K] | [Hnot K]]; [left | right].
        -- split; [now right | now rewrite K].
        -- split; [|now rewrite K].
           intros [H|H]; [congruence | contradiction].
Qed.

Lemma factorGroups_spec (factors : list Z) :
  groupsValue (factorGroups factors) = product factors /\
  NoDup (List.map fst (factorGroups factors)) /\
  Forall (fun g => 1 <= snd g) (factorGroups factors) /\
  forall factor, In factor (List.map fst (factorGroups factors)) <-> In factor factors.
Proof.
  unfold factorGroups.
  assert (H : forall l groups,
            Forall (fun g => 1 <= snd g) groups ->
            NoDup (List.map fst groups) ->
            let r := fold_left
                       (fun groups factor =>
                          mapSet factor (orZero (mapGet factor groups) + 1) groups)
                       l groups in
            groupsValue r = groupsValue groups * product l /\
            NoDup (List.map fst r) /\
            Forall (fun g => 1 <= snd g) r /\
            forall factor, In factor (List.map fst r) <->
                           In factor (List.map fst groups) \/ In factor l).
  { induction l as [|f l IH]; intros groups F ND; cbn zeta.
    - cbn [fold_left]. split; [change (product []) with 1; lia|].
      split; [exact ND|]. split; [exact F|]. intros factor. cbn [In]. tauto.
    - cbn [fold_left].
      destruct (bump_spec f groups F) as (V & F' & K).
      set (groups' := mapSet f (orZero (mapGet f groups) + 1) groups) in *.
      assert (ND' : NoDup (List.map fst groups')).
      { destruct K as [[_ ->] | [Hnot ->]]; [exact ND|].
        apply NoDup_app; [exact ND | repeat constructor; now intros [] |].
        intros x Hx [<-|[]]. contradiction. }
      destruct (IH groups' F' ND') as (V2 & ND2 & F2 & I2).
      split; [|split; [exact ND2 | split; [exact F2|]]].
      + rewrite V2, V. change (product (f :: l)) with (f * product l). lia.
      + intros factor. rewrite I2.
        destruct K as [[Hyes ->] | [Hnot ->]]; cbn [In].
        * split; [tauto|]. intros [H|[<-|H]]; tauto.
        * rewrite in_app_iff. cbn [In]. tauto. }
  destruct (H factors [] (Forall_nil _) (NoDup_nil _)) as (V & ND & F & I).
  cbn zeta in *. split; [rewrite V; change (groupsValue []) with 1; lia|].
  split; [exact ND|]. split; [exact F|].
  intros factor. rewrite I. cbn. tauto.
Qed.

Lemma primeFactorize_integers (P : platform) (n : Z) :
  host_sqrt P = sqrt -> 2 <= n <= 2 ^ 53 - 1 ->
  exists factors,
    primeFactorize P (ofZ n) = Ok factors /\
    Forall Z.prime factors /\ Sorted Z.le factors /\ product factors = n.
Proof.
  intros HP Hn.
  assert (Hn' : 1 <= n < 2 ^ 53) by lia.
  destruct (primeFactorize_runs P (ofZ n)) as (factors & H1 & H2 & H3 & H4).
  - now apply ofZ_isInteger.
  - rewrite ofZ_lt by (try assumption; now vm_compute). apply Z.ltb_ge. lia.
  - unfold gt, MAX_SAFE_INTEGER.
    change (SFltb (ofZ (2 ^ 53 - 1)) (ofZ n))
      with (lt (ofZ (2 ^ 53 - 1)) (ofZ n)).
    rewrite ofZ_lt by (try assumption; now vm_compute). apply Z.ltb_ge. lia.
  - rewrite toZ_ofZ by assumption. lia.
  - apply ieee_sqrtAccurate; [exact HP|]. rewrite toZ_ofZ by assumption. lia.
  - exists factors. rewrite toZ_ofZ in H4 by assumption. auto.
Qed.

(** X23. The groups behind the exponential form of the factorisation of
    an integer from 2 to 2^53 - 1 are pairs of a prime and a count of at
    least 1, no prime twice, and the powers multiply to the integer. *)
Theorem exponentialForm_factorisation (P : platform) (n : Z)
  (factors : list Z) :
  host_sqrt P = sqrt -> 2 <= n <= 2 ^ 53 - 1 ->
  primeFactorize P (ofZ n) = Ok factors ->
  groupsValue (factorGroups factors) = n /\
  NoDup (List.map fst (factorGroups factors)) /\
  Forall (fun g => Z.prime (fst g) /\ 1 <= snd g) (factorGroups factors).
Proof.
  intros HP Hn Hf.
  destruct (primeFactorize_integers P n HP Hn) as (l & Hl & Hp & _ & Hprod).
  rewrite Hf in Hl. injection Hl as <-.
  destruct (factorGroups_spec factors) as (V & ND & F & I).
  split; [now rewrite V|]. split; [exact ND|].
  rewrite Forall_forall in *. intros g Hg. split; [|now apply F].
  apply Hp, I, in_map, Hg.
Qed.

Lemma exponentialForm_factorisation_witness :
  groupsValue (factorGroups [2; 2; 2; 3; 3; 5]) = 360 /\
  NoDup (List.map fst (factorGroups [2; 2; 2; 3; 3; 5])) /\
  Forall (fun g => Z.prime (fst g) /\ 1 <= snd g)
    (factorGroups [2; 2; 2; 3; 3; 5]).
Proof.
  apply (exponentialForm_factorisation samplePlatform 360 _ eq_refl);
    [vm_compute; split; discriminate | now vm_compute].
Defined.
